(** * memglass: the producer-side allocators of the shared-memory session

    A shallow embedding of [src/allocator.cpp] (classes [RegionManager],
    [MetadataManager] and [ObjectManager], declared in
    [include/memglass/allocator.hpp]) and the properties of the
    specification that concern them.

    Conventions of the embedding.
    - [uint64_t]/[size_t] and [uint32_t] values are [Z], every arithmetic
      operation of the source is followed by its wrap-around ([u64], [u32]).
    - A payload pointer is its address, a [Z]; [nullptr] results
      are [None].
    - A pointer to a metadata slot (an object, type or field entry) is a
      [SlotRef]: the pool that holds the slot and the
      index in that pool's array.
    - Every member function is a function on the state it reads and writes
      and returns its result together with the new state. The mutexes are
      not modelled: the calls of the producer run one after the other.
      Observers take no mutex, so for [register_object] the states between
      its stores are given as well ([register_object_trace]). *)

From stdpp Require Import gmap strings list.
From Stdlib Require Import ZArith Lia Sorted Ascii.

Local Open Scope Z_scope.

(** ** Machine integers *)

Definition u64 (x : Z) : Z := x mod 2 ^ 64.
Definition u32 (x : Z) : Z := x mod 2 ^ 32.

(** [(x + alignment - 1) & ~(alignment - 1)] on [uint64_t]. *)
Definition align_up (x alignment : Z) : Z :=
  Z.land (u64 (x + alignment - 1)) (u64 (Z.lnot (alignment - 1))).

(** ** Shared-memory names and the platform *)

Inductive ShmKind := DataRegionShm | OverflowRegionShm.

(** Modelled from the spec: [detail::make_region_shm_name] and
    [detail::make_overflow_shm_name] are not part of the sources at hand.
    The spec gives the names [mg.<S>.r.<i>] and [mg.<S>.o.<i>]; they are kept
    here as the triple they are built from. *)
Record ShmName := mkShmName {
  shm_kind : ShmKind;
  shm_session : string;
  shm_index : Z
}.

Definition make_region_shm_name (session : string) (id : Z) : ShmName :=
  mkShmName DataRegionShm session id.
Definition make_overflow_shm_name (session : string) (id : Z) : ShmName :=
  mkShmName OverflowRegionShm session id.

(** What [types.hpp] and [detail/shm.hpp] fix and the allocators only use:
    the sizes of the wire structs, the magic numbers, and the outcome of
    [SharedMemory::create name size]: [None] when it fails, otherwise the
    address [shm.data()] of the new mapping. *)
Record Platform := mkPlatform {
  sizeof_RegionDescriptor : Z;
  sizeof_MetadataOverflowDescriptor : Z;
  sizeof_ObjectEntry : Z;
  sizeof_TypeEntry : Z;
  sizeof_FieldEntry : Z;
  REGION_MAGIC : Z;
  OVERFLOW_MAGIC : Z;
  shm_create : ShmName -> Z -> option Z
}.

(** The fields of [Config] read by the allocators. *)
Record Config := mkConfig {
  initial_region_size : Z;
  max_region_size : Z;
  overflow_region_size : Z
}.

(** ** Wire structs *)

(** [ObjectState] *)
Definition Alive : Z := 1.
Definition Destroyed : Z := 2.

Module ObjectEntry.
(** A field that no store has reached yet is [None]. *)
Record t := mk {
  state : option Z;
  type_id : option Z;
  region_id : option Z;
  offset : option Z;
  generation : option Z;
  label : option string
}.

(** A slot of a freshly created mapping. *)
Definition fresh : t := mk None None None None None None.

Definition store_state (v : Z) (e : t) : t :=
  mk (Some v) (type_id e) (region_id e) (offset e) (generation e) (label e).
Definition set_type_id (v : Z) (e : t) : t :=
  mk (state e) (Some v) (region_id e) (offset e) (generation e) (label e).
Definition set_region_id (v : Z) (e : t) : t :=
  mk (state e) (type_id e) (Some v) (offset e) (generation e) (label e).
Definition set_offset (v : Z) (e : t) : t :=
  mk (state e) (type_id e) (region_id e) (Some v) (generation e) (label e).
Definition set_generation (v : Z) (e : t) : t :=
  mk (state e) (type_id e) (region_id e) (offset e) (Some v) (label e).

(** Modelled from the spec: [ObjectEntry::set_label] is declared in
    [types.hpp], which is not part of the sources at hand. The spec gives
    an inline label of 64 bytes; the array is filled with at most 63 bytes
    of the argument and padded with NUL. *)
Definition label_bytes (s : string) : string :=
  let body := String.substring 0 63 s in
  body +:+ String.string_of_list_ascii
             (replicate (64 - String.length body)%nat Ascii.zero).
Definition set_label (s : string) (e : t) : t :=
  mk (state e) (type_id e) (region_id e) (offset e) (generation e)
     (Some (label_bytes s)).

(** [state.load()]: a fresh shared-memory page reads as zero. *)
Definition load_state (e : t) : Z := default 0 (state e).

(** [std::string_view] built from a [char] array: the bytes before the first
    NUL. *)
Fixpoint c_str (s : string) : string :=
  match s with
  | EmptyString => EmptyString
  | String c r =>
      if Ascii.eqb c Ascii.zero then EmptyString else String c (c_str r)
  end.

(** [std::string_view(e.label)]. *)
Definition label_view (e : t) : string := c_str (default EmptyString (label e)).

(** Every field of the entry has been stored. *)
Definition initialised (e : t) : bool :=
  bool_decide (is_Some (state e)) && bool_decide (is_Some (type_id e)) &&
  bool_decide (is_Some (region_id e)) && bool_decide (is_Some (offset e)) &&
  bool_decide (is_Some (generation e)) && bool_decide (is_Some (label e)).
End ObjectEntry.

Module RegionDescriptor.
Record t := mk {
  magic : Z;
  region_id : Z;
  size : Z;
  used : Z;
  next_region_id : Z;
  shm_name : ShmName
}.

Definition store_used (v : Z) (d : t) : t :=
  mk (magic d) (region_id d) (size d) v (next_region_id d) (shm_name d).
Definition store_next_region_id (v : Z) (d : t) : t :=
  mk (magic d) (region_id d) (size d) (used d) v (shm_name d).
End RegionDescriptor.

Module MetadataOverflowDescriptor.
Record t := mk {
  magic : Z;
  region_id : Z;
  next_region_id : Z;
  shm_name : ShmName;
  object_entry_offset : Z;
  object_entry_capacity : Z;
  object_entry_count : Z;
  type_entry_offset : Z;
  type_entry_capacity : Z;
  type_entry_count : Z;
  field_entry_offset : Z;
  field_entry_capacity : Z;
  field_entry_count : Z
}.

Definition store_next_region_id (v : Z) (d : t) : t :=
  mk (magic d) (region_id d) v (shm_name d)
     (object_entry_offset d) (object_entry_capacity d) (object_entry_count d)
     (type_entry_offset d) (type_entry_capacity d) (type_entry_count d)
     (field_entry_offset d) (field_entry_capacity d) (field_entry_count d).
Definition store_object_entry_count (v : Z) (d : t) : t :=
  mk (magic d) (region_id d) (next_region_id d) (shm_name d)
     (object_entry_offset d) (object_entry_capacity d) v
     (type_entry_offset d) (type_entry_capacity d) (type_entry_count d)
     (field_entry_offset d) (field_entry_capacity d) (field_entry_count d).
Definition store_type_entry_count (v : Z) (d : t) : t :=
  mk (magic d) (region_id d) (next_region_id d) (shm_name d)
     (object_entry_offset d) (object_entry_capacity d) (object_entry_count d)
     (type_entry_offset d) (type_entry_capacity d) v
     (field_entry_offset d) (field_entry_capacity d) (field_entry_count d).
Definition store_field_entry_count (v : Z) (d : t) : t :=
  mk (magic d) (region_id d) (next_region_id d) (shm_name d)
     (object_entry_offset d) (object_entry_capacity d) (object_entry_count d)
     (type_entry_offset d) (type_entry_capacity d) (type_entry_count d)
     (field_entry_offset d) (field_entry_capacity d) v.
End MetadataOverflowDescriptor.

Module TelemetryHeader.
(** The fields of the header that the allocators read or write. *)
Record t := mk {
  sequence : Z;
  first_region_id : Z;
  first_overflow_region_id : Z;
  object_dir_offset : Z;
  object_dir_capacity : Z;
  object_count : Z;
  type_registry_offset : Z;
  type_registry_capacity : Z;
  type_count : Z;
  field_entries_offset : Z;
  field_entries_capacity : Z;
  field_count : Z
}.

(** [sequence.fetch_add(1)] *)
Definition sequence_fetch_add (h : t) : t :=
  mk (u64 (sequence h + 1)) (first_region_id h) (first_overflow_region_id h)
     (object_dir_offset h) (object_dir_capacity h) (object_count h)
     (type_registry_offset h) (type_registry_capacity h) (type_count h)
     (field_entries_offset h) (field_entries_capacity h) (field_count h).
Definition store_first_region_id (v : Z) (h : t) : t :=
  mk (sequence h) v (first_overflow_region_id h)
     (object_dir_offset h) (object_dir_capacity h) (object_count h)
     (type_registry_offset h) (type_registry_capacity h) (type_count h)
     (field_entries_offset h) (field_entries_capacity h) (field_count h).
Definition store_first_overflow_region_id (v : Z) (h : t) : t :=
  mk (sequence h) (first_region_id h) v
     (object_dir_offset h) (object_dir_capacity h) (object_count h)
     (type_registry_offset h) (type_registry_capacity h) (type_count h)
     (field_entries_offset h) (field_entries_capacity h) (field_count h).
Definition store_object_count (v : Z) (h : t) : t :=
  mk (sequence h) (first_region_id h) (first_overflow_region_id h)
     (object_dir_offset h) (object_dir_capacity h) v
     (type_registry_offset h) (type_registry_capacity h) (type_count h)
     (field_entries_offset h) (field_entries_capacity h) (field_count h).
Definition store_type_count (v : Z) (h : t) : t :=
  mk (sequence h) (first_region_id h) (first_overflow_region_id h)
     (object_dir_offset h) (object_dir_capacity h) (object_count h)
     (type_registry_offset h) (type_registry_capacity h) v
     (field_entries_offset h) (field_entries_capacity h) (field_count h).
Definition store_field_count (v : Z) (h : t) : t :=
  mk (sequence h) (first_region_id h) (first_overflow_region_id h)
     (object_dir_offset h) (object_dir_capacity h) (object_count h)
     (type_registry_offset h) (type_registry_capacity h) (type_count h)
     (field_entries_offset h) (field_entries_capacity h) v.
End TelemetryHeader.

(** ** Producer state *)

(** [RegionManager::Region]: the mapping ([shm.data()] is [base]), the id and
    the descriptor that sits at the start of the mapping. *)
Record Region := mkRegion {
  r_id : Z;
  r_base : Z;
  r_descriptor : RegionDescriptor.t
}.

(** [MetadataManager::OverflowRegion], with the object sub-pool of the
    mapping: [object_entry_capacity] slots. The type and field sub-pools are
    only counted, their slots are written by callers outside this file. *)
Record OverflowRegion := mkOverflowRegion {
  or_id : Z;
  or_base : Z;
  or_descriptor : MetadataOverflowDescriptor.t;
  or_objects : list ObjectEntry.t
}.

(** The slot that a pointer returned by an allocator points to: slot [i] of the
    header pool, or slot [i] of the sub-pool of [overflow_regions_[k]]. *)
Inductive SlotRef :=
  | InHeader (i : nat)
  | InOverflow (k : nat) (i : nat).

#[global] Instance SlotRef_eq_dec : EqDecision SlotRef.
Proof. solve_decision. Defined.

Record RegionManager := mkRegionManager {
  rm_session_name_ : string;
  regions_ : list Region;
  next_region_id_ : Z;
  current_region_size_ : Z
}.

Record MetadataManager := mkMetadataManager {
  mm_session_name_ : string;
  overflow_regions_ : list OverflowRegion;
  next_overflow_id_ : Z
}.

Record ObjectManager := mkObjectManager {
  ptr_to_entry_ : gmap Z SlotRef
}.

(** [Context]: the header (in the header mapping, with the slots of its
    object directory) and the three managers. *)
Record Context := mkContext {
  header : TelemetryHeader.t;
  header_objects : list ObjectEntry.t;
  regions : RegionManager;
  metadata : MetadataManager;
  objects : ObjectManager
}.

Definition with_header (f : TelemetryHeader.t -> TelemetryHeader.t) (c : Context) : Context :=
  mkContext (f (header c)) (header_objects c) (regions c) (metadata c) (objects c).
Definition with_header_objects (f : list ObjectEntry.t -> list ObjectEntry.t) (c : Context) : Context :=
  mkContext (header c) (f (header_objects c)) (regions c) (metadata c) (objects c).
Definition with_regions (f : RegionManager -> RegionManager) (c : Context) : Context :=
  mkContext (header c) (header_objects c) (f (regions c)) (metadata c) (objects c).
Definition with_metadata (f : MetadataManager -> MetadataManager) (c : Context) : Context :=
  mkContext (header c) (header_objects c) (regions c) (f (metadata c)) (objects c).
Definition with_objects (f : ObjectManager -> ObjectManager) (c : Context) : Context :=
  mkContext (header c) (header_objects c) (regions c) (metadata c) (f (objects c)).

Section Producer.

Variable P : Platform.
Variable cfg : Config.

(** ** RegionManager *)

(** [regions_.back()->descriptor->next_region_id.store(id)], guarded by
    [!regions_.empty()]. *)
Definition link_last_region (id : Z) (rs : list Region) : list Region :=
  match rs with
  | [] => []
  | _ :: _ =>
      alter (fun r => mkRegion (r_id r) (r_base r)
                        (RegionDescriptor.store_next_region_id id (r_descriptor r)))
            (pred (length rs)) rs
  end.

(** [RegionManager::create_region]. The result is the new region with its
    position in [regions_] (it is always the last one). *)
Definition create_region (size : Z) (rm : RegionManager)
    : option (nat * Region) * RegionManager :=
  let id := next_region_id_ rm in
  let rm := mkRegionManager (rm_session_name_ rm) (regions_ rm) (u64 (id + 1))
              (current_region_size_ rm) in
  let shm_name := make_region_shm_name (rm_session_name_ rm) id in
  let total_size := u64 (sizeof_RegionDescriptor P + size) in
  match shm_create P shm_name total_size with
  | None => (None, rm)
  | Some base =>
      let descriptor :=
        RegionDescriptor.mk (REGION_MAGIC P) id total_size
          (sizeof_RegionDescriptor P) 0 shm_name in
      let linked := link_last_region id (regions_ rm) in
      let region := mkRegion id base descriptor in
      (Some (length linked, region),
       mkRegionManager (rm_session_name_ rm) (linked ++ [region])
         (next_region_id_ rm) (current_region_size_ rm))
  end.

(** [RegionManager::current_region]: position and value of [regions_.back()]. *)
Definition current_region (rm : RegionManager) : option (nat * Region) :=
  match last (regions_ rm) with
  | None => None
  | Some r => Some (pred (length (regions_ rm)), r)
  end.

(** [RegionManager::init] *)
Definition RegionManager_init (session_name : string) (initial_size : Z)
    (c : Context) : bool * Context :=
  let rm := mkRegionManager session_name (regions_ (regions c))
              (next_region_id_ (regions c)) initial_size in
  match create_region initial_size rm with
  | (None, rm) => (false, with_regions (fun _ => rm) c)
  | (Some (_, region), rm) =>
      (true,
       with_header (TelemetryHeader.store_first_region_id (r_id region))
         (with_regions (fun _ => rm) c))
  end.

(** [region->descriptor->used.store(v)] for the region at position [k]. *)
Definition store_region_used (k : nat) (v : Z) (rm : RegionManager) : RegionManager :=
  mkRegionManager (rm_session_name_ rm)
    (alter (fun r => mkRegion (r_id r) (r_base r)
                       (RegionDescriptor.store_used v (r_descriptor r)))
           k (regions_ rm))
    (next_region_id_ rm) (current_region_size_ rm).

(** [RegionManager::allocate] *)
Definition allocate (size alignment : Z) (c : Context) : option Z * Context :=
  match current_region (regions c) with
  | None => (None, c)
  | Some (k, region) =>
      let current := RegionDescriptor.used (r_descriptor region) in
      let aligned := align_up current alignment in
      let new_used := u64 (aligned + size) in
      if RegionDescriptor.size (r_descriptor region) <? new_used then
        let new_size := Z.max (u64 (size + sizeof_RegionDescriptor P))
                              (u64 (current_region_size_ (regions c) * 2)) in
        let new_size := Z.min new_size (max_region_size cfg) in
        let rm := mkRegionManager (rm_session_name_ (regions c))
                    (regions_ (regions c)) (next_region_id_ (regions c))
                    new_size in
        match create_region new_size rm with
        | (None, rm) => (None, with_regions (fun _ => rm) c)
        | (Some (k, region), rm) =>
            let c := with_header TelemetryHeader.sequence_fetch_add
                       (with_regions (fun _ => rm) c) in
            let current := RegionDescriptor.used (r_descriptor region) in
            let aligned := align_up current alignment in
            let new_used := u64 (aligned + size) in
            (Some (r_base region + aligned),
             with_regions (store_region_used k new_used) c)
        end
      else
        (Some (r_base region + aligned),
         with_regions (store_region_used k new_used) c)
  end.

(** [RegionManager::get_region_data] *)
Definition get_region_data (region_id : Z) (rm : RegionManager) : option Z :=
  r_base <$> List.find (fun r => r_id r =? region_id) (regions_ rm).

(** [RegionManager::get_location]: the first region whose mapping
    [base, base + size) contains [ptr], as [(region_id, offset)]. *)
Definition get_location (ptr : Z) (rm : RegionManager) : option (Z * Z) :=
  (fun r => (r_id r, ptr - r_base r)) <$>
  List.find (fun r => (r_base r <=? ptr) &&
                      (ptr <? r_base r + RegionDescriptor.size (r_descriptor r)))
            (regions_ rm).

(** ** MetadataManager *)

(** [MetadataManager::init] *)
Definition MetadataManager_init (session_name : string) (c : Context) : bool * Context :=
  (true,
   with_metadata (fun mm => mkMetadataManager session_name (overflow_regions_ mm)
                              (next_overflow_id_ mm)) c).

(** The sub-pool capacities computed by [create_overflow_region]. *)
Definition overflow_available : Z :=
  u64 (overflow_region_size cfg - sizeof_MetadataOverflowDescriptor P).
Definition overflow_object_capacity : Z :=
  u32 (u64 (overflow_available * 50) / 100 / sizeof_ObjectEntry P).
Definition overflow_type_capacity : Z :=
  u32 (u64 (overflow_available * 10) / 100 / sizeof_TypeEntry P).
Definition overflow_field_capacity : Z :=
  u32 (u64 (overflow_available * 40) / 100 / sizeof_FieldEntry P).

(** [overflow_regions_.back()->descriptor->next_region_id.store(id)] *)
Definition link_last_overflow (id : Z) (rs : list OverflowRegion) : list OverflowRegion :=
  alter (fun r => mkOverflowRegion (or_id r) (or_base r)
                    (MetadataOverflowDescriptor.store_next_region_id id (or_descriptor r))
                    (or_objects r))
        (pred (length rs)) rs.

(** [MetadataManager::create_overflow_region]. The result is the new region
    with its position in [overflow_regions_]. *)
Definition create_overflow_region (c : Context)
    : option (nat * OverflowRegion) * Context :=
  let id := next_overflow_id_ (metadata c) in
  let c := with_metadata (fun mm => mkMetadataManager (mm_session_name_ mm)
                                      (overflow_regions_ mm) (u64 (id + 1))) c in
  let shm_name := make_overflow_shm_name (mm_session_name_ (metadata c)) id in
  let header_size := sizeof_MetadataOverflowDescriptor P in
  let object_capacity := overflow_object_capacity in
  let type_capacity := overflow_type_capacity in
  let field_capacity := overflow_field_capacity in
  let object_size := u64 (object_capacity * sizeof_ObjectEntry P) in
  let type_size := u64 (type_capacity * sizeof_TypeEntry P) in
  let field_size := u64 (field_capacity * sizeof_FieldEntry P) in
  let total_size := u64 (header_size + object_size + type_size + field_size) in
  match shm_create P shm_name total_size with
  | None => (None, c)
  | Some base =>
      let descriptor :=
        MetadataOverflowDescriptor.mk (OVERFLOW_MAGIC P) id 0 shm_name
          (u32 header_size) object_capacity 0
          (u32 (u64 (header_size + object_size))) type_capacity 0
          (u32 (u64 (header_size + object_size + type_size))) field_capacity 0 in
      let region :=
        mkOverflowRegion id base descriptor
          (replicate (Z.to_nat object_capacity) ObjectEntry.fresh) in
      let olds := overflow_regions_ (metadata c) in
      let c :=
        match olds with
        | _ :: _ =>
            with_metadata (fun mm => mkMetadataManager (mm_session_name_ mm)
                                       (link_last_overflow id olds)
                                       (next_overflow_id_ mm)) c
        | [] => with_header (TelemetryHeader.store_first_overflow_region_id id) c
        end in
      let c := with_metadata (fun mm => mkMetadataManager (mm_session_name_ mm)
                                          (overflow_regions_ mm ++ [region])
                                          (next_overflow_id_ mm)) c in
      let c := with_header TelemetryHeader.sequence_fetch_add c in
      (Some (length olds, region), c)
  end.

(** [MetadataManager::current_overflow_region] *)
Definition current_overflow_region (mm : MetadataManager) : option (nat * OverflowRegion) :=
  match last (overflow_regions_ mm) with
  | None => None
  | Some r => Some (pred (length (overflow_regions_ mm)), r)
  end.

(** A store to the descriptor of [overflow_regions_[k]]. *)
Definition store_overflow_descriptor (k : nat)
    (f : MetadataOverflowDescriptor.t -> MetadataOverflowDescriptor.t)
    (c : Context) : Context :=
  with_metadata (fun mm =>
    mkMetadataManager (mm_session_name_ mm)
      (alter (fun r => mkOverflowRegion (or_id r) (or_base r) (f (or_descriptor r))
                         (or_objects r))
             k (overflow_regions_ mm))
      (next_overflow_id_ mm)) c.

(** [MetadataManager::allocate_object_entry] *)
Definition allocate_object_entry (c : Context) : option SlotRef * Context :=
  let count := TelemetryHeader.object_count (header c) in
  if count <? TelemetryHeader.object_dir_capacity (header c) then
    (Some (InHeader (Z.to_nat count)),
     with_header (TelemetryHeader.store_object_count (u32 (count + 1))) c)
  else
    (* Header full - try overflow regions *)
    let in_current :=
      match current_overflow_region (metadata c) with
      | Some (k, region) =>
          let overflow_count :=
            MetadataOverflowDescriptor.object_entry_count (or_descriptor region) in
          if overflow_count <?
             MetadataOverflowDescriptor.object_entry_capacity (or_descriptor region)
          then Some (k, overflow_count) else None
      | None => None
      end in
    match in_current with
    | Some (k, overflow_count) =>
        (Some (InOverflow k (Z.to_nat overflow_count)),
         store_overflow_descriptor k
           (MetadataOverflowDescriptor.store_object_entry_count
              (u32 (overflow_count + 1))) c)
    | None =>
        (* Need new overflow region *)
        match create_overflow_region c with
        | (None, c) => (None, c)
        | (Some (k, _), c) =>
            (Some (InOverflow k 0),
             store_overflow_descriptor k
               (MetadataOverflowDescriptor.store_object_entry_count 1) c)
        end
    end.

(** [MetadataManager::allocate_type_entry] *)
Definition allocate_type_entry (c : Context) : option SlotRef * Context :=
  let count := TelemetryHeader.type_count (header c) in
  if count <? TelemetryHeader.type_registry_capacity (header c) then
    (Some (InHeader (Z.to_nat count)),
     with_header (TelemetryHeader.store_type_count (u32 (count + 1))) c)
  else
    let in_current :=
      match current_overflow_region (metadata c) with
      | Some (k, region) =>
          let overflow_count :=
            MetadataOverflowDescriptor.type_entry_count (or_descriptor region) in
          if overflow_count <?
             MetadataOverflowDescriptor.type_entry_capacity (or_descriptor region)
          then Some (k, overflow_count) else None
      | None => None
      end in
    match in_current with
    | Some (k, overflow_count) =>
        (Some (InOverflow k (Z.to_nat overflow_count)),
         store_overflow_descriptor k
           (MetadataOverflowDescriptor.store_type_entry_count
              (u32 (overflow_count + 1))) c)
    | None =>
        match create_overflow_region c with
        | (None, c) => (None, c)
        | (Some (k, _), c) =>
            (Some (InOverflow k 0),
             store_overflow_descriptor k
               (MetadataOverflowDescriptor.store_type_entry_count 1) c)
        end
    end.

(** [MetadataManager::allocate_field_entries] *)
Definition allocate_field_entries (count : Z) (c : Context) : option SlotRef * Context :=
  if count =? 0 then (None, c) else
  let current := TelemetryHeader.field_count (header c) in
  if u32 (current + count) <=? TelemetryHeader.field_entries_capacity (header c) then
    (Some (InHeader (Z.to_nat current)),
     with_header (TelemetryHeader.store_field_count (u32 (current + count))) c)
  else
    let in_current :=
      match current_overflow_region (metadata c) with
      | Some (k, region) =>
          let overflow_count :=
            MetadataOverflowDescriptor.field_entry_count (or_descriptor region) in
          if u32 (overflow_count + count) <=?
             MetadataOverflowDescriptor.field_entry_capacity (or_descriptor region)
          then Some (k, overflow_count) else None
      | None => None
      end in
    match in_current with
    | Some (k, overflow_count) =>
        (Some (InOverflow k (Z.to_nat overflow_count)),
         store_overflow_descriptor k
           (MetadataOverflowDescriptor.store_field_entry_count
              (u32 (overflow_count + count))) c)
    | None =>
        match create_overflow_region c with
        | (None, c) => (None, c)
        | (Some (k, region), c) =>
            (* Check if new region can hold all requested fields *)
            if MetadataOverflowDescriptor.field_entry_capacity (or_descriptor region)
               <? count
            then (None, c)
            else
              (Some (InOverflow k 0),
               store_overflow_descriptor k
                 (MetadataOverflowDescriptor.store_field_entry_count count) c)
        end
    end.

(** [MetadataManager::total_object_count] *)
Definition total_object_count (c : Context) : Z :=
  foldl (fun total r =>
           u32 (total + MetadataOverflowDescriptor.object_entry_count (or_descriptor r)))
        (TelemetryHeader.object_count (header c))
        (overflow_regions_ (metadata c)).

(** [MetadataManager::total_type_count] *)
Definition total_type_count (c : Context) : Z :=
  foldl (fun total r =>
           u32 (total + MetadataOverflowDescriptor.type_entry_count (or_descriptor r)))
        (TelemetryHeader.type_count (header c))
        (overflow_regions_ (metadata c)).

(** [MetadataManager::total_field_count] *)
Definition total_field_count (c : Context) : Z :=
  foldl (fun total r =>
           u32 (total + MetadataOverflowDescriptor.field_entry_count (or_descriptor r)))
        (TelemetryHeader.field_count (header c))
        (overflow_regions_ (metadata c)).

(** ** ObjectManager *)

(** A store to the object entry that [e] points to. *)
Definition update_entry (e : SlotRef) (f : ObjectEntry.t -> ObjectEntry.t)
    (c : Context) : Context :=
  match e with
  | InHeader i => with_header_objects (alter f i) c
  | InOverflow k i =>
      with_metadata (fun mm =>
        mkMetadataManager (mm_session_name_ mm)
          (alter (fun r => mkOverflowRegion (or_id r) (or_base r) (or_descriptor r)
                             (alter f i (or_objects r)))
                 k (overflow_regions_ mm))
          (next_overflow_id_ mm)) c
  end.

(** The object entry that [e] points to. *)
Definition entry_at (e : SlotRef) (c : Context) : option ObjectEntry.t :=
  match e with
  | InHeader i => header_objects c !! i
  | InOverflow k i => overflow_regions_ (metadata c) !! k ≫= fun r => or_objects r !! i
  end.

(** The stores of [ObjectManager::register_object] that follow the
    allocation of the entry, in program order (source lines 394 to 404). *)
Definition register_stores (ptr : Z) (e : SlotRef) (type_id region_id offset : Z)
    (label : string) : list (Context -> Context) :=
  [ update_entry e (ObjectEntry.store_state Alive);
    update_entry e (ObjectEntry.set_type_id type_id);
    update_entry e (ObjectEntry.set_region_id region_id);
    update_entry e (ObjectEntry.set_offset offset);
    update_entry e (ObjectEntry.set_generation 1);
    update_entry e (ObjectEntry.set_label label);
    with_header TelemetryHeader.sequence_fetch_add;
    with_objects (fun om => mkObjectManager (<[ptr := e]> (ptr_to_entry_ om))) ].

(** The states that a list of stores goes through, one per store. *)
Fixpoint run_stores (fs : list (Context -> Context)) (c : Context) : list Context :=
  match fs with
  | [] => []
  | f :: fs => f c :: run_stores fs (f c)
  end.

(** [ObjectManager::register_object] *)
Definition register_object (ptr type_id : Z) (label : string) (c : Context)
    : option SlotRef * Context :=
  match get_location ptr (regions c) with
  | None => (None, c)
  | Some (region_id, offset) =>
      match allocate_object_entry c with
      | (None, c) => (None, c)
      | (Some e, c) =>
          (Some e,
           foldl (fun c store => store c) c
                 (register_stores ptr e type_id region_id offset label))
      end
  end.

(** The states of the session during a call of [register_object] that
    allocates an entry: the state that [allocate_object_entry] leaves, then
    the state after each store of [register_stores]. *)
Definition register_object_trace (ptr type_id : Z) (label : string) (c : Context)
    : list Context :=
  match get_location ptr (regions c) with
  | None => []
  | Some (region_id, offset) =>
      match allocate_object_entry c with
      | (None, c) => [c]
      | (Some e, c) =>
          c :: run_stores (register_stores ptr e type_id region_id offset label) c
      end
  end.

(** [ObjectManager::destroy_object] *)
Definition destroy_object (ptr : Z) (c : Context) : Context :=
  match ptr_to_entry_ (objects c) !! ptr with
  | Some e =>
      let c := update_entry e (ObjectEntry.store_state Destroyed) c in
      let c := with_header TelemetryHeader.sequence_fetch_add c in
      with_objects (fun om => mkObjectManager (delete ptr (ptr_to_entry_ om))) c
  | None => c
  end.

(** [entries[i]]; a slot outside the list reads as fresh memory. *)
Definition slot (entries : list ObjectEntry.t) (i : nat) : ObjectEntry.t :=
  default ObjectEntry.fresh (entries !! i).

(** The loop of [find_object]: [n] iterations from index [i]. *)
Fixpoint find_object_loop (entries : list ObjectEntry.t) (label : string)
    (i n : nat) : option nat :=
  match n with
  | O => None
  | S n =>
      if (ObjectEntry.load_state (slot entries i) =? Alive) &&
         bool_decide (ObjectEntry.label_view (slot entries i) = label)
      then Some i
      else find_object_loop entries label (S i) n
  end.

(** [ObjectManager::find_object] *)
Definition find_object (label : string) (c : Context) : option SlotRef :=
  let count := TelemetryHeader.object_count (header c) in
  let entries := header_objects c in
  InHeader <$> find_object_loop entries label 0 (Z.to_nat count).

(** The loop of [get_all_objects]: [n] iterations from index [i]. *)
Fixpoint get_all_objects_loop (entries : list ObjectEntry.t) (i n : nat)
    : list SlotRef :=
  match n with
  | O => []
  | S n =>
      if ObjectEntry.load_state (slot entries i) =? Alive
      then InHeader i :: get_all_objects_loop entries (S i) n
      else get_all_objects_loop entries (S i) n
  end.

(** [ObjectManager::get_all_objects] *)
Definition get_all_objects (c : Context) : list SlotRef :=
  let count := TelemetryHeader.object_count (header c) in
  let entries := header_objects c in
  get_all_objects_loop entries 0 (Z.to_nat count).

(** ** Runs of the producer *)

(** The calls that a producer makes on the three managers. *)
Inductive Op :=
  | OpRegionInit (session_name : string) (initial_size : Z)
  | OpMetadataInit (session_name : string)
  | OpAllocate (size alignment : Z)
  | OpAllocateObjectEntry
  | OpAllocateTypeEntry
  | OpAllocateFieldEntries (count : Z)
  | OpRegisterObject (ptr type_id : Z) (label : string)
  | OpDestroyObject (ptr : Z).

Definition step (op : Op) (c : Context) : Context :=
  match op with
  | OpRegionInit s n => snd (RegionManager_init s n c)
  | OpMetadataInit s => snd (MetadataManager_init s c)
  | OpAllocate size alignment => snd (allocate size alignment c)
  | OpAllocateObjectEntry => snd (allocate_object_entry c)
  | OpAllocateTypeEntry => snd (allocate_type_entry c)
  | OpAllocateFieldEntries n => snd (allocate_field_entries n c)
  | OpRegisterObject ptr type_id label => snd (register_object ptr type_id label c)
  | OpDestroyObject ptr => destroy_object ptr c
  end.

Definition run (ops : list Op) (c : Context) : Context :=
  foldl (fun c op => step op c) c ops.

(** The managers as their constructors leave them ([next_region_id_ = 1],
    [next_overflow_id_ = 1], [current_region_size_] from the configuration).

    Modelled from the spec: the constructor of [Context], which lays out the
    header, is not part of the sources at hand; the header starts with
    [sequence = 0], no region, no overflow region and three empty pools of
    the given capacities. *)
Definition initial_context (object_capacity type_capacity field_capacity : Z) : Context :=
  mkContext
    (TelemetryHeader.mk 0 0 0 0 object_capacity 0 0 type_capacity 0 0 field_capacity 0)
    (replicate (Z.to_nat object_capacity) ObjectEntry.fresh)
    (mkRegionManager EmptyString [] 1 (initial_region_size cfg))
    (mkMetadataManager EmptyString [] 1)
    (mkObjectManager ∅).

End Producer.

(** ** A concrete platform

    Modelled from the spec: the struct sizes follow the binary layout of the
    spec with natural alignment (a region descriptor is 5 words and a
    256-byte name, an object entry 92 bytes padded to 96, and so on); the
    magic numbers are arbitrary; every mapping is granted, data region [i] at
    address [i * 2^32] and overflow region [i] at [2^48 + i * 2^32]. *)
Definition demo_shm_create (name : ShmName) (size : Z) : option Z :=
  match shm_kind name with
  | DataRegionShm => Some (shm_index name * 2 ^ 32)
  | OverflowRegionShm => Some (2 ^ 48 + shm_index name * 2 ^ 32)
  end.

Definition demo_platform : Platform :=
  mkPlatform 296 320 96 80 80 1 2 demo_shm_create.

(** The same platform when the system grants the first data region only. *)
Definition single_region_platform : Platform :=
  mkPlatform 296 320 96 80 80 1 2
    (fun name _ =>
       match shm_kind name with
       | DataRegionShm => if shm_index name =? 1 then Some (2 ^ 32) else None
       | OverflowRegionShm => None
       end).

(** A session with small pools: regions of 4096 bytes that may grow to 8192,
    overflow regions of 2048 bytes. *)
Definition small_config : Config := mkConfig 4096 8192 2048.

(** The configuration of the scenario of the specification: regions of 4 KiB
    that may grow to 16 MiB. *)
Definition roomy_config : Config := mkConfig 4096 16777216 2048.

(** A configuration whose overflow regions, of 400 bytes, are too small for
    an object entry. *)
Definition cramped_config : Config := mkConfig 4096 8192 400.

(** A new session whose header holds one object entry, one type entry and
    four field entries. *)
Definition new_session : Context := initial_context small_config 1 1 4.

(** The session after [init] and two allocations of 16 bytes; the payloads
    are at the offsets 296 and 312 of region 1. *)
Definition two_payloads : Context :=
  run demo_platform small_config
    [OpRegionInit "s" 4096; OpAllocate 16 8; OpAllocate 16 8] new_session.
Definition payload1 : Z := 2 ^ 32 + 296.
Definition payload2 : Z := 2 ^ 32 + 312.

(** The first payload registered, then the second one (the header pool is
    full by then). *)
Definition one_registered : Context :=
  snd (register_object demo_platform small_config payload1 100 "eurusd" two_payloads).
Definition two_registered : Context :=
  snd (register_object demo_platform small_config payload2 100 "gbpusd" one_registered).

(** ** Predicates of the specification *)

Section Specification.

Variable P : Platform.
Variable cfg : Config.

(** The grow size as the specification words it, in unbounded integers:
    [max(size + descriptorSize, current_region_size * 2)], clamped to
    [config.max_region_size]. *)
Definition spec_grow_size (size current_region_size : Z) : Z :=
  Z.min (Z.max (size + sizeof_RegionDescriptor P) (current_region_size * 2))
        (max_region_size cfg).

(** A call changes the structure or the visible content of the session: it
    adds a data region or an overflow region, registers an object, or destroys
    a registered object. *)
Definition structural_change (op : Op) (c : Context) : Prop :=
  length (regions_ (regions (step P cfg op c))) <> length (regions_ (regions c)) \/
  length (overflow_regions_ (metadata (step P cfg op c))) <>
    length (overflow_regions_ (metadata c)) \/
  match op with
  | OpRegisterObject ptr type_id label =>
      is_Some (fst (register_object P cfg ptr type_id label c))
  | OpDestroyObject ptr => is_Some (ptr_to_entry_ (objects c) !! ptr)
  | _ => False
  end.

Definition is_region_init (op : Op) : bool :=
  match op with OpRegionInit _ _ => true | _ => false end.

(** Entry [i] of the header object directory is alive and carries [label]. *)
Definition object_matches (label : string) (c : Context) (i : nat) : Prop :=
  ObjectEntry.load_state (slot (header_objects c) i) = Alive /\
  ObjectEntry.label_view (slot (header_objects c) i) = label.

(** The alive entries among the first [count] slots of a pool, in index
    order. *)
Definition alive_in_pool (ref : nat -> SlotRef) (count : Z)
    (slots : list ObjectEntry.t) : list SlotRef :=
  ref <$> filter (fun i => ObjectEntry.load_state (slot slots i) = Alive)
                 (seq 0 (Z.to_nat count)).

(** The listing of all objects as the specification words it: the alive
    entries of the header pool and of the object sub-pool of every overflow
    region. *)
Definition spec_all_objects (c : Context) : list SlotRef :=
  alive_in_pool InHeader (TelemetryHeader.object_count (header c)) (header_objects c) ++
  mjoin (imap (fun k r =>
                 alive_in_pool (InOverflow k)
                   (MetadataOverflowDescriptor.object_entry_count (or_descriptor r))
                   (or_objects r))
              (overflow_regions_ (metadata c))).

(** The header pool that serves [op] cannot take the request: the object or
    type pool is full, or the field pool has no room for [count] more entries
    (the sum is the 32-bit one of the source). *)
Definition header_pool_refuses (op : Op) (c : Context) : Prop :=
  match op with
  | OpAllocateObjectEntry | OpRegisterObject _ _ _ =>
      TelemetryHeader.object_dir_capacity (header c) <=
      TelemetryHeader.object_count (header c)
  | OpAllocateTypeEntry =>
      TelemetryHeader.type_registry_capacity (header c) <=
      TelemetryHeader.type_count (header c)
  | OpAllocateFieldEntries count =>
      TelemetryHeader.field_entries_capacity (header c) <
      u32 (TelemetryHeader.field_count (header c) + count)
  | _ => False
  end.

(** The same for the matching sub-pool of the current overflow region, when
    there is one. *)
Definition current_overflow_refuses (op : Op) (c : Context) : Prop :=
  forall (k : nat) (region : OverflowRegion),
    current_overflow_region (metadata c) = Some (k, region) ->
    let d := or_descriptor region in
    match op with
    | OpAllocateObjectEntry | OpRegisterObject _ _ _ =>
        MetadataOverflowDescriptor.object_entry_capacity d <=
        MetadataOverflowDescriptor.object_entry_count d
    | OpAllocateTypeEntry =>
        MetadataOverflowDescriptor.type_entry_capacity d <=
        MetadataOverflowDescriptor.type_entry_count d
    | OpAllocateFieldEntries count =>
        MetadataOverflowDescriptor.field_entry_capacity d <
        u32 (MetadataOverflowDescriptor.field_entry_count d + count)
    | _ => False
    end.

(** The ids of the data regions and of the overflow regions, in creation
    order. *)
Definition region_ids (c : Context) : list Z := r_id <$> regions_ (regions c).
Definition overflow_ids (c : Context) : list Z :=
  or_id <$> overflow_regions_ (metadata c).

(** The ids [1, 2, ..., n]. *)
Definition ids_from_one (n : nat) : list Z := Z.of_nat <$> seq 1 n.

(** The system grants every mapping. *)
Definition never_refuses : Prop :=
  forall (name : ShmName) (size : Z), is_Some (shm_create P name size).

(** How an id counter and the ids handed out move in one call: nothing is
    created, or the counter's value goes to a new region, or (only when the
    system refuses the mapping) the value is used up without a region. *)
Definition id_transition (next : Z) (ids : list Z) (next' : Z) (ids' : list Z) : Prop :=
  (next' = next /\ ids' = ids) \/
  (next' = u64 (next + 1) /\ ids' = ids ++ [next]) \/
  (next' = u64 (next + 1) /\ ids' = ids /\ ~ never_refuses).

(** The ids handed out so far are strictly increasing, at least 1 and below
    the counter, which is at most [bound]; when no mapping is ever refused
    they are exactly [1 .. n]. *)
Definition ids_ok (bound next : Z) (ids : list Z) : Prop :=
  1 <= next <= bound /\
  StronglySorted Z.lt ids /\
  Forall (fun i => 1 <= i < next) ids /\
  (never_refuses -> ids = ids_from_one (length ids) /\ next = Z.of_nat (length ids) + 1).

(** An object pool as an observer sees it: capacity, published count and
    slots. The header pool comes first, then the object sub-pool of each
    overflow region in link order. *)
Record ObjectPool := mkObjectPool {
  pool_capacity : Z;
  pool_count : Z;
  pool_slots : list ObjectEntry.t
}.

Definition header_pool (c : Context) : ObjectPool :=
  mkObjectPool (TelemetryHeader.object_dir_capacity (header c))
    (TelemetryHeader.object_count (header c)) (header_objects c).

Definition overflow_pool (r : OverflowRegion) : ObjectPool :=
  mkObjectPool (MetadataOverflowDescriptor.object_entry_capacity (or_descriptor r))
    (MetadataOverflowDescriptor.object_entry_count (or_descriptor r)) (or_objects r).

Definition object_pools (c : Context) : list ObjectPool :=
  header_pool c :: (overflow_pool <$> overflow_regions_ (metadata c)).

(** The pool and the index that a slot reference stands for. *)
Definition pool_of (e : SlotRef) : nat :=
  match e with InHeader _ => O | InOverflow k _ => S k end.
Definition index_of (e : SlotRef) : nat :=
  match e with InHeader i => i | InOverflow _ i => i end.

(** The slot is below the count of its pool: an observer may read it. *)
Definition slot_published (e : SlotRef) (c : Context) : Prop :=
  exists p : ObjectPool,
    object_pools c !! pool_of e = Some p /\ Z.of_nat (index_of e) < pool_count p.

(** Every entry with index below the count of the pool exists and is fully
    initialised. *)
Definition pool_initialised (p : ObjectPool) : bool :=
  bool_decide (Z.to_nat (pool_count p) <= length (pool_slots p))%nat &&
  forallb ObjectEntry.initialised (take (Z.to_nat (pool_count p)) (pool_slots p)).

(** The same for every pool of the session. *)
Definition published_initialised (c : Context) : bool :=
  forallb pool_initialised (object_pools c).

(** The invariant of a pool between two calls of the producer: the count is
    within the capacity, the slots are those of the mapping, and the
    published ones are initialised. *)
Definition pool_ok (p : ObjectPool) : Prop :=
  0 <= pool_count p <= pool_capacity p /\
  pool_capacity p < 2 ^ 32 /\
  length (pool_slots p) = Z.to_nat (pool_capacity p) /\
  Forall (fun e => ObjectEntry.initialised e = true)
         (take (Z.to_nat (pool_count p)) (pool_slots p)).

Definition pools_ok (c : Context) : Prop := Forall pool_ok (object_pools c).

(** The object sub-pool of a new overflow region. *)
Definition fresh_overflow_pool : ObjectPool :=
  mkObjectPool (overflow_object_capacity P cfg) 0
    (replicate (Z.to_nat (overflow_object_capacity P cfg)) ObjectEntry.fresh).

(** A pool after its next slot has been published and filled with [full]. *)
Definition publish_slot (full : ObjectEntry.t) (p : ObjectPool) : ObjectPool :=
  mkObjectPool (pool_capacity p) (u32 (pool_count p + 1))
    (alter (fun _ => full) (Z.to_nat (pool_count p)) (pool_slots p)).

(** The entry that [register_object] writes. *)
Definition registered_entry (type_id region_id offset : Z) (label : string)
    : ObjectEntry.t :=
  ObjectEntry.mk (Some Alive) (Some type_id) (Some region_id) (Some offset)
    (Some 1) (Some (ObjectEntry.label_bytes label)).

Definition is_allocate_object_entry (op : Op) : bool :=
  match op with OpAllocateObjectEntry => true | _ => false end.

End Specification.

(** ** Predicates of the further properties *)

Section FurtherSpecification.

Variable P : Platform.
Variable cfg : Config.

(** The mapping of the region holds the address. *)
Definition region_contains (ptr : Z) (r : Region) : Prop :=
  r_base r <= ptr < r_base r + RegionDescriptor.size (r_descriptor r).

(** The cursor of the region is past the descriptor and within the mapping,
    whose size is a descriptor and a body of at most [max_region_size]. *)
Definition region_cursor_ok (r : Region) : Prop :=
  sizeof_RegionDescriptor P <= RegionDescriptor.used (r_descriptor r) /\
  RegionDescriptor.used (r_descriptor r) <= RegionDescriptor.size (r_descriptor r) /\
  RegionDescriptor.size (r_descriptor r) <=
    sizeof_RegionDescriptor P + max_region_size cfg.

(** A call whose sizes respect the configuration: an initial size within
    [max_region_size]; a request that fits a region of [max_region_size]
    together with its descriptor, with a power-of-two alignment that the size
    of the descriptor is a multiple of. Calls on the other managers are not
    constrained. *)
Definition well_sized (op : Op) : Prop :=
  match op with
  | OpRegionInit _ initial_size => 0 <= initial_size <= max_region_size cfg
  | OpAllocate size alignment =>
      0 <= size /\
      size + sizeof_RegionDescriptor P <= max_region_size cfg /\
      exists j : Z, 0 <= j /\ alignment = 2 ^ j /\
                    sizeof_RegionDescriptor P mod 2 ^ j = 0
  | _ => True
  end.

(** The invariant of the region manager under well-sized calls: every cursor
    is within its mapping, and once a region exists [current_region_size_] is
    within [max_region_size]. *)
Definition regions_ok (c : Context) : Prop :=
  Forall region_cursor_ok (regions_ (regions c)) /\
  (regions_ (regions c) = [] \/
   0 <= current_region_size_ (regions c) <= max_region_size cfg).

(** Region [r'] is region [r] with its cursor moved forward, if at all. *)
Definition cursor_advanced (r r' : Region) : Prop :=
  RegionDescriptor.used (r_descriptor r) <= RegionDescriptor.used (r_descriptor r') /\
  RegionDescriptor.size (r_descriptor r') = RegionDescriptor.size (r_descriptor r) /\
  r_base r' = r_base r /\ r_id r' = r_id r.

(** The three kinds of metadata entries. *)
Inductive EntryKind := ObjectEntries | TypeEntries | FieldEntries.

#[global] Instance EntryKind_eq_dec : EqDecision EntryKind.
Proof. solve_decision. Defined.

(** A pool of metadata entries as its capacity and its count. *)
Record PoolCount := mkPoolCount {
  capacity_of : Z;
  count_of : Z
}.

(** The pool of each kind in the header and in an overflow region. *)
Definition header_count (kind : EntryKind) (h : TelemetryHeader.t) : PoolCount :=
  match kind with
  | ObjectEntries =>
      mkPoolCount (TelemetryHeader.object_dir_capacity h) (TelemetryHeader.object_count h)
  | TypeEntries =>
      mkPoolCount (TelemetryHeader.type_registry_capacity h) (TelemetryHeader.type_count h)
  | FieldEntries =>
      mkPoolCount (TelemetryHeader.field_entries_capacity h) (TelemetryHeader.field_count h)
  end.

Definition overflow_count (kind : EntryKind) (r : OverflowRegion) : PoolCount :=
  let d := or_descriptor r in
  match kind with
  | ObjectEntries =>
      mkPoolCount (MetadataOverflowDescriptor.object_entry_capacity d)
        (MetadataOverflowDescriptor.object_entry_count d)
  | TypeEntries =>
      mkPoolCount (MetadataOverflowDescriptor.type_entry_capacity d)
        (MetadataOverflowDescriptor.type_entry_count d)
  | FieldEntries =>
      mkPoolCount (MetadataOverflowDescriptor.field_entry_capacity d)
        (MetadataOverflowDescriptor.field_entry_count d)
  end.

(** The pools of one kind: the header pool, then the sub-pool of each
    overflow region in link order. *)
Definition pool_counts (kind : EntryKind) (c : Context) : list PoolCount :=
  header_count kind (header c) :: (overflow_count kind <$> overflow_regions_ (metadata c)).

(** The capacity that [create_overflow_region] gives to each sub-pool, and
    the sub-pool of a new overflow region. *)
Definition overflow_capacity (kind : EntryKind) : Z :=
  match kind with
  | ObjectEntries => overflow_object_capacity P cfg
  | TypeEntries => overflow_type_capacity P cfg
  | FieldEntries => overflow_field_capacity P cfg
  end.

Definition fresh_count (kind : EntryKind) : PoolCount :=
  mkPoolCount (overflow_capacity kind) 0.

(** The pools of one kind before a call takes entries from them: those of
    the session, with the sub-pool of a new overflow region when the call
    created one. *)
Definition pools_before (grown : bool) (kind : EntryKind) (c : Context) : list PoolCount :=
  pool_counts kind c ++ (if grown then [fresh_count kind] else []).

(** The count is within the capacity, both 32-bit values. *)
Definition count_within (p : PoolCount) : Prop :=
  0 <= count_of p <= capacity_of p /\ capacity_of p < 2 ^ 32.

Definition counts_ok (c : Context) : Prop :=
  forall kind : EntryKind, Forall count_within (pool_counts kind c).

(** The arguments of a call are values of their C++ types: the number of
    field entries is a [uint32_t]. *)
Definition typed (op : Op) : Prop :=
  match op with
  | OpAllocateFieldEntries count => 0 <= count < 2 ^ 32
  | _ => True
  end.

(** A successful allocation of entries of one kind: the slot [e] is the next
    one of its pool [p], whose count becomes [v]; the pool is one of the
    session or, when [grown], the sub-pool of the overflow region that the
    call created; the pools of the other kinds only gain the sub-pools of
    that region. *)
Definition takes (kind : EntryKind) (grown : bool) (e : SlotRef) (p : PoolCount)
    (v : Z) (c c' : Context) : Prop :=
  pools_before grown kind c !! pool_of e = Some p /\
  index_of e = Z.to_nat (count_of p) /\
  (grown = true -> pool_of e = length (pool_counts kind c)) /\
  pool_counts kind c' =
    <[pool_of e := mkPoolCount (capacity_of p) v]> (pools_before grown kind c) /\
  forall kind' : EntryKind, kind' <> kind ->
    pool_counts kind' c' = pools_before grown kind' c.

(** The sum of the counts of a list of pools, in unbounded integers, and
    their 32-bit total accumulated from the first pool on, as the loops of
    [total_object_count] and its siblings do. *)
Definition sum_counts (ps : list PoolCount) : Z :=
  foldr (fun q s => count_of q + s) 0 ps.

Definition total_of (ps : list PoolCount) : Z :=
  match ps with
  | [] => 0
  | p :: ps => foldl (fun total q => u32 (total + count_of q)) (count_of p) ps
  end.

(** The number of changes that a call makes known through the sequence
    number: the data regions that [allocate] adds, the overflow regions that
    the call adds, the object it registers and the registered object it
    destroys. The first region, created by [init], is not counted. *)
Definition sequence_steps (op : Op) (c : Context) : Z :=
  let c' := step P cfg op c in
  (if is_region_init op then 0
   else Z.of_nat (length (regions_ (regions c')) - length (regions_ (regions c)))) +
  Z.of_nat (length (overflow_regions_ (metadata c')) -
            length (overflow_regions_ (metadata c))) +
  match op with
  | OpRegisterObject ptr type_id label =>
      match fst (register_object P cfg ptr type_id label c) with
      | Some _ => 1
      | None => 0
      end
  | OpDestroyObject ptr =>
      match ptr_to_entry_ (objects c) !! ptr with
      | Some _ => 1
      | None => 0
      end
  | _ => 0
  end.

(** The slot [e] is published in the pools and its entry is alive. *)
Definition alive_at (pools : list ObjectPool) (e : SlotRef) : Prop :=
  exists (p : ObjectPool) (entry : ObjectEntry.t),
    pools !! pool_of e = Some p /\
    Z.of_nat (index_of e) < pool_count p /\
    pool_slots p !! index_of e = Some entry /\
    ObjectEntry.load_state entry = Alive.

(** The invariant of the pointer map: every pointer stands for a published,
    alive entry, and no two pointers stand for the same entry. *)
Definition objects_ok (c : Context) : Prop :=
  forall (ptr : Z) (e : SlotRef),
    ptr_to_entry_ (objects c) !! ptr = Some e ->
    alive_at (object_pools c) e /\
    forall ptr' : Z, ptr_to_entry_ (objects c) !! ptr' = Some e -> ptr' = ptr.

(** Region [r'] is the mapping of region [r]: same id, base and size. *)
Definition same_mapping (r r' : Region) : Prop :=
  r_id r' = r_id r /\ r_base r' = r_base r /\
  RegionDescriptor.size (r_descriptor r') = RegionDescriptor.size (r_descriptor r).

(** The regions after a call: those of before, as mappings, then the new
    ones. *)
Definition extends (rs rs' : list Region) : Prop :=
  exists old extra : list Region, rs' = old ++ extra /\ Forall2 same_mapping rs old.

(** The size of the mapping of an overflow region, and the system refusing
    the mapping of the next one. *)
Definition overflow_total_size : Z :=
  u64 (sizeof_MetadataOverflowDescriptor P +
       u64 (overflow_object_capacity P cfg * sizeof_ObjectEntry P) +
       u64 (overflow_type_capacity P cfg * sizeof_TypeEntry P) +
       u64 (overflow_field_capacity P cfg * sizeof_FieldEntry P)).

Definition overflow_mapping_refused (c : Context) : Prop :=
  shm_create P
    (make_overflow_shm_name (mm_session_name_ (metadata c))
       (next_overflow_id_ (metadata c)))
    overflow_total_size = None.

(** The chain of the regions of one kind as an observer follows it: the id
    and the [next_region_id] of each region, in creation order. *)
Definition region_links (c : Context) : list (Z * Z) :=
  (fun r => (r_id r, RegionDescriptor.next_region_id (r_descriptor r))) <$>
  regions_ (regions c).

Definition overflow_links (c : Context) : list (Z * Z) :=
  (fun r => (or_id r, MetadataOverflowDescriptor.next_region_id (or_descriptor r))) <$>
  overflow_regions_ (metadata c).

(** The chain is well linked from the id [first] kept in the header:
    [first] is the id of the first region (0 when there is none), every
    region names the one created after it, and the last one names 0. *)
Definition chained (first : Z) (links : list (Z * Z)) : Prop :=
  first = hd 0 (fst <$> links) /\
  snd <$> links = tail ((fst <$> links) ++ [0]).

Definition chains_ok (c : Context) : Prop :=
  chained (TelemetryHeader.first_region_id (header c)) (region_links c) /\
  chained (TelemetryHeader.first_overflow_region_id (header c)) (overflow_links c).

(** The links after a region with id [id] has been appended. *)
Definition relink (id : Z) (links : list (Z * Z)) : list (Z * Z) :=
  alter (fun p => (fst p, id)) (pred (length links)) links ++ [(id, 0)].

(** What an observer that follows the chains reads. *)
Definition chain_view (c : Context) : Z * list (Z * Z) * Z * list (Z * Z) :=
  (TelemetryHeader.first_region_id (header c), region_links c,
   TelemetryHeader.first_overflow_region_id (header c), overflow_links c).

End FurtherSpecification.

(** ** The command-line tool

    [json_escape] of [tools/memglass.cpp], which the web server applies to
    every type name, object label, type name of an object and field name that
    it writes between quotes. Characters are named by their decimal code:
    034 is the quote, 092 the backslash, 010 the newline, 013 the carriage
    return and 009 the tab. *)
Definition json_escape_char (c : Ascii.ascii) : string :=
  if Ascii.eqb c "034"%char then String "092"%char (String "034"%char EmptyString)
  else if Ascii.eqb c "092"%char then String "092"%char (String "092"%char EmptyString)
  else if Ascii.eqb c "010"%char then String "092"%char (String "n"%char EmptyString)
  else if Ascii.eqb c "013"%char then String "092"%char (String "r"%char EmptyString)
  else if Ascii.eqb c "009"%char then String "092"%char (String "t"%char EmptyString)
  else String c EmptyString.

Fixpoint json_escape (s : string) : string :=
  match s with
  | EmptyString => EmptyString
  | String c r => json_escape_char c +:+ json_escape r
  end.

(** How a reader of JSON undoes these escapes: after a backslash, [n], [r]
    and [t] stand for the newline, the carriage return and the tab, and any
    other character stands for itself. Used to state that [json_escape] loses
    nothing. *)
Definition json_unescape_char (d : Ascii.ascii) : Ascii.ascii :=
  if Ascii.eqb d "n"%char then "010"%char
  else if Ascii.eqb d "r"%char then "013"%char
  else if Ascii.eqb d "t"%char then "009"%char
  else d.

Fixpoint json_unescape (s : string) : string :=
  match s with
  | EmptyString => EmptyString
  | String c r =>
      if Ascii.eqb c "092"%char then
        match r with
        | EmptyString => String c EmptyString
        | String d r' => String (json_unescape_char d) (json_unescape r')
        end
      else String c (json_unescape r)
  end.

(** The characters that JSON does not allow unescaped inside a string: the
    quote, the backslash and the control characters below 32. *)
Definition json_must_escape (c : Ascii.ascii) : bool :=
  Ascii.eqb c "034"%char || Ascii.eqb c "092"%char || (Ascii.nat_of_ascii c <? 32)%nat.

(** * Properties *)

(** ** Machine arithmetic *)

Lemma u64_small (x : Z) : 0 <= x < 2 ^ 64 -> u64 x = x.
Proof. intros H. unfold u64. by rewrite Z.mod_small. Qed.

Lemma u32_small (x : Z) : 0 <= x < 2 ^ 32 -> u32 x = x.
Proof. intros H. unfold u32. by rewrite Z.mod_small. Qed.

Lemma u64_range (x : Z) : 0 <= u64 x < 2 ^ 64.
Proof. unfold u64. apply Z.mod_pos_bound. lia. Qed.

Lemma u32_range (x : Z) : 0 <= u32 x < 2 ^ 32.
Proof. unfold u32. apply Z.mod_pos_bound. lia. Qed.

(** For a power of two, [align_up] rounds up to the next multiple. *)
Lemma align_up_pow2 (x j : Z) :
  0 <= j -> 0 <= x -> x + 2 ^ j - 1 < 2 ^ 64 ->
  align_up x (2 ^ j) = (x + 2 ^ j - 1) / 2 ^ j * 2 ^ j.
Proof.
  intros Hj Hx Hfit.
  assert (0 < 2 ^ j) by (apply Z.pow_pos_nonneg; lia).
  unfold align_up. rewrite (u64_small (x + 2 ^ j - 1)) by lia.
  set (y := x + 2 ^ j - 1).
  unfold u64. rewrite <- Z.land_ones by lia.
  rewrite Z.land_assoc, (Z.land_comm y), <- Z.land_assoc.
  rewrite (Z.land_ones y) by lia. rewrite (Z.mod_small y) by (subst y; lia).
  rewrite Z.land_comm, <- Z.ldiff_land.
  replace (2 ^ j - 1) with (Z.ones j) by (rewrite Z.ones_equiv; lia).
  rewrite Z.ldiff_ones_r by lia.
  by rewrite Z.shiftr_div_pow2, Z.shiftl_mul_pow2 by lia.
Qed.

Lemma align_up_pow2_ge (x j : Z) :
  0 <= j -> 0 <= x -> x + 2 ^ j - 1 < 2 ^ 64 -> x <= align_up x (2 ^ j).
Proof.
  intros Hj Hx Hfit. rewrite align_up_pow2 by done.
  assert (0 < 2 ^ j) by (apply Z.pow_pos_nonneg; lia).
  pose proof (Z.div_mod (x + 2 ^ j - 1) (2 ^ j) ltac:(lia)).
  pose proof (Z.mod_pos_bound (x + 2 ^ j - 1) (2 ^ j) ltac:(lia)).
  lia.
Qed.

Lemma align_up_pow2_lt (x j : Z) :
  0 <= j -> 0 <= x -> x + 2 ^ j - 1 < 2 ^ 64 -> align_up x (2 ^ j) < x + 2 ^ j.
Proof.
  intros Hj Hx Hfit. rewrite align_up_pow2 by done.
  assert (0 < 2 ^ j) by (apply Z.pow_pos_nonneg; lia).
  pose proof (Z.div_mod (x + 2 ^ j - 1) (2 ^ j) ltac:(lia)).
  pose proof (Z.mod_pos_bound (x + 2 ^ j - 1) (2 ^ j) ltac:(lia)).
  lia.
Qed.

Section RegionProperties.

Variable P : Platform.
Variable cfg : Config.

Lemma length_link_last_region (id : Z) (rs : list Region) :
  length (link_last_region id rs) = length rs.
Proof. destruct rs; [done |]. unfold link_last_region. by rewrite length_alter. Qed.

Lemma current_region_Some (rm : RegionManager) (k : nat) (r : Region) :
  current_region rm = Some (k, r) ->
  regions_ rm !! k = Some r /\ S k = length (regions_ rm).
Proof.
  unfold current_region. destruct (last (regions_ rm)) as [r'|] eqn:Hl; [| done].
  intros [= <- <-]. rewrite last_lookup in Hl.
  destruct (regions_ rm); [done |]. simpl in *. by split.
Qed.

(** The state that [allocate] leaves when the request does not fit the
    current region and the system grants the new mapping. *)
Lemma allocate_growth (size alignment : Z) (c : Context) (k : nat)
    (region : Region) (base : Z) :
  let rm := regions c in
  let id := next_region_id_ rm in
  let new_size :=
    Z.min (Z.max (u64 (size + sizeof_RegionDescriptor P))
                 (u64 (current_region_size_ rm * 2)))
          (max_region_size cfg) in
  let total := u64 (sizeof_RegionDescriptor P + new_size) in
  let shm_name := make_region_shm_name (rm_session_name_ rm) id in
  let aligned := align_up (sizeof_RegionDescriptor P) alignment in
  current_region rm = Some (k, region) ->
  RegionDescriptor.size (r_descriptor region) <
    u64 (align_up (RegionDescriptor.used (r_descriptor region)) alignment + size) ->
  shm_create P shm_name total = Some base ->
  allocate P cfg size alignment c =
    (Some (base + aligned),
     mkContext (TelemetryHeader.sequence_fetch_add (header c)) (header_objects c)
       (mkRegionManager (rm_session_name_ rm)
          (link_last_region id (regions_ rm) ++
           [mkRegion id base
              (RegionDescriptor.mk (REGION_MAGIC P) id total (u64 (aligned + size))
                 0 shm_name)])
          (u64 (id + 1)) new_size)
       (metadata c) (objects c)).
Proof.
  intros rm id new_size total shm_name aligned Hcur Hfull Hshm.
  unfold allocate. fold rm. rewrite Hcur.
  apply Z.ltb_lt in Hfull. rewrite Hfull.
  unfold create_region. cbn [rm_session_name_ next_region_id_ regions_ current_region_size_].
  fold id new_size total shm_name. rewrite Hshm.
  cbn -[align_up u64 link_last_region Z.min Z.max].
  unfold store_region_used, with_regions, with_header.
  cbn -[align_up u64 link_last_region Z.min Z.max].
  rewrite alter_app_r_alt by lia. rewrite Nat.sub_diag. reflexivity.
Qed.

(** The growth step of [allocate]. When the aligned cursor plus [size]
    exceeds the size of the current region (and the system grants the new
    mapping), [allocate] appends exactly one region to [regions_]: its body
    size is the grow size
    [min(max(size + sizeof(RegionDescriptor), current_region_size_ * 2),
    max_region_size)] (computed on [size_t]; it is the value of the
    specification whenever the two operands do not wrap), the region that was
    current is linked to it through [next_region_id], and [header.sequence]
    is bumped by one. The call then returns the non-null address
    [base + aligned], counted from the base of the new mapping, and stores
    [aligned + size] as the cursor of the new region; neither is compared
    with the size of the new region, so nothing here says that the block
    lies within the mapping (it need not, see the properties on concrete
    sessions). Right after [init], an allocation larger than the initial
    region size returns such an address and adds one region. *)
Theorem allocate_grows_by_one_region :
  (forall (size alignment : Z) (c : Context) (k : nat) (region : Region) (base : Z),
     let rm := regions c in
     let id := next_region_id_ rm in
     let new_size :=
       Z.min (Z.max (u64 (size + sizeof_RegionDescriptor P))
                    (u64 (current_region_size_ rm * 2)))
             (max_region_size cfg) in
     let aligned := align_up (sizeof_RegionDescriptor P) alignment in
     current_region rm = Some (k, region) ->
     RegionDescriptor.size (r_descriptor region) <
       u64 (align_up (RegionDescriptor.used (r_descriptor region)) alignment + size) ->
     shm_create P (make_region_shm_name (rm_session_name_ rm) id)
       (u64 (sizeof_RegionDescriptor P + new_size)) = Some base ->
     exists (c' : Context) (new_region : Region),
       allocate P cfg size alignment c = (Some (r_base new_region + aligned), c') /\
       regions_ (regions c') = link_last_region id (regions_ rm) ++ [new_region] /\
       link_last_region id (regions_ rm) !! k =
         Some (mkRegion (r_id region) (r_base region)
                 (RegionDescriptor.store_next_region_id id (r_descriptor region))) /\
       (forall j : nat, j <> k ->
          link_last_region id (regions_ rm) !! j = regions_ rm !! j) /\
       r_id new_region = id /\
       r_base new_region = base /\
       RegionDescriptor.region_id (r_descriptor new_region) = id /\
       RegionDescriptor.size (r_descriptor new_region) =
         u64 (sizeof_RegionDescriptor P + new_size) /\
       (0 <= size + sizeof_RegionDescriptor P < 2 ^ 64 ->
        0 <= current_region_size_ rm * 2 < 2 ^ 64 ->
        new_size = spec_grow_size P cfg size (current_region_size_ rm)) /\
       RegionDescriptor.used (r_descriptor new_region) = u64 (aligned + size) /\
       RegionDescriptor.next_region_id (r_descriptor new_region) = 0 /\
       current_region_size_ (regions c') = new_size /\
       TelemetryHeader.sequence (header c') =
         u64 (TelemetryHeader.sequence (header c) + 1)) /\
  (forall (session_name : string) (initial_size size j : Z) (c0 c1 : Context) (base : Z),
     let id := next_region_id_ (regions c1) in
     let new_size :=
       Z.min (Z.max (u64 (size + sizeof_RegionDescriptor P)) (u64 (initial_size * 2)))
             (max_region_size cfg) in
     RegionManager_init P session_name initial_size c0 = (true, c1) ->
     0 <= sizeof_RegionDescriptor P ->
     0 <= initial_size ->
     sizeof_RegionDescriptor P + initial_size < 2 ^ 64 ->
     initial_size < size ->
     0 <= j ->
     sizeof_RegionDescriptor P + 2 ^ j + size <= 2 ^ 64 ->
     shm_create P (make_region_shm_name session_name id)
       (u64 (sizeof_RegionDescriptor P + new_size)) = Some base ->
     exists (p : Z) (c2 : Context),
       allocate P cfg size (2 ^ j) c1 = (Some p, c2) /\
       length (regions_ (regions c2)) = S (length (regions_ (regions c1))) /\
       length (regions_ (regions c1)) = S (length (regions_ (regions c0)))).
Proof.
  split.
  - intros size alignment c k region base rm id new_size aligned Hcur Hfull Hshm.
    destruct (current_region_Some _ _ _ Hcur) as [Hk Hlen].
    rewrite (allocate_growth _ _ _ k region base Hcur Hfull Hshm).
    eexists _, (mkRegion _ base _). split; [reflexivity |].
    cbn -[align_up u64 link_last_region Z.min Z.max].
    repeat split; try done.
    + unfold link_last_region. destruct (regions_ rm) eqn:Hrs; [done |].
      rewrite <- Hlen. cbn [pred]. by rewrite list_lookup_alter_eq, Hk.
    + intros j0 Hj. unfold link_last_region. destruct (regions_ rm) eqn:Hrs; [done |].
      rewrite <- Hlen. cbn [pred]. by rewrite list_lookup_alter_ne.
    + intros H1 H2. subst new_size. unfold spec_grow_size.
      by rewrite !u64_small.
  - intros session_name initial_size size j c0 c1 base id new_size
      Hinit Hsz Hinit0 Hinit1 Hlt Hj Hfit Hshm.
    assert (0 < 2 ^ j) by (apply Z.pow_pos_nonneg; lia).
    unfold RegionManager_init, create_region in Hinit.
    cbn [rm_session_name_ next_region_id_ regions_ current_region_size_] in Hinit.
    destruct (shm_create P _ _) as [base1|] eqn:Hshm1 in Hinit; [| done].
    injection Hinit as <-.
    set (region1 := mkRegion _ base1 _) in *.
    assert (Hcur : current_region
                     (regions (with_header
                        (TelemetryHeader.store_first_region_id (r_id region1))
                        (with_regions (fun _ => mkRegionManager session_name
                           (link_last_region (next_region_id_ (regions c0))
                              (regions_ (regions c0)) ++ [region1])
                           (u64 (next_region_id_ (regions c0) + 1)) initial_size) c0)))
                   = Some (length (regions_ (regions c0)), region1)).
    { unfold current_region. cbn [regions with_header with_regions regions_].
      rewrite last_snoc, length_app, length_link_last_region. cbn [length].
      by rewrite Nat.add_1_r. }
    pose proof (align_up_pow2_ge (sizeof_RegionDescriptor P) j ltac:(lia) ltac:(lia)
                  ltac:(lia)) as Hge.
    pose proof (align_up_pow2_lt (sizeof_RegionDescriptor P) j ltac:(lia) ltac:(lia)
                  ltac:(lia)) as Hlt'.
    erewrite allocate_growth; [| exact Hcur | | exact Hshm].
    + eexists _, _. split; [reflexivity |].
      cbn [regions with_header with_regions regions_].
      rewrite !length_app, !length_link_last_region. cbn [length].
      rewrite length_app, length_link_last_region. cbn [length]. lia.
    + subst region1. cbn [r_descriptor RegionDescriptor.size RegionDescriptor.used].
      rewrite !u64_small by lia. lia.
Qed.

End RegionProperties.

Section SequenceProperties.

Variable P : Platform.
Variable cfg : Config.

#[local] Abbreviation seq_of c := (TelemetryHeader.sequence (header c)).
#[local] Abbreviation n_regions c := (length (regions_ (regions c))).
#[local] Abbreviation n_overflows c := (length (overflow_regions_ (metadata c))).

Lemma update_entry_header e f c : header (update_entry e f c) = header c.
Proof. by destruct e. Qed.

Lemma update_entry_regions e f c : regions (update_entry e f c) = regions c.
Proof. by destruct e. Qed.

Lemma update_entry_objects e f c : objects (update_entry e f c) = objects c.
Proof. by destruct e. Qed.

Lemma update_entry_n_overflows e f c : n_overflows (update_entry e f c) = n_overflows c.
Proof. destruct e; [done |]. cbn. by rewrite length_alter. Qed.

Lemma store_overflow_descriptor_header k f c :
  header (store_overflow_descriptor k f c) = header c.
Proof. done. Qed.

Lemma store_overflow_descriptor_n_overflows k f c :
  n_overflows (store_overflow_descriptor k f c) = n_overflows c.
Proof. cbn. by rewrite length_alter. Qed.

(** What [create_overflow_region] does to the header, to the managers and to
    the number of overflow regions. *)
Lemma create_overflow_region_effect c r c' :
  create_overflow_region P cfg c = (r, c') ->
  regions c' = regions c /\ objects c' = objects c /\
  header_objects c' = header_objects c /\
  match r with
  | None => header c' = header c /\ n_overflows c' = n_overflows c
  | Some _ => seq_of c' = u64 (seq_of c + 1) /\ n_overflows c' = S (n_overflows c)
  end.
Proof.
  unfold create_overflow_region.
  cbn [metadata with_metadata mm_session_name_ overflow_regions_ next_overflow_id_].
  destruct (shm_create P _ _) as [base|]; intros [= <- <-]; [| done].
  destruct (overflow_regions_ (metadata c)) eqn:Hrs; cbn; repeat split; try done.
  - rewrite length_app, Hrs. cbn. lia.
  - rewrite length_app. unfold link_last_overflow. rewrite length_alter. cbn. lia.
Qed.

(** The two outcomes of a metadata allocator on the sequence and on the
    number of overflow regions. *)
Ltac effect_unchanged := repeat split; left; by split.
Ltac effect_grown Hc :=
  destruct Hc as (Hr & Ho & _ & Hs & Hn);
  cbn [regions objects header metadata store_overflow_descriptor with_metadata
       overflow_regions_];
  rewrite ?length_alter;
  repeat split; [exact Hr | exact Ho | right; by split].

Lemma allocate_object_entry_effect c r c' :
  allocate_object_entry P cfg c = (r, c') ->
  regions c' = regions c /\ objects c' = objects c /\
  ((seq_of c' = seq_of c /\ n_overflows c' = n_overflows c) \/
   (seq_of c' = u64 (seq_of c + 1) /\ n_overflows c' = S (n_overflows c))).
Proof.
  unfold allocate_object_entry.
  destruct (_ <? _); [intros [= <- <-]; effect_unchanged |].
  destruct (match current_overflow_region _ with Some _ => _ | None => _ end)
    as [[k n]|].
  { intros [= <- <-]. rewrite store_overflow_descriptor_n_overflows. effect_unchanged. }
  destruct (create_overflow_region P cfg c) as [[[k r0]|] c1] eqn:Hc;
    apply create_overflow_region_effect in Hc; intros [= <- <-].
  - effect_grown Hc.
  - destruct Hc as (-> & -> & _ & -> & ->). effect_unchanged.
Qed.

Lemma allocate_type_entry_effect c r c' :
  allocate_type_entry P cfg c = (r, c') ->
  regions c' = regions c /\ objects c' = objects c /\
  ((seq_of c' = seq_of c /\ n_overflows c' = n_overflows c) \/
   (seq_of c' = u64 (seq_of c + 1) /\ n_overflows c' = S (n_overflows c))).
Proof.
  unfold allocate_type_entry.
  destruct (_ <? _); [intros [= <- <-]; effect_unchanged |].
  destruct (match current_overflow_region _ with Some _ => _ | None => _ end)
    as [[k n]|].
  { intros [= <- <-]. rewrite store_overflow_descriptor_n_overflows. effect_unchanged. }
  destruct (create_overflow_region P cfg c) as [[[k r0]|] c1] eqn:Hc;
    apply create_overflow_region_effect in Hc; intros [= <- <-].
  - effect_grown Hc.
  - destruct Hc as (-> & -> & _ & -> & ->). effect_unchanged.
Qed.

Lemma allocate_field_entries_effect n c r c' :
  allocate_field_entries P cfg n c = (r, c') ->
  regions c' = regions c /\ objects c' = objects c /\
  ((seq_of c' = seq_of c /\ n_overflows c' = n_overflows c) \/
   (seq_of c' = u64 (seq_of c + 1) /\ n_overflows c' = S (n_overflows c))).
Proof.
  unfold allocate_field_entries.
  destruct (n =? 0); [intros [= <- <-]; effect_unchanged |].
  destruct (_ <=? _); [intros [= <- <-]; effect_unchanged |].
  destruct (match current_overflow_region _ with Some _ => _ | None => _ end)
    as [[k m]|].
  { intros [= <- <-]. rewrite store_overflow_descriptor_n_overflows. effect_unchanged. }
  destruct (create_overflow_region P cfg c) as [[[k r0]|] c1] eqn:Hc;
    apply create_overflow_region_effect in Hc.
  - destruct (_ <? _); intros [= <- <-]; effect_grown Hc.
  - intros [= <- <-]. destruct Hc as (-> & -> & _ & -> & ->). effect_unchanged.
Qed.

Lemma create_region_effect size rm r rm' :
  create_region P size rm = (r, rm') ->
  match r with
  | None => regions_ rm' = regions_ rm
  | Some _ => length (regions_ rm') = S (length (regions_ rm))
  end.
Proof.
  unfold create_region. destruct (shm_create P _ _); intros [= <- <-]; [| done].
  cbn [regions_]. rewrite length_app, length_link_last_region. cbn. lia.
Qed.

Lemma RegionManager_init_effect session_name initial_size c ok c' :
  RegionManager_init P session_name initial_size c = (ok, c') ->
  seq_of c' = seq_of c /\ metadata c' = metadata c /\ objects c' = objects c /\
  header_objects c' = header_objects c /\
  (ok = true -> n_regions c' = S (n_regions c)).
Proof.
  unfold RegionManager_init.
  destruct (create_region P _ _) as [[[k r]|] rm] eqn:Hc;
    apply create_region_effect in Hc; intros [= <- <-]; by repeat split.
Qed.

Lemma allocate_effect size alignment c p c' :
  allocate P cfg size alignment c = (p, c') ->
  metadata c' = metadata c /\ objects c' = objects c /\
  header_objects c' = header_objects c /\
  ((seq_of c' = seq_of c /\ n_regions c' = n_regions c) \/
   (seq_of c' = u64 (seq_of c + 1) /\ n_regions c' = S (n_regions c))).
Proof.
  unfold allocate. destruct (current_region _) as [[k region]|];
    [| intros [= <- <-]; by auto 10].
  destruct (_ <? _).
  - destruct (create_region P _ _) as [[[k' r]|] rm] eqn:Hc;
      apply create_region_effect in Hc; intros [= <- <-]; cbn in *.
    + rewrite length_alter. by auto 10.
    + rewrite Hc. by auto 10.
  - intros [= <- <-]. cbn. rewrite length_alter. by auto 10.
Qed.

Lemma register_object_effect ptr type_id label c r c' :
  register_object P cfg ptr type_id label c = (r, c') ->
  regions c' = regions c /\
  match r with
  | Some _ =>
      exists c1, seq_of c' = u64 (seq_of c1 + 1) /\ n_overflows c' = n_overflows c1 /\
        ((seq_of c1 = seq_of c /\ n_overflows c1 = n_overflows c) \/
         (seq_of c1 = u64 (seq_of c + 1) /\ n_overflows c1 = S (n_overflows c)))
  | None =>
      (seq_of c' = seq_of c /\ n_overflows c' = n_overflows c) \/
      (seq_of c' = u64 (seq_of c + 1) /\ n_overflows c' = S (n_overflows c))
  end.
Proof.
  unfold register_object. destruct (get_location _ _) as [[region_id offset]|];
    [| intros [= <- <-]; by auto 10].
  destruct (allocate_object_entry P cfg c) as [[e|] c1] eqn:Ha;
    apply allocate_object_entry_effect in Ha as (Hr & _ & Hs); intros [= <- <-];
    [| by auto].
  cbn [register_stores foldl regions with_objects with_header header metadata].
  rewrite !update_entry_regions, !update_entry_header, !update_entry_n_overflows.
  split; [done |]. by exists c1.
Qed.

Lemma destroy_object_effect ptr c :
  regions (destroy_object ptr c) = regions c /\
  n_overflows (destroy_object ptr c) = n_overflows c /\
  match ptr_to_entry_ (objects c) !! ptr with
  | Some _ => seq_of (destroy_object ptr c) = u64 (seq_of c + 1)
  | None => destroy_object ptr c = c
  end.
Proof.
  unfold destroy_object. destruct (ptr_to_entry_ (objects c) !! ptr) as [e|]; [| done].
  cbn [regions with_objects with_header header metadata].
  by rewrite update_entry_regions, update_entry_header, update_entry_n_overflows.
Qed.

Lemma u64_succ_gt (x : Z) : 0 <= x -> x + 1 < 2 ^ 64 -> x < u64 (x + 1).
Proof. intros. rewrite u64_small; lia. Qed.

(** C3, as the code has it. Short of the wrap-around of the 64-bit counter,
    [header.sequence] is strictly greater after every call, other than
    [RegionManager::init], that adds a data region (growth in [allocate]),
    adds an overflow region (through any of the three metadata allocators or
    through [register_object]), registers an object, or destroys a registered
    object; creating an overflow region takes it one step up. [init], which
    creates the first data region, leaves [header.sequence] as it was. *)
Theorem sequence_increases_except_init (c : Context) :
  0 <= TelemetryHeader.sequence (header c) ->
  TelemetryHeader.sequence (header c) + 2 < 2 ^ 64 ->
  (forall op : Op,
     is_region_init op = false ->
     structural_change P cfg op c ->
     TelemetryHeader.sequence (header c) <
       TelemetryHeader.sequence (header (step P cfg op c))) /\
  (forall r c',
     create_overflow_region P cfg c = (Some r, c') ->
     TelemetryHeader.sequence (header c') = TelemetryHeader.sequence (header c) + 1) /\
  (forall session_name initial_size ok c',
     RegionManager_init P session_name initial_size c = (ok, c') ->
     TelemetryHeader.sequence (header c') = TelemetryHeader.sequence (header c)).
Proof.
  intros H0 Hmax. split; [| split].
  - intros op Hop Hch. unfold structural_change in Hch.
    destruct op as [s n | s | size alignment | | | n | ptr type_id label | ptr];
      cbn [step] in *; try done.
    + by destruct Hch as [Hch | [Hch | []]].
    + destruct (allocate P cfg size alignment c) as [p c'] eqn:Ha.
      apply allocate_effect in Ha as (Hm & _ & _ & Hs). cbn [snd] in *.
      rewrite Hm in Hch. destruct Hs as [[_ Hn] | [-> _]];
        [by destruct Hch as [? | [? | []]] | apply u64_succ_gt; lia].
    + destruct (allocate_object_entry P cfg c) as [r c'] eqn:Ha.
      apply allocate_object_entry_effect in Ha as (Hr & _ & Hs). cbn [snd] in *.
      rewrite Hr in Hch. destruct Hs as [[_ Hn] | [-> _]];
        [by destruct Hch as [? | [? | []]] | apply u64_succ_gt; lia].
    + destruct (allocate_type_entry P cfg c) as [r c'] eqn:Ha.
      apply allocate_type_entry_effect in Ha as (Hr & _ & Hs). cbn [snd] in *.
      rewrite Hr in Hch. destruct Hs as [[_ Hn] | [-> _]];
        [by destruct Hch as [? | [? | []]] | apply u64_succ_gt; lia].
    + destruct (allocate_field_entries P cfg n c) as [r c'] eqn:Ha.
      apply allocate_field_entries_effect in Ha as (Hr & _ & Hs). cbn [snd] in *.
      rewrite Hr in Hch. destruct Hs as [[_ Hn] | [-> _]];
        [by destruct Hch as [? | [? | []]] | apply u64_succ_gt; lia].
    + destruct (register_object P cfg ptr type_id label c) as [r c'] eqn:Ha.
      apply register_object_effect in Ha as (Hr & Hs). cbn [snd fst] in *.
      rewrite Hr in Hch. destruct r as [e|].
      * destruct Hs as (c1 & -> & _ & [[-> _] | [-> _]]);
          rewrite ?u64_small; rewrite ?u64_small; lia.
      * destruct Hs as [[_ Hn] | [-> _]]; [| apply u64_succ_gt; lia].
        destruct Hch as [? | [? | [? ?]]]; done.
    + destruct (destroy_object_effect ptr c) as (Hr & Hn & Hs).
      rewrite Hr, Hn in Hch.
      destruct (ptr_to_entry_ (objects c) !! ptr) as [e|].
      * rewrite Hs. apply u64_succ_gt; lia.
      * destruct Hch as [? | [? | [? ?]]]; done.
  - intros r c' Hc. apply create_overflow_region_effect in Hc as (_ & _ & _ & -> & _).
    rewrite u64_small; lia.
  - intros s n ok c' Hi. by apply RegionManager_init_effect in Hi as (-> & _).
Qed.

End SequenceProperties.

Section ObjectProperties.

Variable P : Platform.
Variable cfg : Config.

Lemma entry_at_update_entry (e e' : SlotRef) f c :
  entry_at e' (update_entry e f c) =
  if decide (e = e') then f <$> entry_at e' c else entry_at e' c.
Proof.
  destruct e as [i | k i], e' as [i' | k' i']; cbn; case_decide as Heq;
    try done; simplify_eq.
  - by rewrite list_lookup_alter_eq.
  - rewrite list_lookup_alter_ne; [done | congruence].
  - rewrite list_lookup_alter_eq.
    destruct (overflow_regions_ (metadata c) !! k') as [r|]; [| done]. cbn.
    by rewrite list_lookup_alter_eq.
  - destruct (decide (k = k')) as [-> |].
    + rewrite list_lookup_alter_eq.
      destruct (overflow_regions_ (metadata c) !! k') as [r|]; [| done]. cbn.
      rewrite list_lookup_alter_ne; [done | congruence].
    + by rewrite list_lookup_alter_ne.
Qed.

Lemma entry_at_with_header e f c : entry_at e (with_header f c) = entry_at e c.
Proof. by destruct e. Qed.

Lemma entry_at_with_objects e f c : entry_at e (with_objects f c) = entry_at e c.
Proof. by destruct e. Qed.

(** The entry that [register_object] returns, after its stores. *)
Lemma register_object_entry ptr type_id label c e c' :
  register_object P cfg ptr type_id label c = (Some e, c') ->
  exists region_id offset c1,
    get_location ptr (regions c) = Some (region_id, offset) /\
    allocate_object_entry P cfg c = (Some e, c1) /\
    entry_at e c' =
      (fun _ => ObjectEntry.mk (Some Alive) (Some type_id) (Some region_id)
                  (Some offset) (Some 1) (Some (ObjectEntry.label_bytes label)))
      <$> entry_at e c1.
Proof.
  unfold register_object.
  destruct (get_location _ _) as [[region_id offset]|]; [| done].
  destruct (allocate_object_entry P cfg c) as [[e1|] c1]; intros [= <- <-].
  exists region_id, offset, c1. do 2 (split; [done |]).
  cbn [register_stores foldl].
  rewrite entry_at_with_objects, entry_at_with_header.
  rewrite !entry_at_update_entry. rewrite !decide_True by done.
  by destruct (entry_at e1 c1).
Qed.

(** C10. [destroy_object] on a pointer that is not in [ptr_to_entry_] (never
    registered, or destroyed before: a destroy erases the pointer) returns the
    state it was given: no entry, no field of the header, in particular not
    [sequence], and no binding of the map changes. *)
Theorem destroy_object_unknown_pointer (ptr : Z) (c : Context) :
  (ptr_to_entry_ (objects c) !! ptr = None -> destroy_object ptr c = c) /\
  ptr_to_entry_ (objects (destroy_object ptr c)) !! ptr = None.
Proof.
  unfold destroy_object. split.
  - by intros ->.
  - destruct (ptr_to_entry_ (objects c) !! ptr) eqn:Hp; [| done].
    cbn. apply lookup_delete_eq.
Qed.

(** C8, as the code has it. [register_object] sets the generation of the
    entry it creates to 1 (and its state to [Alive]); [destroy_object] stores
    [Destroyed] into the state of the entry and leaves the generation of
    every entry as it was: the generation is not incremented on the state
    change. *)
Theorem generation_set_at_registration_only (c : Context) :
  (forall ptr type_id label e c' entry,
     register_object P cfg ptr type_id label c = (Some e, c') ->
     entry_at e c' = Some entry ->
     ObjectEntry.generation entry = Some 1 /\
     ObjectEntry.state entry = Some Alive) /\
  (forall ptr e,
     ObjectEntry.generation <$> entry_at e (destroy_object ptr c) =
     ObjectEntry.generation <$> entry_at e c) /\
  (forall ptr e entry,
     ptr_to_entry_ (objects c) !! ptr = Some e ->
     entry_at e c = Some entry ->
     entry_at e (destroy_object ptr c) =
       Some (ObjectEntry.store_state Destroyed entry)).
Proof.
  split; [| split].
  - intros ptr type_id label e c' entry Hreg Hentry.
    apply register_object_entry in Hreg as (region_id & offset & c1 & _ & _ & Heq).
    rewrite Hentry in Heq. destruct (entry_at e c1); [| done].
    by injection Heq as ->.
  - intros ptr e. unfold destroy_object.
    destruct (ptr_to_entry_ (objects c) !! ptr) as [e0|]; [| done].
    rewrite entry_at_with_objects, entry_at_with_header, entry_at_update_entry.
    case_decide; [| done]. by destruct (entry_at e c).
  - intros ptr e entry Hptr Hentry. unfold destroy_object. rewrite Hptr.
    rewrite entry_at_with_objects, entry_at_with_header, entry_at_update_entry.
    rewrite decide_True by done. by rewrite Hentry.
Qed.

Lemma find_object_loop_spec label c (n i : nat) :
  match find_object_loop (header_objects c) label i n with
  | Some j =>
      (i <= j < i + n)%nat /\ object_matches label c j /\
      forall j' : nat, (i <= j' < j)%nat -> ~ object_matches label c j'
  | None => forall j : nat, (i <= j < i + n)%nat -> ~ object_matches label c j
  end.
Proof.
  revert i. induction n as [| n IH]; intros i; cbn [find_object_loop].
  - intros j Hj. lia.
  - destruct (_ && _) eqn:Hm.
    + apply andb_prop in Hm as [Hs Hl].
      apply Z.eqb_eq in Hs. apply bool_decide_eq_true in Hl.
      repeat split; [lia | lia | done | done | intros j' Hj'; lia].
    + assert (~ object_matches label c i) as Hi.
      { intros [Hs Hl]. apply Z.eqb_eq in Hs.
        apply (bool_decide_eq_true_2 _) in Hl. by rewrite Hs, Hl in Hm. }
      specialize (IH (S i)).
      destruct (find_object_loop (header_objects c) label (S i) n) as [j|].
      * destruct IH as (Hj & Hmatch & Hfirst). repeat split; [lia | lia | apply Hmatch.. |].
        intros j' Hj'. destruct (decide (j' = i)) as [-> |]; [done |].
        apply Hfirst. lia.
      * intros j Hj. destruct (decide (j = i)) as [-> |]; [done |]. apply IH. lia.
Qed.

(** C6. [find_object] scans the header object pool only, in index order from
    0 up to its count: the result is the first entry whose state is [Alive]
    and whose label is the argument byte for byte; it is null exactly when no
    entry below the header count matches, and nothing that the overflow
    regions hold takes part in the result. *)
Theorem find_object_scans_header_pool (label : string) (c : Context) :
  match find_object label c with
  | Some e =>
      exists i : nat,
        e = InHeader i /\
        Z.of_nat i < TelemetryHeader.object_count (header c) /\
        object_matches label c i /\
        forall j : nat, (j < i)%nat -> ~ object_matches label c j
  | None =>
      forall i : nat,
        Z.of_nat i < TelemetryHeader.object_count (header c) ->
        ~ object_matches label c i
  end /\
  forall mm : MetadataManager,
    find_object label (with_metadata (fun _ => mm) c) = find_object label c.
Proof.
  split; [| done]. unfold find_object.
  pose proof (find_object_loop_spec label c
                (Z.to_nat (TelemetryHeader.object_count (header c))) 0) as Hloop.
  destruct (find_object_loop (header_objects c) label 0 _) as [i|]; cbn.
  - destruct Hloop as (Hi & Hm & Hfirst). exists i.
    repeat split; [lia | apply Hm.. |]. intros j Hj. apply Hfirst. lia.
  - intros i Hi. apply Hloop. lia.
Qed.

(** [get_all_objects] lists the alive entries of the header pool, and only
    those. *)
Lemma get_all_objects_loop_spec entries (n i : nat) :
  get_all_objects_loop entries i n =
  InHeader <$> filter (fun i => ObjectEntry.load_state (slot entries i) = Alive)
                      (seq i n).
Proof.
  revert i. induction n as [| n IH]; intros i; [done |].
  cbn [get_all_objects_loop seq]. rewrite IH.
  destruct (Z.eqb_spec (ObjectEntry.load_state (slot entries i)) Alive) as [He | He].
  - by rewrite filter_cons_True.
  - by rewrite filter_cons_False.
Qed.

Lemma get_all_objects_header_only c :
  get_all_objects c =
  alive_in_pool InHeader (TelemetryHeader.object_count (header c)) (header_objects c).
Proof. unfold get_all_objects. by rewrite get_all_objects_loop_spec. Qed.

End ObjectProperties.

Section OverflowProperties.

Variable P : Platform.
Variable cfg : Config.

#[local] Abbreviation n_overflows c := (length (overflow_regions_ (metadata c))).

Lemma allocate_object_entry_overflow c r c' :
  allocate_object_entry P cfg c = (r, c') ->
  n_overflows c' <> n_overflows c ->
  header_pool_refuses OpAllocateObjectEntry c /\
  current_overflow_refuses OpAllocateObjectEntry c.
Proof.
  unfold allocate_object_entry, header_pool_refuses, current_overflow_refuses.
  destruct (_ <? _) eqn:Hh; [by intros [= <- <-] |]. apply Z.ltb_ge in Hh.
  destruct (current_overflow_region (metadata c)) as [[k region]|] eqn:Hcur.
  - destruct (_ <? _) eqn:Ho.
    + intros [= <- <-]. by rewrite store_overflow_descriptor_n_overflows.
    + apply Z.ltb_ge in Ho. intros _ _. split; [done |]. by intros k' r' [= <- <-].
  - intros _ _. split; [done |]. by intros k' r' [=].
Qed.

Lemma allocate_type_entry_overflow c r c' :
  allocate_type_entry P cfg c = (r, c') ->
  n_overflows c' <> n_overflows c ->
  header_pool_refuses OpAllocateTypeEntry c /\
  current_overflow_refuses OpAllocateTypeEntry c.
Proof.
  unfold allocate_type_entry, header_pool_refuses, current_overflow_refuses.
  destruct (_ <? _) eqn:Hh; [by intros [= <- <-] |]. apply Z.ltb_ge in Hh.
  destruct (current_overflow_region (metadata c)) as [[k region]|] eqn:Hcur.
  - destruct (_ <? _) eqn:Ho.
    + intros [= <- <-]. by rewrite store_overflow_descriptor_n_overflows.
    + apply Z.ltb_ge in Ho. intros _ _. split; [done |]. by intros k' r' [= <- <-].
  - intros _ _. split; [done |]. by intros k' r' [=].
Qed.

Lemma allocate_field_entries_overflow n c r c' :
  allocate_field_entries P cfg n c = (r, c') ->
  n_overflows c' <> n_overflows c ->
  header_pool_refuses (OpAllocateFieldEntries n) c /\
  current_overflow_refuses (OpAllocateFieldEntries n) c.
Proof.
  unfold allocate_field_entries, header_pool_refuses, current_overflow_refuses.
  destruct (n =? 0); [by intros [= <- <-] |].
  destruct (_ <=? _) eqn:Hh; [by intros [= <- <-] |]. apply Z.leb_gt in Hh.
  destruct (current_overflow_region (metadata c)) as [[k region]|] eqn:Hcur.
  - destruct (_ <=? _) eqn:Ho.
    + intros [= <- <-]. by rewrite store_overflow_descriptor_n_overflows.
    + apply Z.leb_gt in Ho. intros _ _. split; [done |]. by intros k' r' [= <- <-].
  - intros _ _. split; [done |]. by intros k' r' [=].
Qed.

(** C4, as the code has it. A call creates an overflow region only when the
    header pool of its own kind cannot take the request (object directory or
    type registry full; fewer free field entries than the run asked for) and
    the matching sub-pool of the current overflow region, if there is one,
    cannot either. The two other header pools play no part and may still have
    free capacity. Only the three metadata allocators and [register_object]
    (through [allocate_object_entry]) create overflow regions. *)
Theorem overflow_region_only_when_own_pool_refuses (op : Op) (c : Context) :
  length (overflow_regions_ (metadata (step P cfg op c))) <>
    length (overflow_regions_ (metadata c)) ->
  header_pool_refuses op c /\ current_overflow_refuses op c.
Proof.
  destruct op as [s n | s | size alignment | | | n | ptr type_id label | ptr];
    cbn [step]; intros Hch.
  - destruct (RegionManager_init P s n c) as [ok c'] eqn:Hi.
    apply RegionManager_init_effect in Hi as (_ & Hm & _). cbn [snd] in Hch.
    by rewrite Hm in Hch.
  - done.
  - destruct (allocate P cfg size alignment c) as [p c'] eqn:Ha.
    apply allocate_effect in Ha as (Hm & _). cbn [snd] in Hch. by rewrite Hm in Hch.
  - destruct (allocate_object_entry P cfg c) as [r c'] eqn:Ha.
    by apply (allocate_object_entry_overflow _ _ _ Ha).
  - destruct (allocate_type_entry P cfg c) as [r c'] eqn:Ha.
    by apply (allocate_type_entry_overflow _ _ _ Ha).
  - destruct (allocate_field_entries P cfg n c) as [r c'] eqn:Ha.
    by apply (allocate_field_entries_overflow _ _ _ _ Ha).
  - unfold register_object in Hch.
    destruct (get_location _ _) as [[region_id offset]|]; [| done].
    destruct (allocate_object_entry P cfg c) as [[e|] c1] eqn:Ha; cbn [snd] in Hch.
    + apply (allocate_object_entry_overflow _ _ _ Ha). revert Hch.
      cbn [register_stores foldl with_objects with_header metadata].
      by rewrite !update_entry_n_overflows.
    + by apply (allocate_object_entry_overflow _ _ _ Ha).
  - by destruct (destroy_object_effect ptr c) as (_ & Hn & _).
Qed.

End OverflowProperties.

Section IdProperties.

Variable P : Platform.
Variable cfg : Config.

Lemma fmap_alter_same {A B} (f : A -> B) (g : A -> A) (k : nat) (l : list A) :
  (forall x, f (g x) = f x) -> f <$> alter g k l = f <$> l.
Proof.
  intros Hfg. revert k. induction l as [| x l IH]; intros [| k]; cbn; [done.. | |].
  - by rewrite Hfg.
  - by rewrite IH.
Qed.

Lemma StronglySorted_snoc_lt (l : list Z) (y : Z) :
  StronglySorted Z.lt l -> Forall (fun x => x < y) l -> StronglySorted Z.lt (l ++ [y]).
Proof.
  induction 1 as [| x l Hl IH Hx]; intros Hall; cbn.
  - repeat constructor.
  - apply Forall_cons in Hall as [Hxy Hall]. constructor; [by apply IH |].
    apply Forall_app. split; [done |]. by constructor.
Qed.

Lemma StronglySorted_lt_NoDup (l : list Z) : StronglySorted Z.lt l -> NoDup l.
Proof.
  induction 1 as [| x l Hl IH Hx]; constructor; [| done].
  intros Hin. eapply Forall_forall in Hx; [| exact Hin]. lia.
Qed.

Lemma ids_from_one_snoc (n : nat) :
  ids_from_one (S n) = ids_from_one n ++ [Z.of_nat n + 1].
Proof.
  unfold ids_from_one. rewrite seq_S, fmap_app. cbn. do 3 f_equal. lia.
Qed.

Lemma ids_ok_transition (b next next' : Z) (ids ids' : list Z) :
  ids_ok P b next ids -> b + 1 < 2 ^ 64 ->
  id_transition P next ids next' ids' ->
  ids_ok P (b + 1) next' ids'.
Proof.
  intros (Hnext & Hsorted & Hall & Hdense) Hb [[-> ->] | [[-> ->] | (-> & -> & Hno)]].
  - repeat split; [lia | lia | done | done | by apply Hdense | by apply Hdense].
  - rewrite u64_small by lia. repeat split; [lia | lia | | | |].
    + apply StronglySorted_snoc_lt; [done |].
      eapply Forall_impl; [exact Hall |]. cbn. lia.
    + apply Forall_app. split.
      * eapply Forall_impl; [exact Hall |]. cbn. lia.
      * repeat constructor; lia.
    + destruct (Hdense H) as [Hids Hn]. rewrite length_app. cbn [length].
      rewrite Nat.add_1_r, ids_from_one_snoc. by rewrite <- Hids, Hn.
    + destruct (Hdense H) as [Hids Hn]. rewrite length_app. cbn [length]. lia.
  - rewrite u64_small by lia. repeat split; [lia | lia | done | | done | done].
    eapply Forall_impl; [exact Hall |]. cbn. lia.
Qed.

Lemma create_region_ids size rm r rm' :
  create_region P size rm = (r, rm') ->
  id_transition P (next_region_id_ rm) (r_id <$> regions_ rm)
    (next_region_id_ rm') (r_id <$> regions_ rm').
Proof.
  unfold create_region, id_transition.
  destruct (shm_create P _ _) as [base|] eqn:Hshm; intros [= <- <-]; cbn.
  - right; left. split; [done |]. rewrite fmap_app. cbn. f_equal.
    destruct (regions_ rm); [done |]. unfold link_last_region.
    by apply fmap_alter_same.
  - right; right. repeat split; [done.. |]. intros Hno.
    eapply is_Some_None. rewrite <- Hshm. apply Hno.
Qed.

Lemma create_overflow_region_ids c r c' :
  create_overflow_region P cfg c = (r, c') ->
  id_transition P (next_overflow_id_ (metadata c)) (overflow_ids c)
    (next_overflow_id_ (metadata c')) (overflow_ids c').
Proof.
  unfold create_overflow_region, id_transition, overflow_ids.
  cbn [metadata with_metadata mm_session_name_ overflow_regions_ next_overflow_id_].
  destruct (shm_create P _ _) as [base|] eqn:Hshm; intros [= <- <-].
  - right; left. destruct (overflow_regions_ (metadata c)) eqn:Hrs; cbn.
    + by rewrite Hrs.
    + split; [done |]. rewrite fmap_app. cbn. f_equal.
      unfold link_last_overflow. by rewrite fmap_alter_same.
  - right; right. repeat split; [done.. |]. intros Hno.
    eapply is_Some_None. rewrite <- Hshm. apply Hno.
Qed.

Lemma store_overflow_descriptor_ids k f c :
  overflow_ids (store_overflow_descriptor k f c) = overflow_ids c /\
  next_overflow_id_ (metadata (store_overflow_descriptor k f c)) =
    next_overflow_id_ (metadata c).
Proof. unfold overflow_ids. cbn. by rewrite fmap_alter_same. Qed.

Lemma update_entry_overflow_ids e f c :
  overflow_ids (update_entry e f c) = overflow_ids c.
Proof. destruct e; [done |]. unfold overflow_ids. cbn. by rewrite fmap_alter_same. Qed.

Lemma update_entry_overflow_next e f c :
  next_overflow_id_ (metadata (update_entry e f c)) = next_overflow_id_ (metadata c).
Proof. by destruct e. Qed.

Lemma overflow_ids_with_header f c : overflow_ids (with_header f c) = overflow_ids c.
Proof. done. Qed.

Lemma overflow_ids_with_objects f c : overflow_ids (with_objects f c) = overflow_ids c.
Proof. done. Qed.

#[local] Abbreviation overflow_next c := (next_overflow_id_ (metadata c)).

Lemma id_transition_refl next ids : id_transition P next ids next ids.
Proof. by left. Qed.

Lemma allocate_object_entry_ids c r c' :
  allocate_object_entry P cfg c = (r, c') ->
  id_transition P (overflow_next c) (overflow_ids c) (overflow_next c') (overflow_ids c').
Proof.
  unfold allocate_object_entry.
  destruct (_ <? _); [intros [= <- <-]; apply id_transition_refl |].
  destruct (match current_overflow_region _ with Some _ => _ | None => _ end)
    as [[k n]|].
  { intros [= <- <-]. destruct (store_overflow_descriptor_ids k
      (MetadataOverflowDescriptor.store_object_entry_count (u32 (n + 1))) c)
      as [-> ->]. apply id_transition_refl. }
  destruct (create_overflow_region P cfg c) as [[[k r0]|] c1] eqn:Hc;
    apply create_overflow_region_ids in Hc; intros [= <- <-]; [| done].
  by destruct (store_overflow_descriptor_ids k
    (MetadataOverflowDescriptor.store_object_entry_count 1) c1) as [-> ->].
Qed.

Lemma allocate_type_entry_ids c r c' :
  allocate_type_entry P cfg c = (r, c') ->
  id_transition P (overflow_next c) (overflow_ids c) (overflow_next c') (overflow_ids c').
Proof.
  unfold allocate_type_entry.
  destruct (_ <? _); [intros [= <- <-]; apply id_transition_refl |].
  destruct (match current_overflow_region _ with Some _ => _ | None => _ end)
    as [[k n]|].
  { intros [= <- <-]. destruct (store_overflow_descriptor_ids k
      (MetadataOverflowDescriptor.store_type_entry_count (u32 (n + 1))) c)
      as [-> ->]. apply id_transition_refl. }
  destruct (create_overflow_region P cfg c) as [[[k r0]|] c1] eqn:Hc;
    apply create_overflow_region_ids in Hc; intros [= <- <-]; [| done].
  by destruct (store_overflow_descriptor_ids k
    (MetadataOverflowDescriptor.store_type_entry_count 1) c1) as [-> ->].
Qed.

Lemma allocate_field_entries_ids n c r c' :
  allocate_field_entries P cfg n c = (r, c') ->
  id_transition P (overflow_next c) (overflow_ids c) (overflow_next c') (overflow_ids c').
Proof.
  unfold allocate_field_entries.
  destruct (n =? 0); [intros [= <- <-]; apply id_transition_refl |].
  destruct (_ <=? _); [intros [= <- <-]; apply id_transition_refl |].
  destruct (match current_overflow_region _ with Some _ => _ | None => _ end)
    as [[k m]|].
  { intros [= <- <-]. destruct (store_overflow_descriptor_ids k
      (MetadataOverflowDescriptor.store_field_entry_count (u32 (m + n))) c)
      as [-> ->]. apply id_transition_refl. }
  destruct (create_overflow_region P cfg c) as [[[k r0]|] c1] eqn:Hc;
    apply create_overflow_region_ids in Hc; [| by intros [= <- <-]].
  destruct (_ <? _); intros [= <- <-]; [done |].
  by destruct (store_overflow_descriptor_ids k
    (MetadataOverflowDescriptor.store_field_entry_count n) c1) as [-> ->].
Qed.

Lemma step_overflow_ids op c :
  id_transition P (overflow_next c) (overflow_ids c)
    (overflow_next (step P cfg op c)) (overflow_ids (step P cfg op c)).
Proof.
  destruct op as [s n | s | size alignment | | | n | ptr type_id label | ptr];
    cbn [step].
  - destruct (RegionManager_init P s n c) as [ok c'] eqn:Hi.
    apply RegionManager_init_effect in Hi as (_ & Hm & _). cbn [snd].
    unfold overflow_ids. rewrite Hm. apply id_transition_refl.
  - apply id_transition_refl.
  - destruct (allocate P cfg size alignment c) as [p c'] eqn:Ha.
    apply allocate_effect in Ha as (Hm & _). cbn [snd].
    unfold overflow_ids. rewrite Hm. apply id_transition_refl.
  - destruct (allocate_object_entry P cfg c) as [r c'] eqn:Ha.
    by apply allocate_object_entry_ids in Ha.
  - destruct (allocate_type_entry P cfg c) as [r c'] eqn:Ha.
    by apply allocate_type_entry_ids in Ha.
  - destruct (allocate_field_entries P cfg n c) as [r c'] eqn:Ha.
    by apply allocate_field_entries_ids in Ha.
  - unfold register_object.
    destruct (get_location _ _) as [[region_id offset]|];
      [| apply id_transition_refl].
    destruct (allocate_object_entry P cfg c) as [[e|] c1] eqn:Ha;
      apply allocate_object_entry_ids in Ha; cbn [snd]; [| done].
    cbn [register_stores foldl].
    rewrite overflow_ids_with_objects, overflow_ids_with_header.
    cbn [with_objects with_header metadata].
    by rewrite !update_entry_overflow_ids, !update_entry_overflow_next.
  - unfold destroy_object.
    destruct (ptr_to_entry_ (objects c) !! ptr) as [e|]; [| apply id_transition_refl].
    rewrite overflow_ids_with_objects, overflow_ids_with_header.
    cbn [with_objects with_header metadata].
    rewrite update_entry_overflow_ids, update_entry_overflow_next.
    apply id_transition_refl.
Qed.

Lemma step_region_ids op c :
  id_transition P (next_region_id_ (regions c)) (region_ids c)
    (next_region_id_ (regions (step P cfg op c))) (region_ids (step P cfg op c)).
Proof.
  destruct op as [s n | s | size alignment | | | n | ptr type_id label | ptr];
    cbn [step].
  - unfold RegionManager_init.
    destruct (create_region P _ _) as [[[k r]|] rm] eqn:Hc;
      by apply create_region_ids in Hc.
  - apply id_transition_refl.
  - unfold allocate. destruct (current_region _) as [[k region]|];
      [| apply id_transition_refl].
    destruct (_ <? _).
    + destruct (create_region P _ _) as [[[k' r]|] rm] eqn:Hc;
        apply create_region_ids in Hc; [| done].
      unfold region_ids. cbn. by rewrite fmap_alter_same.
    + unfold region_ids. cbn. rewrite fmap_alter_same by done.
      apply id_transition_refl.
  - destruct (allocate_object_entry P cfg c) as [r c'] eqn:Ha.
    apply allocate_object_entry_effect in Ha as (Hr & _). cbn [snd].
    unfold region_ids. rewrite Hr. apply id_transition_refl.
  - destruct (allocate_type_entry P cfg c) as [r c'] eqn:Ha.
    apply allocate_type_entry_effect in Ha as (Hr & _). cbn [snd].
    unfold region_ids. rewrite Hr. apply id_transition_refl.
  - destruct (allocate_field_entries P cfg n c) as [r c'] eqn:Ha.
    apply allocate_field_entries_effect in Ha as (Hr & _). cbn [snd].
    unfold region_ids. rewrite Hr. apply id_transition_refl.
  - destruct (register_object P cfg ptr type_id label c) as [r c'] eqn:Ha.
    apply register_object_effect in Ha as (Hr & _). cbn [snd].
    unfold region_ids. rewrite Hr. apply id_transition_refl.
  - destruct (destroy_object_effect ptr c) as (Hr & _).
    unfold region_ids. rewrite Hr. apply id_transition_refl.
Qed.

Lemma run_ids_ok (ops : list Op) (c : Context) (b : Z) :
  ids_ok P b (next_region_id_ (regions c)) (region_ids c) ->
  ids_ok P b (overflow_next c) (overflow_ids c) ->
  b + Z.of_nat (length ops) < 2 ^ 64 ->
  ids_ok P (b + Z.of_nat (length ops))
    (next_region_id_ (regions (run P cfg ops c))) (region_ids (run P cfg ops c)) /\
  ids_ok P (b + Z.of_nat (length ops))
    (overflow_next (run P cfg ops c)) (overflow_ids (run P cfg ops c)).
Proof.
  revert c b. induction ops as [| op ops IH]; intros c b Hr Ho Hb.
  - cbn. by rewrite Z.add_0_r.
  - cbn [run foldl length] in *.
    replace (b + Z.of_nat (S (length ops))) with (b + 1 + Z.of_nat (length ops)) by lia.
    apply IH; [| | lia].
    + eapply ids_ok_transition; [exact Hr | lia | apply step_region_ids].
    + eapply ids_ok_transition; [exact Ho | lia | apply step_overflow_ids].
Qed.

(** C9, as the code has it. Each manager numbers its own regions: in every
    run of fewer than 2^64 - 1 calls from a new session, the ids of the data
    regions are strictly increasing in creation order, hence pairwise
    distinct, and at least 1, and so are the ids of the overflow regions;
    when the system refuses no mapping each kind is numbered 1, 2, 3, ...
    without gaps. The two sequences are independent: uniqueness holds within
    a kind, not across the two kinds. *)
Theorem region_ids_unique_within_kind (ops : list Op)
    (object_capacity type_capacity field_capacity : Z) :
  Z.of_nat (length ops) < 2 ^ 64 - 1 ->
  let c := run P cfg ops (initial_context cfg object_capacity type_capacity field_capacity) in
  (StronglySorted Z.lt (region_ids c) /\ NoDup (region_ids c) /\
   Forall (fun i => 1 <= i) (region_ids c)) /\
  (StronglySorted Z.lt (overflow_ids c) /\ NoDup (overflow_ids c) /\
   Forall (fun i => 1 <= i) (overflow_ids c)) /\
  (never_refuses P ->
   region_ids c = ids_from_one (length (region_ids c)) /\
   overflow_ids c = ids_from_one (length (overflow_ids c))).
Proof.
  intros Hlen c.
  assert (Hinit : forall next ids, next = 1 -> ids = [] -> ids_ok P 1 next ids).
  { intros next ids -> ->. repeat split; [lia | lia | constructor | constructor | done..]. }
  destruct (run_ids_ok ops
              (initial_context cfg object_capacity type_capacity field_capacity) 1
              (Hinit _ _ eq_refl eq_refl) (Hinit _ _ eq_refl eq_refl) ltac:(lia))
    as [(_ & Hrs & Hra & Hrd) (_ & Hos & Hoa & Hod)].
  fold c in Hrs, Hra, Hrd, Hos, Hoa, Hod.
  repeat split; try done.
  - by apply StronglySorted_lt_NoDup.
  - eapply Forall_impl; [exact Hra |]. cbn. lia.
  - by apply StronglySorted_lt_NoDup.
  - eapply Forall_impl; [exact Hoa |]. cbn. lia.
  - by apply Hrd.
  - by apply Hod.
Qed.

End IdProperties.

Section PoolProperties.

Variable P : Platform.
Variable cfg : Config.

Lemma fmap_alter_lookup {A B} (f : A -> B) (g : A -> A) (k : nat) (l : list A) (x : A) :
  l !! k = Some x -> f <$> alter g k l = <[k := f (g x)]> (f <$> l).
Proof.
  revert k. induction l as [| y l IH]; intros [| k] Hk; cbn in *; [done.. | |].
  - by injection Hk as ->.
  - by rewrite (IH k).
Qed.

Lemma insert_S_cons {A} (k : nat) (x h : A) (l : list A) :
  <[S k := x]> (h :: l) = h :: <[k := x]> l.
Proof. done. Qed.

Lemma pool_ok_initialised (p : ObjectPool) : pool_ok p -> pool_initialised p = true.
Proof.
  intros (Hc & Hcap & Hlen & Hall). unfold pool_initialised.
  apply andb_true_intro. split.
  - apply bool_decide_eq_true. lia.
  - apply Is_true_true, forallb_True. eapply Forall_impl; [exact Hall |].
    intros e He. by apply Is_true_true.
Qed.

Lemma pools_ok_published (c : Context) : pools_ok c -> published_initialised c = true.
Proof.
  intros Hok. unfold published_initialised. apply Is_true_true, forallb_True.
  eapply Forall_impl; [exact Hok |]. intros p Hp.
  by apply Is_true_true, pool_ok_initialised.
Qed.

Lemma pool_ok_fresh :
  pool_ok (fresh_overflow_pool P cfg).
Proof.
  unfold pool_ok, fresh_overflow_pool. cbn [pool_capacity pool_count pool_slots].
  pose proof (u32_range (u64 (overflow_available P cfg * 50) / 100 / sizeof_ObjectEntry P)).
  fold (overflow_object_capacity P cfg) in *.
  repeat split; [lia | lia | lia | by rewrite length_replicate | by constructor].
Qed.

Lemma pool_ok_publish (full : ObjectEntry.t) (p : ObjectPool) :
  pool_ok p -> pool_count p < pool_capacity p ->
  ObjectEntry.initialised full = true ->
  pool_ok (publish_slot full p).
Proof.
  intros (Hc & Hcap & Hlen & Hall) Hroom Hfull. unfold pool_ok, publish_slot.
  cbn [pool_capacity pool_count pool_slots].
  rewrite u32_small by lia. repeat split; [lia | lia | lia | by rewrite length_alter |].
  replace (Z.to_nat (pool_count p + 1)) with (S (Z.to_nat (pool_count p))) by lia.
  destruct (lookup_lt_is_Some_2 (pool_slots p) (Z.to_nat (pool_count p)) ltac:(lia))
    as [x Hx].
  erewrite take_S_r; [| by rewrite list_lookup_alter_eq, Hx].
  rewrite take_alter_ge by lia. apply Forall_app. split; [done |]. by constructor.
Qed.

Lemma pool_ok_alter (f : ObjectEntry.t -> ObjectEntry.t) (i : nat) (p : ObjectPool) :
  (forall e, ObjectEntry.initialised e = true -> ObjectEntry.initialised (f e) = true) ->
  pool_ok p ->
  pool_ok (mkObjectPool (pool_capacity p) (pool_count p) (alter f i (pool_slots p))).
Proof.
  intros Hf (Hc & Hcap & Hlen & Hall). unfold pool_ok.
  cbn [pool_capacity pool_count pool_slots].
  repeat split; [lia | lia | lia | by rewrite length_alter |].
  rewrite take_alter. case_decide; [| done]. apply Forall_alter; [done |]. eauto.
Qed.

Lemma create_overflow_region_pools c r c' :
  create_overflow_region P cfg c = (r, c') ->
  match r with
  | None => object_pools c' = object_pools c
  | Some (k, region) =>
      object_pools c' = object_pools c ++ [fresh_overflow_pool P cfg] /\
      k = length (overflow_regions_ (metadata c)) /\
      overflow_regions_ (metadata c') !! k = Some region /\
      overflow_pool region = fresh_overflow_pool P cfg
  end.
Proof.
  unfold create_overflow_region.
  cbn [metadata with_metadata mm_session_name_ overflow_regions_ next_overflow_id_].
  destruct (shm_create P _ _) as [base|]; intros [= <- <-]; [| done].
  unfold object_pools, header_pool.
  destruct (overflow_regions_ (metadata c)) as [| r0 rs] eqn:Hrs.
  - cbn. rewrite Hrs. by repeat split.
  - cbn [metadata with_metadata with_header header header_objects overflow_regions_
         TelemetryHeader.sequence_fetch_add TelemetryHeader.object_dir_capacity
         TelemetryHeader.object_count].
    rewrite fmap_app. unfold link_last_overflow.
    rewrite fmap_alter_same by done.
    repeat split.
    rewrite lookup_app_r; rewrite length_alter; [| done].
    by rewrite Nat.sub_diag.
Qed.

Lemma current_overflow_region_Some (mm : MetadataManager) (k : nat) (r : OverflowRegion) :
  current_overflow_region mm = Some (k, r) -> overflow_regions_ mm !! k = Some r.
Proof.
  unfold current_overflow_region.
  destruct (last (overflow_regions_ mm)) as [r'|] eqn:Hl; [| done].
  intros [= <- <-]. by rewrite last_lookup in Hl.
Qed.

Lemma entry_at_pools (e : SlotRef) (c : Context) :
  entry_at e c = object_pools c !! pool_of e ≫= fun p => pool_slots p !! index_of e.
Proof.
  destruct e as [i | k i]; [done |].
  unfold entry_at, object_pools. cbn [pool_of index_of]. rewrite lookup_cons.
  rewrite list_lookup_fmap.
  by destruct (overflow_regions_ (metadata c) !! k).
Qed.

(** Expose the list of overflow pools on both sides of an equation between
    lists of pools. *)
Ltac pools_step :=
  rewrite ?insert_S_cons;
  cbn [metadata header header_objects overflow_regions_ with_metadata
       store_overflow_descriptor update_entry pool_of index_of];
  f_equal; try done.

Lemma allocate_in_new_overflow_pools c k r0 c2 (full : ObjectEntry.t) :
  create_overflow_region P cfg c = (Some (k, r0), c2) ->
  let e := InOverflow k 0 in
  let c1 := store_overflow_descriptor k
              (MetadataOverflowDescriptor.store_object_entry_count 1) c2 in
  exists (pools0 : list ObjectPool) (p : ObjectPool),
    ((pools0 = object_pools c /\ pool_count p < pool_capacity p) \/
     (pools0 = object_pools c ++ [fresh_overflow_pool P cfg] /\
      p = fresh_overflow_pool P cfg)) /\
    pools0 !! pool_of e = Some p /\
    index_of e = Z.to_nat (pool_count p) /\
    object_pools c1 =
      <[pool_of e := mkObjectPool (pool_capacity p) (u32 (pool_count p + 1))
                       (pool_slots p)]> pools0 /\
    object_pools (update_entry e (fun _ => full) c1) =
      <[pool_of e := publish_slot full p]> pools0.
Proof.
  intros Hc e c1.
  apply create_overflow_region_pools in Hc as (Hpools & -> & Hk & Hr0).
  exists (object_pools c ++ [fresh_overflow_pool P cfg]), (fresh_overflow_pool P cfg).
  split; [by right |]. rewrite <- Hpools. subst e c1. unfold object_pools.
  cbn [pool_of index_of]. rewrite ?lookup_cons.
  rewrite list_lookup_fmap, Hk. cbn [fmap option_fmap option_map]. rewrite Hr0.
  unfold overflow_pool, fresh_overflow_pool in Hr0. injection Hr0 as Hcap Hcnt Hobjs.
  repeat split.
  - pools_step. rewrite (fmap_alter_lookup _ _ _ _ r0) by done. f_equal.
    unfold overflow_pool. cbn. by rewrite Hcap, Hobjs.
  - pools_step. rewrite list_alter_alter_eq.
    rewrite (fmap_alter_lookup _ _ _ _ r0) by done. f_equal.
    unfold overflow_pool, publish_slot. cbn. by rewrite Hcap, Hobjs.
Qed.

(** The pools after [allocate_object_entry], and after the entry it returned
    has been filled: the slot is the next one of its pool, which is a pool
    with room, or the pool of the overflow region that the call created. *)
Lemma allocate_object_entry_pools c e c1 (full : ObjectEntry.t) :
  allocate_object_entry P cfg c = (Some e, c1) ->
  exists (pools0 : list ObjectPool) (p : ObjectPool),
    ((pools0 = object_pools c /\ pool_count p < pool_capacity p) \/
     (pools0 = object_pools c ++ [fresh_overflow_pool P cfg] /\
      p = fresh_overflow_pool P cfg)) /\
    pools0 !! pool_of e = Some p /\
    index_of e = Z.to_nat (pool_count p) /\
    object_pools c1 =
      <[pool_of e := mkObjectPool (pool_capacity p) (u32 (pool_count p + 1))
                       (pool_slots p)]> pools0 /\
    object_pools (update_entry e (fun _ => full) c1) =
      <[pool_of e := publish_slot full p]> pools0.
Proof.
  unfold allocate_object_entry.
  destruct (_ <? _) eqn:Hh.
  { intros [= <- <-]. apply Z.ltb_lt in Hh.
    exists (object_pools c), (header_pool c). split; [by left |]. by repeat split. }
  apply Z.ltb_ge in Hh.
  destruct (current_overflow_region (metadata c)) as [[k region]|] eqn:Hcur.
  - apply current_overflow_region_Some in Hcur.
    destruct (_ <? _) eqn:Ho.
    + intros [= <- <-]. apply Z.ltb_lt in Ho.
      exists (object_pools c), (overflow_pool region). split; [by left |].
      unfold object_pools. cbn [pool_of index_of]. rewrite ?lookup_cons.
      rewrite list_lookup_fmap, Hcur. repeat split.
      * pools_step. by rewrite (fmap_alter_lookup overflow_pool _ k _ region Hcur).
      * pools_step. rewrite list_alter_alter_eq.
        by rewrite (fmap_alter_lookup _ _ _ _ region).
    + destruct (create_overflow_region P cfg c) as [[[k' r0]|] c2] eqn:Hc;
        [| done]. intros [= <- <-].
      by apply (allocate_in_new_overflow_pools c k' r0 c2 full).
  - destruct (create_overflow_region P cfg c) as [[[k' r0]|] c2] eqn:Hc;
      [| done]. intros [= <- <-].
    by apply (allocate_in_new_overflow_pools c k' r0 c2 full).
Qed.

Lemma update_entry_compose e f g c :
  update_entry e f (update_entry e g c) = update_entry e (f ∘ g) c.
Proof.
  destruct e as [i | k i]; unfold update_entry, with_header_objects, with_metadata;
    cbn [header header_objects regions metadata objects
         mm_session_name_ overflow_regions_ next_overflow_id_].
  - by rewrite list_alter_alter_eq.
  - rewrite list_alter_alter_eq. do 2 f_equal. apply list_alter_ext; [| done].
    intros r _. cbn. by rewrite list_alter_alter_eq.
Qed.

Lemma update_entry_ext e f g c :
  (forall x, f x = g x) -> update_entry e f c = update_entry e g c.
Proof.
  intros Hfg.
  destruct e as [i | k i]; unfold update_entry, with_header_objects, with_metadata.
  - f_equal. by apply list_alter_ext.
  - do 2 f_equal. apply list_alter_ext; [| done]. intros r _. f_equal.
    by apply list_alter_ext.
Qed.

(** The eight stores of [register_object] amount to writing the whole entry,
    bumping the sequence and recording the pointer. *)
Lemma register_stores_fold ptr e type_id region_id offset label c :
  foldl (fun c store => store c) c
        (register_stores ptr e type_id region_id offset label) =
  with_objects (fun om => mkObjectManager (<[ptr := e]> (ptr_to_entry_ om)))
    (with_header TelemetryHeader.sequence_fetch_add
       (update_entry e (fun _ => registered_entry type_id region_id offset label) c)).
Proof.
  cbn [register_stores foldl]. do 2 f_equal.
  rewrite !update_entry_compose. by apply update_entry_ext.
Qed.

Lemma object_pools_with_header_sequence c :
  object_pools (with_header TelemetryHeader.sequence_fetch_add c) = object_pools c.
Proof. done. Qed.

Lemma object_pools_with_objects f c : object_pools (with_objects f c) = object_pools c.
Proof. done. Qed.

Lemma registered_entry_initialised type_id region_id offset label :
  ObjectEntry.initialised (registered_entry type_id region_id offset label) = true.
Proof. done. Qed.

(** [register_object] keeps the invariant of the pools, publishes the slot
    before it fills it, and leaves the whole entry written. *)
Lemma register_object_pools ptr type_id label c r c' :
  pools_ok c ->
  1 <= overflow_object_capacity P cfg ->
  register_object P cfg ptr type_id label c = (r, c') ->
  pools_ok c' /\
  forall e, r = Some e ->
    exists region_id offset c1,
      get_location ptr (regions c) = Some (region_id, offset) /\
      allocate_object_entry P cfg c = (Some e, c1) /\
      slot_published e c1 /\
      entry_at e c' = Some (registered_entry type_id region_id offset label).
Proof.
  intros Hok Hcap. unfold register_object.
  destruct (get_location _ _) as [[region_id offset]|]; [| by intros [= <- <-]].
  destruct (allocate_object_entry P cfg c) as [[e|] c1] eqn:Ha;
    rewrite ?register_stores_fold; intros [= <- <-].
  - destruct (allocate_object_entry_pools c e c1
                (registered_entry type_id region_id offset label) Ha)
      as (pools0 & p & Hcase & Hp & Hidx & Hc1 & Hfill).
    assert (Hok0 : Forall pool_ok pools0 /\ pool_count p < pool_capacity p).
    { destruct Hcase as [[-> Hroom] | [-> ->]]; [done |]. split.
      - apply Forall_app. split; [done |]. constructor; [apply pool_ok_fresh | done].
      - cbn. lia. }
    destruct Hok0 as [Hok0 Hroom].
    assert (Hpok : pool_ok p) by (eapply Forall_lookup_1; eauto).
    split.
    + unfold pools_ok.
      rewrite object_pools_with_objects, object_pools_with_header_sequence, Hfill.
      apply Forall_insert; [done |]. by apply pool_ok_publish.
    + intros e0 [= <-]. exists region_id, offset, c1. repeat split.
      * eexists. split; [rewrite Hc1; apply list_lookup_insert_eq |].
        -- by eapply lookup_lt_Some.
        -- cbn. destruct Hpok as (? & ? & _). rewrite u32_small by lia. lia.
      * rewrite entry_at_pools.
        rewrite object_pools_with_objects, object_pools_with_header_sequence, Hfill.
        rewrite list_lookup_insert_eq by (by eapply lookup_lt_Some). cbn.
        rewrite Hidx, list_lookup_alter_eq.
        destruct Hpok as (? & ? & Hlen & _).
        destruct (lookup_lt_is_Some_2 (pool_slots p) (Z.to_nat (pool_count p))
                    ltac:(lia)) as [x ->]. done.
  - split; [| done]. revert Ha. unfold allocate_object_entry.
    destruct (_ <? _); [done |].
    destruct (match current_overflow_region _ with Some _ => _ | None => _ end)
      as [[k n]|]; [done |].
    destruct (create_overflow_region P cfg c) as [[[k r0]|] c2] eqn:Hc; [done |].
    intros [= <-]. apply create_overflow_region_pools in Hc.
    unfold pools_ok. by rewrite Hc.
Qed.

Lemma object_pools_store_overflow_descriptor k f c :
  (forall d, MetadataOverflowDescriptor.object_entry_capacity (f d) =
             MetadataOverflowDescriptor.object_entry_capacity d /\
             MetadataOverflowDescriptor.object_entry_count (f d) =
             MetadataOverflowDescriptor.object_entry_count d) ->
  object_pools (store_overflow_descriptor k f c) = object_pools c.
Proof.
  intros Hf. unfold object_pools, store_overflow_descriptor, with_metadata, header_pool.
  cbn [metadata header header_objects overflow_regions_]. f_equal.
  apply fmap_alter_same. intros r. unfold overflow_pool. cbn.
  by destruct (Hf (or_descriptor r)) as [-> ->].
Qed.

Lemma RegionManager_init_pools session_name initial_size c :
  object_pools (snd (RegionManager_init P session_name initial_size c)) = object_pools c.
Proof.
  unfold RegionManager_init. by destruct (create_region P _ _) as [[[k r]|] rm].
Qed.

Lemma allocate_pools size alignment c :
  object_pools (snd (allocate P cfg size alignment c)) = object_pools c.
Proof.
  unfold allocate. destruct (current_region _) as [[k region]|]; [| done].
  destruct (_ <? _); [| done]. by destruct (create_region P _ _) as [[[k' r]|] rm].
Qed.

Lemma allocate_type_entry_pools c :
  object_pools (snd (allocate_type_entry P cfg c)) = object_pools c \/
  object_pools (snd (allocate_type_entry P cfg c)) =
    object_pools c ++ [fresh_overflow_pool P cfg].
Proof.
  unfold allocate_type_entry. destruct (_ <? _); [by left |].
  destruct (match current_overflow_region _ with Some _ => _ | None => _ end)
    as [[k n]|].
  { left. by apply object_pools_store_overflow_descriptor. }
  destruct (create_overflow_region P cfg c) as [[[k r0]|] c2] eqn:Hc;
    apply create_overflow_region_pools in Hc; cbn [snd]; [| by left].
  right. rewrite object_pools_store_overflow_descriptor by done. apply Hc.
Qed.

Lemma allocate_field_entries_pools n c :
  object_pools (snd (allocate_field_entries P cfg n c)) = object_pools c \/
  object_pools (snd (allocate_field_entries P cfg n c)) =
    object_pools c ++ [fresh_overflow_pool P cfg].
Proof.
  unfold allocate_field_entries. destruct (n =? 0); [by left |].
  destruct (_ <=? _); [by left |].
  destruct (match current_overflow_region _ with Some _ => _ | None => _ end)
    as [[k m]|].
  { left. by apply object_pools_store_overflow_descriptor. }
  destruct (create_overflow_region P cfg c) as [[[k r0]|] c2] eqn:Hc;
    apply create_overflow_region_pools in Hc; [| by left].
  right. destruct (_ <? _); cbn [snd]; [apply Hc |].
  rewrite object_pools_store_overflow_descriptor by done. apply Hc.
Qed.

Lemma object_pools_update_entry e f c :
  object_pools (update_entry e f c) =
  alter (fun p => mkObjectPool (pool_capacity p) (pool_count p)
                    (alter f (index_of e) (pool_slots p)))
        (pool_of e) (object_pools c).
Proof.
  destruct e as [i | k i]; [done |].
  unfold object_pools, update_entry, with_metadata, header_pool.
  cbn [metadata header header_objects overflow_regions_ pool_of index_of].
  change (alter ?g (S k) (?h :: ?l)) with (h :: alter g k l). f_equal.
  apply list_fmap_alter. by apply Forall_true.
Qed.

Lemma store_state_initialised v e :
  ObjectEntry.initialised e = true ->
  ObjectEntry.initialised (ObjectEntry.store_state v e) = true.
Proof. by destruct e as [[?|] [?|] [?|] [?|] [?|] [?|]]. Qed.

Lemma destroy_object_pools ptr c :
  pools_ok c -> pools_ok (destroy_object ptr c).
Proof.
  intros Hok. unfold destroy_object.
  destruct (ptr_to_entry_ (objects c) !! ptr) as [e|]; [| done].
  unfold pools_ok.
  rewrite object_pools_with_objects, object_pools_with_header_sequence,
    object_pools_update_entry.
  apply Forall_alter; [done |]. intros p _ Hp.
  apply pool_ok_alter; [| done]. apply store_state_initialised.
Qed.

Lemma step_pools_ok op c :
  is_allocate_object_entry op = false ->
  1 <= overflow_object_capacity P cfg ->
  pools_ok c -> pools_ok (step P cfg op c).
Proof.
  intros Hop Hcap Hok.
  assert (Hfresh : Forall pool_ok (object_pools c ++ [fresh_overflow_pool P cfg])).
  { apply Forall_app. split; [done |]. constructor; [apply pool_ok_fresh | done]. }
  destruct op as [s n | s | size alignment | | | n | ptr type_id label | ptr];
    cbn [step]; unfold pools_ok.
  - by rewrite RegionManager_init_pools.
  - done.
  - by rewrite allocate_pools.
  - done.
  - by destruct (allocate_type_entry_pools c) as [-> | ->].
  - by destruct (allocate_field_entries_pools n c) as [-> | ->].
  - destruct (register_object P cfg ptr type_id label c) as [r c'] eqn:Hreg.
    by apply register_object_pools in Hreg as [? _].
  - by apply destroy_object_pools.
Qed.

Lemma run_pools_ok ops c :
  Forall (fun op => is_allocate_object_entry op = false) ops ->
  1 <= overflow_object_capacity P cfg ->
  pools_ok c -> pools_ok (run P cfg ops c).
Proof.
  intros Hops Hcap. revert c.
  induction Hops as [| op ops Hop Hops IH]; intros c Hok; [done |].
  cbn [run foldl]. apply IH. by apply step_pools_ok.
Qed.

Lemma initial_context_pools_ok object_capacity type_capacity field_capacity :
  0 <= object_capacity < 2 ^ 32 ->
  pools_ok (initial_context cfg object_capacity type_capacity field_capacity).
Proof.
  intros Hcap. constructor; [| constructor].
  unfold pool_ok, header_pool. cbn.
  repeat split; [lia | lia | lia | by rewrite length_replicate | by constructor].
Qed.

Lemma last_run_stores (fs : list (Context -> Context)) (c : Context) :
  last (c :: run_stores fs c) = Some (foldl (fun c store => store c) c fs).
Proof.
  revert c. induction fs as [| f fs IH]; intros c; [done |].
  cbn [run_stores foldl]. rewrite <- IH. done.
Qed.

(** C1, as the code has it. In a session whose object entries are allocated
    through [register_object] only (and whose overflow regions have room for
    at least one object entry), between two calls of the producer every
    object entry with index below the count of its pool, header or overflow,
    is fully initialised. A successful [register_object] first lets
    [allocate_object_entry] publish the slot (the count of the pool already
    covers the slot in the state that the allocation leaves, before any field
    of the entry is stored), then stores the fields; when it returns the
    entry holds state [Alive], the [type_id], the location of the pointer,
    generation 1 and the label, and the invariant holds again. *)
Theorem register_object_initialises_published_entry
    (ops : list Op) (object_capacity type_capacity field_capacity : Z) :
  0 <= object_capacity < 2 ^ 32 ->
  1 <= overflow_object_capacity P cfg ->
  Forall (fun op => is_allocate_object_entry op = false) ops ->
  let c := run P cfg ops
             (initial_context cfg object_capacity type_capacity field_capacity) in
  published_initialised c = true /\
  forall ptr type_id label e c',
    register_object P cfg ptr type_id label c = (Some e, c') ->
    exists region_id offset c1 rest,
      get_location ptr (regions c) = Some (region_id, offset) /\
      allocate_object_entry P cfg c = (Some e, c1) /\
      register_object_trace P cfg ptr type_id label c = c1 :: rest /\
      slot_published e c1 /\
      last (c1 :: rest) = Some c' /\
      entry_at e c' = Some (registered_entry type_id region_id offset label) /\
      published_initialised c' = true.
Proof.
  intros Hocap Hcap Hops c.
  assert (Hok : pools_ok c).
  { apply run_pools_ok; [done | done |]. by apply initial_context_pools_ok. }
  split; [by apply pools_ok_published |].
  intros ptr type_id label e c' Hreg.
  destruct (register_object_pools ptr type_id label c (Some e) c' Hok Hcap Hreg)
    as [Hok' Hentry].
  destruct (Hentry e eq_refl) as (region_id & offset & c1 & Hloc & Ha & Hpub & He).
  exists region_id, offset, c1,
    (run_stores (register_stores ptr e type_id region_id offset label) c1).
  repeat split; try done.
  - unfold register_object_trace. by rewrite Hloc, Ha.
  - rewrite last_run_stores. unfold register_object in Hreg.
    rewrite Hloc, Ha in Hreg. by injection Hreg as <-.
  - by apply pools_ok_published.
Qed.

End PoolProperties.

(** * The properties on concrete sessions *)

(** C2. The cursor overruns the region when growth is clamped: with
    [max_region_size = 8192], an allocation of 100000 bytes right after
    [init] is served from a new region of 8488 bytes (descriptor included)
    and leaves its cursor at 100296, beyond the size of the region; the call
    reports success. *)
Theorem allocate_clamped_growth_overruns_region :
  let c1 := snd (RegionManager_init demo_platform "s" 4096 new_session) in
  let result := allocate demo_platform small_config 100000 8 c1 in
  fst result = Some (2 * 2 ^ 32 + 296) /\
  (fun r => (RegionDescriptor.size (r_descriptor r),
             RegionDescriptor.used (r_descriptor r)))
    <$> last (regions_ (regions (snd result))) = Some (8488, 100296) /\
  8488 < 100296.
Proof. vm_compute. by repeat split. Qed.

(** C7. The allocation is not always satisfied from the new region: with
    regions that may grow to 16 MiB (no clamping), an allocation of 10000
    bytes with alignment 4096 right after [init] does what the growth step
    promises (one new region, with id 2 and a body of
    [max(10000 + 296, 4096 * 2) = 10296] bytes, sequence bumped to 1) and
    returns the address at offset 4096 of the new mapping, but the mapping
    has 10592 bytes and the cursor is left at 14096: the block runs past the
    end of the region, and its last byte lies in no mapping at all. The
    grow size has no room for the alignment padding, and the fit check is
    not repeated after the cursor has been recalculated. *)
Theorem allocate_growth_block_overruns_new_region :
  let c1 := snd (RegionManager_init demo_platform "s" 4096
                   (initial_context roomy_config 1 1 4)) in
  let result := allocate demo_platform roomy_config 10000 4096 c1 in
  let block := 2 * 2 ^ 32 + 4096 in
  spec_grow_size demo_platform roomy_config 10000 4096 = 10296 /\
  fst result = Some block /\
  region_ids (snd result) = [1; 2] /\
  TelemetryHeader.sequence (header (snd result)) = 1 /\
  (fun r => (r_base r, RegionDescriptor.size (r_descriptor r),
             RegionDescriptor.used (r_descriptor r)))
    <$> last (regions_ (regions (snd result))) = Some (2 * 2 ^ 32, 10592, 14096) /\
  10592 < 14096 /\
  get_location block (regions (snd result)) = Some (2, 4096) /\
  get_location (block + 10000 - 1) (regions (snd result)) = None.
Proof. vm_compute. by repeat split. Qed.

(** C5. [get_all_objects] misses the objects of the overflow pools: with a
    header pool of one entry and two registered objects, both alive, it
    returns the entry of the header only, while the listing of the
    specification and [total_object_count] cover both. *)
Theorem get_all_objects_misses_overflow_entries :
  get_all_objects two_registered = [InHeader 0%nat] /\
  spec_all_objects two_registered = [InHeader 0%nat; InOverflow 0 0] /\
  ObjectEntry.state <$> entry_at (InOverflow 0 0) two_registered = Some (Some Alive) /\
  total_object_count two_registered = 2.
Proof. vm_compute. by repeat split. Qed.

(** Against C1 as stated: during [register_object] the entry is visible
    before it is initialised. The states of the call, in order: after
    [allocate_object_entry] has bumped the count, after the store of [state],
    then after each field; the published entry is fully initialised only from
    the seventh state on, and [state] reads [Alive] from the second one,
    while [generation] and [label] are not written yet. *)
Lemma register_object_publishes_before_initialising :
  let trace := register_object_trace demo_platform small_config payload1 100 "eurusd"
                 two_payloads in
  fst (register_object demo_platform small_config payload1 100 "eurusd" two_payloads)
    = Some (InHeader 0) /\
  (fun c => TelemetryHeader.object_count (header c)) <$> trace
    = [1; 1; 1; 1; 1; 1; 1; 1; 1] /\
  published_initialised <$> trace
    = [false; false; false; false; false; false; true; true; true] /\
  (fun c => ObjectEntry.state <$> entry_at (InHeader 0) c) <$> trace !! 1%nat
    = Some (Some (Some Alive)) /\
  (fun c => ObjectEntry.generation <$> entry_at (InHeader 0) c) <$> trace !! 1%nat
    = Some (Some None) /\
  ~ Forall (fun c => published_initialised c = true) trace.
Proof.
  vm_compute. repeat split. intros H. by inversion H.
Qed.

(** Against C3 as stated: [init] creates the first data region and leaves
    [header.sequence] at its value. *)
Lemma init_creates_region_without_sequence_bump :
  let result := RegionManager_init demo_platform "s" 4096 new_session in
  fst result = true /\
  region_ids new_session = [] /\
  region_ids (snd result) = [1] /\
  ~ (TelemetryHeader.sequence (header new_session) <
     TelemetryHeader.sequence (header (snd result))).
Proof. vm_compute. repeat split. intros H. discriminate H. Qed.

(** Against C4 as stated: the second object entry of a session whose header
    holds one creates an overflow region while the type registry and the
    field pool of the header are still empty. *)
Lemma overflow_region_created_while_other_pools_have_room :
  let c := step demo_platform small_config OpAllocateObjectEntry new_session in
  let c' := step demo_platform small_config OpAllocateObjectEntry c in
  overflow_ids c = [] /\
  overflow_ids c' = [1] /\
  TelemetryHeader.type_count (header c') <
    TelemetryHeader.type_registry_capacity (header c') /\
  TelemetryHeader.field_count (header c') <
    TelemetryHeader.field_entries_capacity (header c').
Proof. vm_compute. by repeat split. Qed.

(** Against C8 as stated: the generation of an entry is the same before and
    after [destroy_object] changes its state from [Alive] to [Destroyed]. *)
Lemma destroy_object_keeps_generation :
  let c := one_registered in
  let c' := destroy_object payload1 c in
  entry_at (InHeader 0) c =
    Some (registered_entry 100 1 296 "eurusd") /\
  ObjectEntry.state <$> entry_at (InHeader 0) c' = Some (Some Destroyed) /\
  ObjectEntry.generation <$> entry_at (InHeader 0) c = Some (Some 1) /\
  ObjectEntry.generation <$> entry_at (InHeader 0) c' = Some (Some 1) /\
  ~ (1 < 1).
Proof. vm_compute. repeat split. intros H. discriminate H. Qed.

(** Against C9 as stated: the first data region and the first overflow
    region of a session both have id 1. *)
Lemma data_and_overflow_region_share_id :
  region_ids two_registered = [1] /\
  overflow_ids two_registered = [1] /\
  exists id : Z, id ∈ region_ids two_registered /\ id ∈ overflow_ids two_registered.
Proof.
  assert (Hr : region_ids two_registered = [1]) by (vm_compute; reflexivity).
  assert (Ho : overflow_ids two_registered = [1]) by (vm_compute; reflexivity).
  split; [done |]. split; [done |]. exists 1. rewrite Hr, Ho.
  split; apply list_elem_of_here.
Qed.

(** * The theorems at work on concrete sessions *)

(** C1 on the session with two payloads: the pools are initialised before
    the first registration, and the registered entry is the one
    [register_object] promises. *)
Lemma register_object_initialises_published_entry_witness :
  published_initialised two_payloads = true /\
  entry_at (InHeader 0) one_registered = Some (registered_entry 100 1 296 "eurusd") /\
  published_initialised one_registered = true.
Proof.
  destruct (register_object_initialises_published_entry demo_platform small_config
              [OpRegionInit "s" 4096; OpAllocate 16 8; OpAllocate 16 8] 1 1 4)
    as [Hbefore Hreg].
  - lia.
  - vm_compute. discriminate.
  - repeat constructor.
  - split; [exact Hbefore |].
    destruct (Hreg payload1 100 "eurusd" (InHeader 0) one_registered eq_refl)
      as (region_id & offset & c1 & rest & Hloc & _ & _ & _ & _ & Hentry & Hafter).
    vm_compute in Hloc. injection Hloc as <- <-. split; [exact Hentry | exact Hafter].
Defined.

(** C3 on the same session: registering an object takes the sequence up. *)
Lemma sequence_increases_except_init_witness :
  TelemetryHeader.sequence (header two_payloads) <
  TelemetryHeader.sequence
    (header (step demo_platform small_config
               (OpRegisterObject payload1 100 "eurusd") two_payloads)).
Proof.
  apply (sequence_increases_except_init demo_platform small_config two_payloads).
  - vm_compute. discriminate.
  - vm_compute. reflexivity.
  - reflexivity.
  - right; right. vm_compute. by eexists.
Defined.

(** C4 on a session whose header object pool is full. *)
Lemma overflow_region_only_when_own_pool_refuses_witness :
  let c := step demo_platform small_config OpAllocateObjectEntry new_session in
  header_pool_refuses OpAllocateObjectEntry c /\
  current_overflow_refuses OpAllocateObjectEntry c.
Proof.
  intros c.
  apply (overflow_region_only_when_own_pool_refuses demo_platform small_config).
  vm_compute. discriminate.
Defined.

(** The growth step on the scenario of the specification: 10 MiB requested
    from a session with regions of 4 KiB that may grow to 16 MiB. *)
Lemma allocate_grows_by_one_region_witness :
  let c0 := initial_context roomy_config 1 1 4 in
  let c1 := snd (RegionManager_init demo_platform "s" 4096 c0) in
  (exists c2 new_region,
     allocate demo_platform roomy_config 10485760 8 c1 =
       (Some (r_base new_region + 296), c2) /\
     r_id new_region = 2 /\
     RegionDescriptor.size (r_descriptor new_region) = 296 + (10485760 + 296) /\
     TelemetryHeader.sequence (header c2) = 1) /\
  (exists p c2,
     allocate demo_platform roomy_config 10485760 (2 ^ 3) c1 = (Some p, c2) /\
     length (regions_ (regions c2)) = 2%nat).
Proof.
  intros c0 c1. split.
  - destruct (proj1 (allocate_grows_by_one_region demo_platform roomy_config)
                10485760 8 c1 0%nat
                (mkRegion 1 (2 ^ 32)
                   (RegionDescriptor.mk 1 1 4392 296 0
                      (make_region_shm_name "s" 1)))
                (2 * 2 ^ 32) eq_refl)
      as (c2 & new_region & Ha & _ & _ & _ & Hid & _ & _ & Hsize & _ & _ & _ & _ & Hseq).
    + vm_compute. reflexivity.
    + reflexivity.
    + exists c2, new_region. repeat split; [exact Ha | exact Hid | exact Hsize | exact Hseq].
  - destruct (proj2 (allocate_grows_by_one_region demo_platform roomy_config)
                "s" 4096 10485760 3 c0 c1 (2 * 2 ^ 32) eq_refl)
      as (p & c2 & Ha & Hlen & _); try (vm_compute; congruence).
    exists p, c2. split; [exact Ha | exact Hlen].
Defined.

(** C8 on the registered payload: generation 1 at registration, generation 1
    after the destruction. *)
Lemma generation_set_at_registration_only_witness :
  (ObjectEntry.generation (registered_entry 100 1 296 "eurusd") = Some 1 /\
   ObjectEntry.state (registered_entry 100 1 296 "eurusd") = Some Alive) /\
  entry_at (InHeader 0) (destroy_object payload1 one_registered) =
    Some (ObjectEntry.store_state Destroyed (registered_entry 100 1 296 "eurusd")).
Proof.
  split.
  - apply (proj1 (generation_set_at_registration_only demo_platform small_config
                    two_payloads)
             payload1 100 "eurusd" (InHeader 0) one_registered);
      vm_compute; reflexivity.
  - apply (proj2 (proj2 (generation_set_at_registration_only demo_platform small_config
                           one_registered))
             payload1 (InHeader 0)); vm_compute; reflexivity.
Defined.

(** C9 on the calls that lead to the session with two registered objects. *)
Lemma region_ids_unique_within_kind_witness :
  let c := run demo_platform small_config
             [OpRegionInit "s" 4096; OpAllocate 16 8; OpAllocate 16 8;
              OpRegisterObject payload1 100 "eurusd";
              OpRegisterObject payload2 100 "gbpusd"]
             (initial_context small_config 1 1 4) in
  NoDup (region_ids c) /\ NoDup (overflow_ids c).
Proof.
  destruct (region_ids_unique_within_kind demo_platform small_config
              [OpRegionInit "s" 4096; OpAllocate 16 8; OpAllocate 16 8;
               OpRegisterObject payload1 100 "eurusd";
               OpRegisterObject payload2 100 "gbpusd"] 1 1 4)
    as ((_ & Hr & _) & (_ & Ho & _) & _).
  - vm_compute. reflexivity.
  - split; [exact Hr | exact Ho].
Defined.

(** C10 on the session with one registered object: destroying the payload
    that was never registered changes nothing. *)
Lemma destroy_object_unknown_pointer_witness :
  destroy_object payload2 one_registered = one_registered.
Proof.
  apply (proj1 (destroy_object_unknown_pointer payload2 one_registered)).
  vm_compute. reflexivity.
Defined.

(** C6 on the session with two registered objects: the label of the second
    one, alive in the overflow pool, matches no entry below the header count,
    and [find_object] returns null for it. *)
Lemma find_object_scans_header_pool_witness :
  find_object "gbpusd" two_registered = None /\
  (forall i : nat,
     Z.of_nat i < TelemetryHeader.object_count (header two_registered) ->
     ~ object_matches "gbpusd" two_registered i) /\
  ObjectEntry.load_state <$> entry_at (InOverflow 0 0) two_registered = Some Alive /\
  ObjectEntry.label_view <$> entry_at (InOverflow 0 0) two_registered = Some "gbpusd".
Proof.
  assert (Hnone : find_object "gbpusd" two_registered = None)
    by (vm_compute; reflexivity).
  split; [exact Hnone |]. split.
  - exact (proj1 (find_object_scans_header_pool "gbpusd" two_registered)).
  - vm_compute. by split.
Defined.

(** When the system refuses the new mapping, [allocate] returns null, adds no
    region and leaves the sequence as it was. *)
Example allocate_refused_mapping :
  let c1 := snd (RegionManager_init single_region_platform "s" 4096 new_session) in
  let result := allocate single_region_platform small_config 100000 8 c1 in
  fst result = None /\
  region_ids (snd result) = region_ids c1 /\
  TelemetryHeader.sequence (header (snd result)) = TelemetryHeader.sequence (header c1).
Proof. vm_compute. by repeat split. Qed.


(** * Further properties of the allocators *)

Section RegionCursorProperties.

Variable P : Platform.
Variable cfg : Config.

Lemma align_up_pow2_mod (x j : Z) :
  0 <= j -> 0 <= x -> x + 2 ^ j - 1 < 2 ^ 64 -> align_up x (2 ^ j) mod 2 ^ j = 0.
Proof. intros. rewrite align_up_pow2 by done. apply Z.mod_mul. lia. Qed.

Lemma align_up_pow2_id (x j : Z) :
  0 <= j -> 0 <= x -> x + 2 ^ j - 1 < 2 ^ 64 -> x mod 2 ^ j = 0 ->
  align_up x (2 ^ j) = x.
Proof.
  intros Hj Hx Hfit Hmod.
  assert (0 < 2 ^ j) by (apply Z.pow_pos_nonneg; lia).
  pose proof (align_up_pow2_ge x j Hj Hx Hfit).
  pose proof (align_up_pow2_lt x j Hj Hx Hfit).
  pose proof (align_up_pow2_mod x j Hj Hx Hfit) as Ha.
  apply Z.mod_divide in Ha; [| lia]. apply Z.mod_divide in Hmod; [| lia].
  destruct Ha as [q Hq], Hmod as [q' Hq'].
  assert (q' <= q) by (apply (Z.mul_le_mono_pos_r _ _ (2 ^ j)); lia).
  assert (q < q' + 1) by (apply (Z.mul_lt_mono_pos_r (2 ^ j)); lia).
  assert (q = q') by lia. congruence.
Qed.


(** X2. [allocate] returns null in two cases only: there is no region yet
    (the state is then unchanged), or the request does not fit the current
    region and the system refuses the mapping of the new one. A call that
    returns null leaves the header, the regions, the metadata and the objects
    as they were. *)
Theorem allocate_null_iff (size alignment : Z) (c : Context) :
  (fst (allocate P cfg size alignment c) = None <->
   current_region (regions c) = None \/
   exists k region,
     current_region (regions c) = Some (k, region) /\
     RegionDescriptor.size (r_descriptor region) <
       u64 (align_up (RegionDescriptor.used (r_descriptor region)) alignment + size) /\
     shm_create P
       (make_region_shm_name (rm_session_name_ (regions c))
          (next_region_id_ (regions c)))
       (u64 (sizeof_RegionDescriptor P +
             Z.min (Z.max (u64 (size + sizeof_RegionDescriptor P))
                          (u64 (current_region_size_ (regions c) * 2)))
                   (max_region_size cfg))) = None) /\
  (current_region (regions c) = None -> allocate P cfg size alignment c = (None, c)) /\
  (fst (allocate P cfg size alignment c) = None ->
   let c' := snd (allocate P cfg size alignment c) in
   header c' = header c /\ header_objects c' = header_objects c /\
   regions_ (regions c') = regions_ (regions c) /\
   metadata c' = metadata c /\ objects c' = objects c).
Proof.
  unfold allocate. destruct (current_region (regions c)) as [[k region]|] eqn:Hcur.
  2: { split; [| done]. split; [by left | done]. }
  destruct (Z.ltb_spec (RegionDescriptor.size (r_descriptor region))
              (u64 (align_up (RegionDescriptor.used (r_descriptor region)) alignment
                    + size))) as [Hfull | Hfits].
  2: { cbn [fst]. split; [| done]. split; [done |].
       intros [[=] | (k' & r' & [= <- <-] & Hlt & _)]. lia. }
  unfold create_region.
  cbn [rm_session_name_ next_region_id_ regions_ current_region_size_].
  destruct (shm_create P _ _) as [base|] eqn:Hshm; cbn [fst snd].
  - split; [| done]. split; [done |].
    intros [[=] | (k' & r' & _ & _ & [=])].
  - split; [| done]. split; [| done]. intros _. right. by exists k, region.
Qed.

Lemma region_cursor_ok_link id rs :
  Forall (region_cursor_ok P cfg) rs ->
  Forall (region_cursor_ok P cfg) (link_last_region id rs).
Proof.
  intros Hrs. destruct rs as [| r rs]; [done |]. unfold link_last_region.
  apply Forall_alter; [done |]. by intros x _ (? & ? & ?).
Qed.

Lemma link_last_region_lookup id rs (k : nat) r :
  rs !! k = Some r ->
  exists r', link_last_region id rs !! k = Some r' /\ cursor_advanced r r'.
Proof.
  intros Hk. destruct rs as [| r0 rs]; [done |]. unfold link_last_region.
  rewrite list_lookup_alter. case_decide; subst; rewrite Hk; cbn;
    eexists; (split; [done |]); by repeat split.
Qed.

(** One call keeps the invariant of the region manager and moves no cursor
    backwards. *)
Lemma step_regions_ok (op : Op) (c : Context) :
  0 < sizeof_RegionDescriptor P ->
  sizeof_RegionDescriptor P + max_region_size cfg < 2 ^ 63 ->
  well_sized P cfg op ->
  regions_ok P cfg c ->
  regions_ok P cfg (step P cfg op c) /\
  forall (k : nat) (r : Region),
    regions_ (regions c) !! k = Some r ->
    exists r', regions_ (regions (step P cfg op c)) !! k = Some r' /\
               cursor_advanced r r'.
Proof.
  intros Hsz Hmax Hop [Hall Hcrs].
  assert (Hsame : forall c', regions c' = regions c ->
            regions_ok P cfg c' /\
            forall (k : nat) (r : Region),
              regions_ (regions c) !! k = Some r ->
              exists r', regions_ (regions c') !! k = Some r' /\ cursor_advanced r r').
  { intros c' Hr. unfold regions_ok. rewrite Hr. split; [done |].
    intros k r Hk. exists r. split; [done |]. by repeat split. }
  destruct op as [s n | s | size alignment | | | n | ptr type_id label | ptr];
    cbn [step well_sized] in *.
  - (* init *)
    unfold RegionManager_init, create_region.
    cbn [rm_session_name_ next_region_id_ regions_ current_region_size_].
    destruct (shm_create P _ _) as [base|]; cbn [snd].
    + split.
      * split; [| right; cbn; lia]. cbn. apply Forall_app. split.
        -- by apply region_cursor_ok_link.
        -- constructor; [| done]. unfold region_cursor_ok. cbn.
           rewrite u64_small by lia. lia.
      * intros k r Hk. cbn.
        destruct (link_last_region_lookup (next_region_id_ (regions c)) _ k r Hk)
          as (r' & Hr' & Hadv).
        exists r'. split; [| done]. rewrite lookup_app_l; [done |].
        by eapply lookup_lt_Some.
    + split; [split; [done | right; cbn; lia] |].
      intros k r Hk. exists r. split; [done |]. by repeat split.
  - by apply Hsame.
  - (* allocate *)
    destruct Hop as (Hsize & Hfit & j & Hj & -> & Hmod).
    assert (H2j : 0 < 2 ^ j) by (apply Z.pow_pos_nonneg; lia).
    assert (Hja : 2 ^ j <= sizeof_RegionDescriptor P).
    { apply Z.mod_divide in Hmod; [| lia]. apply Z.divide_pos_le in Hmod; lia. }
    unfold allocate.
    destruct (current_region (regions c)) as [[k region]|] eqn:Hcur;
      [| by apply Hsame].
    destruct (current_region_Some _ _ _ Hcur) as [Hk Hlen].
    pose proof (Forall_lookup_1 _ _ _ _ Hall Hk) as (Hr1 & Hr2 & Hr3).
    destruct Hcrs as [Hnil | Hcrs]; [by rewrite Hnil in Hk |].
    set (used := RegionDescriptor.used (r_descriptor region)) in *.
    pose proof (align_up_pow2_ge used j Hj ltac:(lia) ltac:(lia)) as Hge.
    pose proof (align_up_pow2_lt used j Hj ltac:(lia) ltac:(lia)) as Hlt.
    rewrite (u64_small (align_up used (2 ^ j) + size)) by lia.
    destruct (Z.ltb_spec (RegionDescriptor.size (r_descriptor region))
                (align_up used (2 ^ j) + size)) as [Hfull | Hfits].
    + (* growth *)
      rewrite (u64_small (size + sizeof_RegionDescriptor P)) by lia.
      rewrite (u64_small (current_region_size_ (regions c) * 2)) by lia.
      set (new_size := Z.min _ (max_region_size cfg)).
      assert (Hns : size + sizeof_RegionDescriptor P <= new_size <= max_region_size cfg)
        by (subst new_size; lia).
      unfold create_region.
      cbn [rm_session_name_ next_region_id_ regions_ current_region_size_].
      destruct (shm_create P _ _) as [base|]; cbn [snd].
      * cbn [r_descriptor r_base RegionDescriptor.used].
        rewrite (align_up_pow2_id _ j) by (done || lia).
        rewrite (u64_small (sizeof_RegionDescriptor P + size)) by lia.
        rewrite (u64_small (sizeof_RegionDescriptor P + new_size)) by lia.
        unfold regions_ok, with_regions, with_header, store_region_used.
        cbn [regions regions_ current_region_size_ rm_session_name_ next_region_id_
             r_descriptor RegionDescriptor.used header header_objects metadata
             objects].
        rewrite alter_app_r_alt by lia. rewrite Nat.sub_diag. cbn [alter list_alter].
        split.
        -- split; [| right; lia]. apply Forall_app. split.
           ++ by apply region_cursor_ok_link.
           ++ constructor; [| done]. unfold region_cursor_ok. cbn. lia.
        -- intros k0 r Hk0.
           destruct (link_last_region_lookup (next_region_id_ (regions c)) _ k0 r Hk0)
             as (r' & Hr' & Hadv).
           exists r'. split; [| done]. rewrite lookup_app_l; [done |].
           by eapply lookup_lt_Some.
      * split; [split; [done | right; cbn; lia] |].
        intros k0 r Hk0. exists r. split; [done |]. by repeat split.
    + (* the request fits *)
      cbn [snd]. unfold with_regions, store_region_used. cbn [regions regions_
        current_region_size_]. split.
      * split; [| by right]. apply Forall_alter; [done |].
        intros x Hx _. rewrite Hk in Hx. injection Hx as <-.
        unfold region_cursor_ok. cbn. fold used. lia.
      * intros k0 r Hk0. rewrite list_lookup_alter. case_decide; subst.
        -- rewrite Hk in *. injection Hk0 as <-. cbn. eexists. split; [done |].
           unfold cursor_advanced. cbn. fold used. by repeat split; try lia.
        -- rewrite Hk0. exists r. split; [done |]. by repeat split.
  - destruct (allocate_object_entry P cfg c) as [r c'] eqn:Ha.
    apply allocate_object_entry_effect in Ha as (Hr & _). by apply Hsame.
  - destruct (allocate_type_entry P cfg c) as [r c'] eqn:Ha.
    apply allocate_type_entry_effect in Ha as (Hr & _). by apply Hsame.
  - destruct (allocate_field_entries P cfg n c) as [r c'] eqn:Ha.
    apply allocate_field_entries_effect in Ha as (Hr & _). by apply Hsame.
  - destruct (register_object P cfg ptr type_id label c) as [r c'] eqn:Ha.
    apply register_object_effect in Ha as (Hr & _). by apply Hsame.
  - destruct (destroy_object_effect ptr c) as (Hr & _). by apply Hsame.
Qed.

Lemma run_regions_ok (ops : list Op) (c : Context) :
  0 < sizeof_RegionDescriptor P ->
  sizeof_RegionDescriptor P + max_region_size cfg < 2 ^ 63 ->
  Forall (well_sized P cfg) ops ->
  regions_ok P cfg c -> regions_ok P cfg (run P cfg ops c).
Proof.
  intros Hsz Hmax Hops. revert c.
  induction Hops as [| op ops Hop Hops IH]; intros c Hok; [done |].
  cbn [run foldl]. apply IH. by apply step_regions_ok.
Qed.

(** X3. Under well-sized calls (initial sizes and requests within
    [max_region_size], power-of-two alignments that divide the size of the
    descriptor) the cursor of every region stays between the end of the
    descriptor and the size of the mapping, and no call moves a cursor
    backwards or changes the size, the base or the id of a region. *)
Theorem region_cursor_stays_within_mapping
    (ops : list Op) (op : Op) (object_capacity type_capacity field_capacity : Z) :
  0 < sizeof_RegionDescriptor P ->
  sizeof_RegionDescriptor P + max_region_size cfg < 2 ^ 63 ->
  Forall (well_sized P cfg) ops ->
  well_sized P cfg op ->
  let c := run P cfg ops
             (initial_context cfg object_capacity type_capacity field_capacity) in
  Forall (region_cursor_ok P cfg) (regions_ (regions c)) /\
  forall (k : nat) (r : Region),
    regions_ (regions c) !! k = Some r ->
    exists r', regions_ (regions (step P cfg op c)) !! k = Some r' /\
               cursor_advanced r r'.
Proof.
  intros Hsz Hmax Hops Hop c.
  assert (Hok : regions_ok P cfg c).
  { apply run_regions_ok; [done.. |]. split; [constructor | by left]. }
  split; [apply Hok |]. by apply step_regions_ok.
Qed.

End RegionCursorProperties.

Section LocationProperties.

Variable P : Platform.
Variable cfg : Config.

Lemma find_first {A} (f : A -> bool) (l : list A) (x : A) :
  List.find f l = Some x ->
  exists k : nat, l !! k = Some x /\ f x = true /\
    forall (k' : nat) (y : A), (k' < k)%nat -> l !! k' = Some y -> f y = false.
Proof.
  induction l as [| a l IH]; [done |]. cbn [List.find].
  destruct (f a) eqn:Hfa.
  - intros [= ->]. exists O. repeat split; [done |]. intros k' y Hk'. lia.
  - intros Hfind. destruct (IH Hfind) as (k & Hk & Hfx & Hbefore).
    exists (S k). repeat split; [done.. |].
    intros [| k'] y Hlt; cbn; [by intros [= <-] |].
    apply Hbefore. lia.
Qed.

Lemma find_None_all {A} (f : A -> bool) (l : list A) :
  List.find f l = None -> forall y : A, y ∈ l -> f y = false.
Proof.
  intros Hfind y Hy. apply list_elem_of_In in Hy.
  by apply (List.find_none f l Hfind).
Qed.

Lemma find_by_key (l : list Region) (k : nat) (r : Region) :
  NoDup (r_id <$> l) -> l !! k = Some r ->
  List.find (fun r' => r_id r' =? r_id r) l = Some r.
Proof.
  revert k. induction l as [| a l IH]; intros k Hnd Hk; [done |].
  rewrite fmap_cons in Hnd. apply NoDup_cons in Hnd as [Hnotin Hnd].
  cbn [List.find]. destruct k as [| k]; cbn in Hk.
  - injection Hk as ->. by rewrite Z.eqb_refl.
  - destruct (Z.eqb_spec (r_id a) (r_id r)) as [Heq | Hne]; [| by apply (IH k)].
    destruct Hnotin. rewrite Heq. apply list_elem_of_fmap. exists r.
    split; [done |]. by eapply list_elem_of_lookup_2.
Qed.

(** X4. Where a pointer is: in every run of fewer than 2^64 - 1 calls from a
    new session, [get_location] answers with the first region, in creation
    order, whose mapping holds the pointer, and with the pointer's distance
    from the base of that mapping, which is within the size of the mapping;
    [get_region_data] maps the id back to that base, so base and offset add
    up to the pointer. It answers null exactly when no mapping holds the
    pointer. *)
Theorem get_location_round_trip (ops : list Op) (ptr : Z)
    (object_capacity type_capacity field_capacity : Z) :
  Z.of_nat (length ops) < 2 ^ 64 - 1 ->
  let c := run P cfg ops
             (initial_context cfg object_capacity type_capacity field_capacity) in
  match get_location ptr (regions c) with
  | Some (region_id, offset) =>
      exists (k : nat) (r : Region),
        regions_ (regions c) !! k = Some r /\ r_id r = region_id /\
        region_contains ptr r /\
        (forall (k' : nat) (r' : Region),
           (k' < k)%nat -> regions_ (regions c) !! k' = Some r' ->
           ~ region_contains ptr r') /\
        get_region_data region_id (regions c) = Some (r_base r) /\
        r_base r + offset = ptr /\
        0 <= offset < RegionDescriptor.size (r_descriptor r)
  | None =>
      forall r : Region, r ∈ regions_ (regions c) -> ~ region_contains ptr r
  end.
Proof.
  intros Hlen c.
  assert (Hinit : forall next ids, next = 1 -> ids = [] -> ids_ok P 1 next ids).
  { intros next ids -> ->. repeat split; [lia | lia | constructor | constructor | done..]. }
  destruct (run_ids_ok P cfg ops
              (initial_context cfg object_capacity type_capacity field_capacity) 1
              (Hinit _ _ eq_refl eq_refl) (Hinit _ _ eq_refl eq_refl) ltac:(lia))
    as [(_ & Hsorted & _) _].
  fold c in Hsorted. apply StronglySorted_lt_NoDup in Hsorted.
  unfold get_location, region_contains.
  destruct (List.find _ _) as [r|] eqn:Hfind; cbn [fmap option_fmap option_map].
  - apply find_first in Hfind as (k & Hk & Hin & Hbefore).
    apply andb_prop in Hin as [Hlo Hhi].
    apply Z.leb_le in Hlo. apply Z.ltb_lt in Hhi.
    exists k, r. repeat split; try done; try lia.
    + intros k' r' Hlt Hk' Hc. specialize (Hbefore k' r' Hlt Hk').
      apply andb_false_iff in Hbefore as [Hb | Hb];
        [apply Z.leb_gt in Hb | apply Z.ltb_ge in Hb]; lia.
    + unfold get_region_data. by rewrite (find_by_key _ k r).
  - intros r Hr Hc. pose proof (find_None_all _ _ Hfind r Hr) as Hb. cbn in Hb.
    apply andb_false_iff in Hb as [Hb | Hb];
      [apply Z.leb_gt in Hb | apply Z.ltb_ge in Hb]; lia.
Qed.

End LocationProperties.

Section CountProperties.

Variable P : Platform.
Variable cfg : Config.

Lemma pool_counts_with_header_sequence kind c :
  pool_counts kind (with_header TelemetryHeader.sequence_fetch_add c) = pool_counts kind c.
Proof. by destruct kind. Qed.

Lemma pool_counts_with_objects kind f c :
  pool_counts kind (with_objects f c) = pool_counts kind c.
Proof. done. Qed.

Lemma pool_counts_with_regions kind f c :
  pool_counts kind (with_regions f c) = pool_counts kind c.
Proof. done. Qed.

Lemma pool_counts_update_entry kind e f c :
  pool_counts kind (update_entry e f c) = pool_counts kind c.
Proof.
  destruct e as [i | k i]; [done |]. unfold pool_counts.
  cbn [update_entry with_metadata metadata header overflow_regions_]. f_equal.
  by rewrite fmap_alter_same.
Qed.

Lemma pool_counts_store_overflow_descriptor kind k f c r :
  overflow_regions_ (metadata c) !! k = Some r ->
  pool_counts kind (store_overflow_descriptor k f c) =
    <[S k := overflow_count kind
               (mkOverflowRegion (or_id r) (or_base r) (f (or_descriptor r))
                  (or_objects r))]> (pool_counts kind c).
Proof.
  intros Hk. unfold pool_counts.
  cbn [store_overflow_descriptor with_metadata metadata header overflow_regions_].
  rewrite insert_S_cons. f_equal.
  by rewrite (fmap_alter_lookup _ _ _ _ r).
Qed.

Lemma create_overflow_region_counts c r c' :
  create_overflow_region P cfg c = (r, c') ->
  match r with
  | None => forall kind, pool_counts kind c' = pool_counts kind c
  | Some (k, region) =>
      k = length (overflow_regions_ (metadata c)) /\
      overflow_regions_ (metadata c') !! k = Some region /\
      forall kind,
        pool_counts kind c' = pool_counts kind c ++ [fresh_count P cfg kind] /\
        overflow_count kind region = fresh_count P cfg kind
  end.
Proof.
  unfold create_overflow_region.
  cbn [metadata with_metadata mm_session_name_ overflow_regions_ next_overflow_id_].
  destruct (shm_create P _ _) as [base|]; intros [= <- <-]; [| done].
  destruct (overflow_regions_ (metadata c)) as [| r0 rs] eqn:Hrs.
  - split; [done |]. split; [by cbn; rewrite Hrs |]. intros kind. split; [| by destruct kind].
    unfold pool_counts. cbn. rewrite Hrs. by destruct kind.
  - cbn [metadata with_metadata with_header header header_objects overflow_regions_].
    unfold link_last_overflow. split; [done |]. split.
    + rewrite lookup_app_r; rewrite length_alter; [| done]. by rewrite Nat.sub_diag.
    + intros kind. split; [| by destruct kind]. unfold pool_counts.
      cbn [metadata with_metadata with_header header header_objects overflow_regions_].
      rewrite fmap_app, fmap_alter_same by (by destruct kind).
      rewrite Hrs. by destruct kind.
Qed.

Lemma pools_before_false kind c : pools_before P cfg false kind c = pool_counts kind c.
Proof. unfold pools_before. by rewrite app_nil_r. Qed.

Lemma length_pool_counts kind c :
  length (pool_counts kind c) = S (length (overflow_regions_ (metadata c))).
Proof. unfold pool_counts. cbn. by rewrite length_fmap. Qed.

(** The allocation in a new overflow region, for a store [f] of the new
    count [v] of the sub-pool of kind [kind]. *)
Lemma takes_in_new_overflow kind c k r0 c2 f v :
  create_overflow_region P cfg c = (Some (k, r0), c2) ->
  (forall kind' r,
     overflow_count kind'
       (mkOverflowRegion (or_id r) (or_base r) (f (or_descriptor r)) (or_objects r)) =
     if bool_decide (kind' = kind) then mkPoolCount (capacity_of (overflow_count kind' r)) v
     else overflow_count kind' r) ->
  takes P cfg kind true (InOverflow k 0) (fresh_count P cfg kind) v c
    (store_overflow_descriptor k f c2).
Proof.
  intros Hc Hf. apply create_overflow_region_counts in Hc as (-> & Hk & Hcounts).
  unfold takes, pools_before. cbn [pool_of index_of].
  repeat split.
  - rewrite lookup_app_r; rewrite length_pool_counts; [| done]. by rewrite Nat.sub_diag.
  - by rewrite length_pool_counts.
  - rewrite (pool_counts_store_overflow_descriptor _ _ _ _ r0) by done.
    rewrite Hf, bool_decide_true by done.
    destruct (Hcounts kind) as [-> ->]. done.
  - intros kind' Hne.
    rewrite (pool_counts_store_overflow_descriptor _ _ _ _ r0) by done.
    rewrite Hf, bool_decide_false by done.
    destruct (Hcounts kind') as [Hp Hr]. rewrite Hp. apply list_insert_id.
    rewrite <- Hp. unfold pool_counts. rewrite lookup_cons, list_lookup_fmap.
    by rewrite Hk.
Qed.

(** The allocation in the current overflow region. *)
Lemma takes_in_current_overflow kind c k region f v :
  current_overflow_region (metadata c) = Some (k, region) ->
  (forall kind' r,
     overflow_count kind'
       (mkOverflowRegion (or_id r) (or_base r) (f (or_descriptor r)) (or_objects r)) =
     if bool_decide (kind' = kind) then mkPoolCount (capacity_of (overflow_count kind' r)) v
     else overflow_count kind' r) ->
  takes P cfg kind false
    (InOverflow k (Z.to_nat (count_of (overflow_count kind region))))
    (overflow_count kind region) v c (store_overflow_descriptor k f c).
Proof.
  intros Hcur Hf. apply current_overflow_region_Some in Hcur.
  unfold takes. rewrite !pools_before_false. cbn [pool_of index_of].
  repeat split.
  - unfold pool_counts. by rewrite lookup_cons, list_lookup_fmap, Hcur.
  - done.
  - rewrite (pool_counts_store_overflow_descriptor _ _ _ _ region) by done.
    by rewrite Hf, bool_decide_true.
  - intros kind' Hne. rewrite pools_before_false.
    rewrite (pool_counts_store_overflow_descriptor _ _ _ _ region) by done.
    rewrite Hf, bool_decide_false by done. apply list_insert_id.
    unfold pool_counts. by rewrite lookup_cons, list_lookup_fmap, Hcur.
Qed.

Lemma store_object_entry_count_counts v kind' r :
  overflow_count kind'
    (mkOverflowRegion (or_id r) (or_base r)
       (MetadataOverflowDescriptor.store_object_entry_count v (or_descriptor r))
       (or_objects r)) =
  if bool_decide (kind' = ObjectEntries)
  then mkPoolCount (capacity_of (overflow_count kind' r)) v
  else overflow_count kind' r.
Proof. by destruct kind'. Qed.

Lemma store_type_entry_count_counts v kind' r :
  overflow_count kind'
    (mkOverflowRegion (or_id r) (or_base r)
       (MetadataOverflowDescriptor.store_type_entry_count v (or_descriptor r))
       (or_objects r)) =
  if bool_decide (kind' = TypeEntries)
  then mkPoolCount (capacity_of (overflow_count kind' r)) v
  else overflow_count kind' r.
Proof. by destruct kind'. Qed.

Lemma store_field_entry_count_counts v kind' r :
  overflow_count kind'
    (mkOverflowRegion (or_id r) (or_base r)
       (MetadataOverflowDescriptor.store_field_entry_count v (or_descriptor r))
       (or_objects r)) =
  if bool_decide (kind' = FieldEntries)
  then mkPoolCount (capacity_of (overflow_count kind' r)) v
  else overflow_count kind' r.
Proof. by destruct kind'. Qed.

(** The allocation in the header pool, for a store [f] of the new count. *)
Lemma takes_in_header kind c f v :
  (forall kind',
     header_count kind' (f (header c)) =
     if bool_decide (kind' = kind)
     then mkPoolCount (capacity_of (header_count kind' (header c))) v
     else header_count kind' (header c)) ->
  takes P cfg kind false
    (InHeader (Z.to_nat (count_of (header_count kind (header c)))))
    (header_count kind (header c)) v c (with_header f c).
Proof.
  intros Hf. unfold takes. rewrite !pools_before_false. cbn [pool_of index_of].
  repeat split; try done.
  - unfold pool_counts. cbn [with_header header metadata].
    by rewrite Hf, bool_decide_true.
  - intros kind' Hne. rewrite pools_before_false. unfold pool_counts.
    cbn [with_header header metadata]. by rewrite Hf, bool_decide_false.
Qed.

(** What [allocate_object_entry] does to the pools. *)
Lemma allocate_object_entry_counts c r c' :
  allocate_object_entry P cfg c = (r, c') ->
  match r with
  | Some e =>
      exists (grown : bool) (p : PoolCount),
        takes P cfg ObjectEntries grown e p (u32 (count_of p + 1)) c c' /\
        if grown then p = fresh_count P cfg ObjectEntries
        else count_of p < capacity_of p
  | None => forall kind, pool_counts kind c' = pool_counts kind c
  end.
Proof.
  unfold allocate_object_entry.
  destruct (_ <? _) eqn:Hh.
  { intros [= <- <-]. apply Z.ltb_lt in Hh.
    exists false, (header_count ObjectEntries (header c)). split; [| done].
    apply (takes_in_header ObjectEntries). by intros []. }
  apply Z.ltb_ge in Hh.
  assert (Hnew : forall k r0 c2,
    create_overflow_region P cfg c = (Some (k, r0), c2) ->
    exists (grown : bool) (p : PoolCount),
      takes P cfg ObjectEntries grown (InOverflow k 0) p (u32 (count_of p + 1)) c
        (store_overflow_descriptor k
           (MetadataOverflowDescriptor.store_object_entry_count 1) c2) /\
      if grown then p = fresh_count P cfg ObjectEntries
      else count_of p < capacity_of p).
  { intros k r0 c2 Hc. exists true, (fresh_count P cfg ObjectEntries). split; [| done].
    apply (takes_in_new_overflow ObjectEntries c k r0 c2 _ _ Hc).
    apply store_object_entry_count_counts. }
  destruct (current_overflow_region (metadata c)) as [[k region]|] eqn:Hcur.
  - destruct (_ <? _) eqn:Ho.
    + intros [= <- <-]. apply Z.ltb_lt in Ho.
      exists false, (overflow_count ObjectEntries region). split; [| done].
      apply (takes_in_current_overflow ObjectEntries c k region _ _ Hcur).
      apply store_object_entry_count_counts.
    + destruct (create_overflow_region P cfg c) as [[[k' r0]|] c2] eqn:Hc;
        intros [= <- <-]; [by apply (Hnew k' r0) |].
      by apply create_overflow_region_counts in Hc.
  - destruct (create_overflow_region P cfg c) as [[[k' r0]|] c2] eqn:Hc;
      intros [= <- <-]; [by apply (Hnew k' r0) |].
    by apply create_overflow_region_counts in Hc.
Qed.

(** What [allocate_type_entry] does to the pools. *)
Lemma allocate_type_entry_counts c r c' :
  allocate_type_entry P cfg c = (r, c') ->
  match r with
  | Some e =>
      exists (grown : bool) (p : PoolCount),
        takes P cfg TypeEntries grown e p (u32 (count_of p + 1)) c c' /\
        if grown then p = fresh_count P cfg TypeEntries
        else count_of p < capacity_of p
  | None => forall kind, pool_counts kind c' = pool_counts kind c
  end.
Proof.
  unfold allocate_type_entry.
  destruct (_ <? _) eqn:Hh.
  { intros [= <- <-]. apply Z.ltb_lt in Hh.
    exists false, (header_count TypeEntries (header c)). split; [| done].
    apply (takes_in_header TypeEntries). by intros []. }
  apply Z.ltb_ge in Hh.
  assert (Hnew : forall k r0 c2,
    create_overflow_region P cfg c = (Some (k, r0), c2) ->
    exists (grown : bool) (p : PoolCount),
      takes P cfg TypeEntries grown (InOverflow k 0) p (u32 (count_of p + 1)) c
        (store_overflow_descriptor k
           (MetadataOverflowDescriptor.store_type_entry_count 1) c2) /\
      if grown then p = fresh_count P cfg TypeEntries
      else count_of p < capacity_of p).
  { intros k r0 c2 Hc. exists true, (fresh_count P cfg TypeEntries). split; [| done].
    apply (takes_in_new_overflow TypeEntries c k r0 c2 _ _ Hc).
    apply store_type_entry_count_counts. }
  destruct (current_overflow_region (metadata c)) as [[k region]|] eqn:Hcur.
  - destruct (_ <? _) eqn:Ho.
    + intros [= <- <-]. apply Z.ltb_lt in Ho.
      exists false, (overflow_count TypeEntries region). split; [| done].
      apply (takes_in_current_overflow TypeEntries c k region _ _ Hcur).
      apply store_type_entry_count_counts.
    + destruct (create_overflow_region P cfg c) as [[[k' r0]|] c2] eqn:Hc;
        intros [= <- <-]; [by apply (Hnew k' r0) |].
      by apply create_overflow_region_counts in Hc.
  - destruct (create_overflow_region P cfg c) as [[[k' r0]|] c2] eqn:Hc;
      intros [= <- <-]; [by apply (Hnew k' r0) |].
    by apply create_overflow_region_counts in Hc.
Qed.

(** What [allocate_field_entries] does to the pools. A request that no pool
    of the session can take and that is larger than the field sub-pool of an
    overflow region returns null after the new overflow region has been
    created. *)
Lemma allocate_field_entries_counts n c r c' :
  allocate_field_entries P cfg n c = (r, c') ->
  match r with
  | Some e =>
      n <> 0 /\
      exists (grown : bool) (p : PoolCount),
        takes P cfg FieldEntries grown e p
          (if grown then n else u32 (count_of p + n)) c c' /\
        if grown then p = fresh_count P cfg FieldEntries /\ n <= capacity_of p
        else u32 (count_of p + n) <= capacity_of p
  | None =>
      (n = 0 /\ c' = c) \/
      (n <> 0 /\ forall kind, pool_counts kind c' = pool_counts kind c) \/
      (overflow_capacity P cfg FieldEntries < n /\
       forall kind, pool_counts kind c' = pool_counts kind c ++ [fresh_count P cfg kind])
  end.
Proof.
  unfold allocate_field_entries.
  destruct (Z.eqb_spec n 0) as [-> | Hn]; [intros [= <- <-]; by left |].
  destruct (_ <=? _) eqn:Hh.
  { intros [= <- <-]. apply Z.leb_le in Hh. split; [done |].
    exists false, (header_count FieldEntries (header c)). split; [| done].
    apply (takes_in_header FieldEntries). by intros []. }
  apply Z.leb_gt in Hh.
  revert r c'.
  assert (Hnew : forall r c',
    match create_overflow_region P cfg c with
    | (None, c) => (None, c)
    | (Some (k, region), c) =>
        if MetadataOverflowDescriptor.field_entry_capacity (or_descriptor region) <? n
        then (None, c)
        else (Some (InOverflow k 0),
              store_overflow_descriptor k
                (MetadataOverflowDescriptor.store_field_entry_count n) c)
    end = (r, c') ->
    match r with
    | Some e =>
        n <> 0 /\
        exists (grown : bool) (p : PoolCount),
          takes P cfg FieldEntries grown e p
            (if grown then n else u32 (count_of p + n)) c c' /\
          if grown then p = fresh_count P cfg FieldEntries /\ n <= capacity_of p
          else u32 (count_of p + n) <= capacity_of p
    | None =>
        (n = 0 /\ c' = c) \/
        (n <> 0 /\ forall kind, pool_counts kind c' = pool_counts kind c) \/
        (overflow_capacity P cfg FieldEntries < n /\
         forall kind, pool_counts kind c' = pool_counts kind c ++ [fresh_count P cfg kind])
    end).
  { intros r c'.
    destruct (create_overflow_region P cfg c) as [[[k' r0]|] c2] eqn:Hc.
    - pose proof (create_overflow_region_counts _ _ _ Hc) as (_ & _ & Hcounts).
      destruct (Hcounts FieldEntries) as [_ Hr0].
      apply (f_equal capacity_of) in Hr0. cbn in Hr0. rewrite Hr0.
      destruct (Z.ltb_spec (overflow_field_capacity P cfg) n) as [Hbig | Hfit];
        intros [= <- <-].
      + right. right. split; [done |]. intros kind. by destruct (Hcounts kind).
      + split; [done |]. exists true, (fresh_count P cfg FieldEntries).
        split; [| done].
        apply (takes_in_new_overflow FieldEntries c k' r0 c2 _ _ Hc).
        apply store_field_entry_count_counts.
    - intros [= <- <-]. right. left. split; [done |].
      by apply create_overflow_region_counts in Hc. }
  intros r c'.
  destruct (current_overflow_region (metadata c)) as [[k region]|] eqn:Hcur;
    [| apply Hnew].
  destruct (_ <=? _) eqn:Ho; [| apply Hnew].
  intros [= <- <-]. apply Z.leb_le in Ho. split; [done |].
  exists false, (overflow_count FieldEntries region). split; [| done].
  apply (takes_in_current_overflow FieldEntries c k region _ _ Hcur).
  apply store_field_entry_count_counts.
Qed.

(** [register_object] moves the pools as its call of [allocate_object_entry]
    does. *)
Lemma register_object_counts ptr type_id label c r c' :
  register_object P cfg ptr type_id label c = (r, c') ->
  match r with
  | Some e =>
      exists (grown : bool) (p : PoolCount),
        takes P cfg ObjectEntries grown e p (u32 (count_of p + 1)) c c' /\
        if grown then p = fresh_count P cfg ObjectEntries
        else count_of p < capacity_of p
  | None => forall kind, pool_counts kind c' = pool_counts kind c
  end.
Proof.
  unfold register_object.
  destruct (get_location _ _) as [[region_id offset]|]; [| by intros [= <- <-]].
  destruct (allocate_object_entry P cfg c) as [[e|] c1] eqn:Ha;
    rewrite ?register_stores_fold; intros [= <- <-];
    apply allocate_object_entry_counts in Ha; [| done].
  destruct Ha as (grown & p & (Hp & Hidx & Hgrown & Hsame & Hother) & Hroom).
  exists grown, p. split; [| done]. unfold takes.
  rewrite pool_counts_with_objects, pool_counts_with_header_sequence,
    pool_counts_update_entry.
  repeat split; try done. intros kind' Hne.
  rewrite pool_counts_with_objects, pool_counts_with_header_sequence,
    pool_counts_update_entry. by apply Hother.
Qed.

Lemma destroy_object_counts kind ptr c :
  pool_counts kind (destroy_object ptr c) = pool_counts kind c.
Proof.
  unfold destroy_object. destruct (ptr_to_entry_ (objects c) !! ptr) as [e|]; [| done].
  by rewrite pool_counts_with_objects, pool_counts_with_header_sequence,
    pool_counts_update_entry.
Qed.

Lemma allocate_counts kind size alignment c :
  pool_counts kind (snd (allocate P cfg size alignment c)) = pool_counts kind c.
Proof.
  unfold allocate. destruct (current_region _) as [[k region]|]; [| done].
  destruct (_ <? _); [| done].
  destruct (create_region P _ _) as [[[k' r]|] rm]; [| done].
  cbn [snd]. by rewrite pool_counts_with_regions, pool_counts_with_header_sequence.
Qed.

Lemma RegionManager_init_counts kind session_name initial_size c :
  pool_counts kind (snd (RegionManager_init P session_name initial_size c)) =
  pool_counts kind c.
Proof.
  unfold RegionManager_init.
  destruct (create_region P _ _) as [[[k' r]|] rm]; [| done]. by destruct kind.
Qed.

Lemma fresh_count_within kind : count_within (fresh_count P cfg kind).
Proof.
  unfold count_within, fresh_count. cbn [count_of capacity_of].
  assert (0 <= overflow_capacity P cfg kind < 2 ^ 32) by (destruct kind; apply u32_range).
  lia.
Qed.

Lemma pools_before_ok grown kind c :
  counts_ok c -> Forall count_within (pools_before P cfg grown kind c).
Proof.
  intros Hok. unfold pools_before. apply Forall_app. split; [apply Hok |].
  destruct grown; [| constructor]. constructor; [apply fresh_count_within | done].
Qed.

Lemma takes_counts_ok kind grown e p v c c' :
  takes P cfg kind grown e p v c c' -> counts_ok c ->
  (count_within p -> 0 <= v <= capacity_of p) ->
  counts_ok c'.
Proof.
  intros (Hp & _ & _ & Hsame & Hother) Hok Hv kind'.
  destruct (decide (kind' = kind)) as [-> | Hne].
  - rewrite Hsame. pose proof (pools_before_ok grown kind c Hok) as Hall.
    apply Forall_insert; [done |].
    pose proof (Forall_lookup_1 _ _ _ _ Hall Hp) as Hw.
    specialize (Hv Hw). destruct Hw as [_ Hcap]. split; cbn; lia.
  - rewrite (Hother kind' Hne). by apply pools_before_ok.
Qed.

Lemma same_counts_ok c c' :
  (forall kind, pool_counts kind c' = pool_counts kind c) -> counts_ok c -> counts_ok c'.
Proof. intros Hsame Hok kind. rewrite Hsame. apply Hok. Qed.

Lemma step_counts_ok (op : Op) (c : Context) :
  typed op ->
  1 <= overflow_object_capacity P cfg ->
  1 <= overflow_type_capacity P cfg ->
  counts_ok c -> counts_ok (step P cfg op c).
Proof.
  intros Hop Hocap Htcap Hok.
  assert (Hone : forall kind grown p,
    (kind = ObjectEntries \/ kind = TypeEntries) ->
    (if grown : bool then p = fresh_count P cfg kind else count_of p < capacity_of p) ->
    count_within p -> 0 <= u32 (count_of p + 1) <= capacity_of p).
  { intros kind grown p Hkind Hroom [Hc Hcap]. destruct grown.
    - subst p. cbn [count_of capacity_of fresh_count] in *.
      rewrite u32_small by lia. destruct Hkind as [-> | ->]; cbn; lia.
    - rewrite u32_small by lia. lia. }
  destruct op as [s n | s | size alignment | | | n | ptr type_id label | ptr];
    cbn [step].
  - eapply same_counts_ok; [| done]. intros kind. apply RegionManager_init_counts.
  - done.
  - eapply same_counts_ok; [| done]. intros kind. apply allocate_counts.
  - destruct (allocate_object_entry P cfg c) as [[e|] c'] eqn:Ha;
      apply allocate_object_entry_counts in Ha; cbn [snd];
      [| by eapply same_counts_ok].
    destruct Ha as (grown & p & Htakes & Hroom).
    eapply takes_counts_ok; [done.. |]. apply (Hone ObjectEntries grown); auto.
  - destruct (allocate_type_entry P cfg c) as [[e|] c'] eqn:Ha;
      apply allocate_type_entry_counts in Ha; cbn [snd];
      [| by eapply same_counts_ok].
    destruct Ha as (grown & p & Htakes & Hroom).
    eapply takes_counts_ok; [done.. |]. apply (Hone TypeEntries grown); auto.
  - destruct (allocate_field_entries P cfg n c) as [[e|] c'] eqn:Ha;
      apply allocate_field_entries_counts in Ha; cbn [snd].
    + destruct Ha as (Hn & grown & p & Htakes & Hroom).
      eapply takes_counts_ok; [done.. |]. intros [Hc Hcap]. cbn in Hop.
      destruct grown; [lia |]. pose proof (u32_range (count_of p + n)). lia.
    + destruct Ha as [[_ ->] | [[_ Hsame] | [_ Hgrown]]];
        [done | by eapply same_counts_ok |].
      intros kind. rewrite Hgrown. by apply (pools_before_ok true).
  - destruct (register_object P cfg ptr type_id label c) as [[e|] c'] eqn:Ha;
      apply register_object_counts in Ha; cbn [snd];
      [| by eapply same_counts_ok].
    destruct Ha as (grown & p & Htakes & Hroom).
    eapply takes_counts_ok; [done.. |]. apply (Hone ObjectEntries grown); auto.
  - eapply same_counts_ok; [| done]. intros kind. apply destroy_object_counts.
Qed.

Lemma run_counts_ok (ops : list Op) (c : Context) :
  Forall typed ops ->
  1 <= overflow_object_capacity P cfg ->
  1 <= overflow_type_capacity P cfg ->
  counts_ok c -> counts_ok (run P cfg ops c).
Proof.
  intros Hops Hocap Htcap. revert c.
  induction Hops as [| op ops Hop Hops IH]; intros c Hok; [done |].
  cbn [run foldl]. apply IH. by apply step_counts_ok.
Qed.

Lemma initial_context_counts_ok object_capacity type_capacity field_capacity :
  0 <= object_capacity < 2 ^ 32 ->
  0 <= type_capacity < 2 ^ 32 ->
  0 <= field_capacity < 2 ^ 32 ->
  counts_ok (initial_context cfg object_capacity type_capacity field_capacity).
Proof.
  intros Ho Ht Hf kind. constructor; [| constructor].
  unfold count_within. destruct kind; cbn; lia.
Qed.

(** X5. The counts never leave their pools: in every run from a new session
    whose overflow regions have room for at least one object entry and one
    type entry, and whose requests for field entries are 32-bit values, the
    count of every pool of the header and of every overflow region (objects,
    types and fields) stays between 0 and the capacity of the pool. *)
Theorem counts_stay_within_capacity
    (ops : list Op) (object_capacity type_capacity field_capacity : Z) :
  0 <= object_capacity < 2 ^ 32 ->
  0 <= type_capacity < 2 ^ 32 ->
  0 <= field_capacity < 2 ^ 32 ->
  1 <= overflow_object_capacity P cfg ->
  1 <= overflow_type_capacity P cfg ->
  Forall typed ops ->
  let c := run P cfg ops
             (initial_context cfg object_capacity type_capacity field_capacity) in
  forall (kind : EntryKind) (p : PoolCount),
    p ∈ pool_counts kind c -> 0 <= count_of p <= capacity_of p.
Proof.
  intros Ho Ht Hf Hocap Htcap Hops c kind p Hp.
  assert (Hok : counts_ok c).
  { apply run_counts_ok; [done.. |]. by apply initial_context_counts_ok. }
  specialize (Hok kind). rewrite Forall_forall in Hok. by destruct (Hok p Hp).
Qed.

End CountProperties.

Section TotalProperties.

Variable P : Platform.
Variable cfg : Config.

Lemma u32_add_l (a b : Z) : u32 (u32 a + b) = u32 (a + b).
Proof. unfold u32. by rewrite Zplus_mod_idemp_l. Qed.

Lemma u32_add_r (a b : Z) : u32 (a + u32 b) = u32 (a + b).
Proof. unfold u32. by rewrite Zplus_mod_idemp_r. Qed.

Lemma foldl_u32_counts (a : Z) (ps : list PoolCount) :
  u32 (foldl (fun total q => u32 (total + count_of q)) a ps) = u32 (a + sum_counts ps).
Proof.
  revert a. induction ps as [| p ps IH]; intros a; cbn [foldl sum_counts foldr].
  - by rewrite Z.add_0_r.
  - rewrite IH, u32_add_l. f_equal. fold (sum_counts ps). lia.
Qed.

Lemma u32_idemp (a : Z) : u32 (u32 a) = u32 a.
Proof. unfold u32. by rewrite Zmod_mod. Qed.

Lemma total_of_spec (p : PoolCount) (ps : list PoolCount) :
  0 <= count_of p < 2 ^ 32 -> total_of (p :: ps) = u32 (sum_counts (p :: ps)).
Proof.
  intros Hp. cbn [total_of]. destruct ps as [| q ps] using rev_ind.
  - cbn. by rewrite Z.add_0_r, u32_small.
  - rewrite foldl_app. cbn [foldl].
    rewrite <- (u32_add_l (foldl _ _ _)), foldl_u32_counts, u32_add_l.
    f_equal. unfold sum_counts. cbn [foldr]. rewrite foldr_app. cbn [foldr].
    clear. induction ps as [| r ps IH]; cbn [foldr]; [lia |].
    rewrite <- Z.add_assoc. change (foldr _ (count_of q + 0) ps)
      with (foldr (fun q s => count_of q + s) (count_of q + 0) ps).
    lia.
Qed.

Lemma sum_counts_cons (p : PoolCount) (l : list PoolCount) :
  sum_counts (p :: l) = count_of p + sum_counts l.
Proof. done. Qed.

Lemma sum_counts_app (l l' : list PoolCount) :
  sum_counts (l ++ l') = sum_counts l + sum_counts l'.
Proof.
  induction l as [| p l IH]; [done |].
  rewrite <- app_comm_cons, !sum_counts_cons, IH. lia.
Qed.

Lemma sum_counts_insert (l : list PoolCount) (i : nat) (p q : PoolCount) :
  l !! i = Some p ->
  sum_counts (<[i := q]> l) = sum_counts l - count_of p + count_of q.
Proof.
  revert i. induction l as [| a l IH]; intros [| i] Hi; cbn in Hi; [done.. | |].
  - injection Hi as ->. cbn [insert list_insert]. rewrite !sum_counts_cons. lia.
  - rewrite insert_S_cons, !sum_counts_cons, (IH i Hi). lia.
Qed.

Lemma total_of_insert (h : PoolCount) (rest : list PoolCount) (i : nat)
    (p q : PoolCount) :
  (h :: rest) !! i = Some p ->
  0 <= count_of h < 2 ^ 32 ->
  (i = O -> 0 <= count_of q < 2 ^ 32) ->
  total_of (<[i := q]> (h :: rest)) =
    u32 (sum_counts (h :: rest) - count_of p + count_of q).
Proof.
  intros Hi Hh Hq. rewrite <- (sum_counts_insert _ i p q Hi).
  destruct i as [| i]; cbn [insert list_insert]; apply total_of_spec; auto.
Qed.

Lemma total_object_count_pools c :
  total_object_count c = total_of (pool_counts ObjectEntries c).
Proof.
  unfold total_object_count, pool_counts, total_of. cbn [header_count count_of].
  generalize (TelemetryHeader.object_count (header c)).
  induction (overflow_regions_ (metadata c)) as [| r rs IH]; intros a; [done |].
  cbn [foldl fmap list_fmap]. apply IH.
Qed.

Lemma total_type_count_pools c :
  total_type_count c = total_of (pool_counts TypeEntries c).
Proof.
  unfold total_type_count, pool_counts, total_of. cbn [header_count count_of].
  generalize (TelemetryHeader.type_count (header c)).
  induction (overflow_regions_ (metadata c)) as [| r rs IH]; intros a; [done |].
  cbn [foldl fmap list_fmap]. apply IH.
Qed.

Lemma total_field_count_pools c :
  total_field_count c = total_of (pool_counts FieldEntries c).
Proof.
  unfold total_field_count, pool_counts, total_of. cbn [header_count count_of].
  generalize (TelemetryHeader.field_count (header c)).
  induction (overflow_regions_ (metadata c)) as [| r rs IH]; intros a; [done |].
  cbn [foldl fmap list_fmap]. apply IH.
Qed.

(** The header counts are 32-bit values. *)
Lemma total_of_pools_before grown kind c :
  0 <= count_of (header_count kind (header c)) < 2 ^ 32 ->
  total_of (pools_before P cfg grown kind c) = total_of (pool_counts kind c).
Proof.
  intros Hh. unfold pools_before, pool_counts. rewrite <- app_comm_cons.
  rewrite !total_of_spec by done. rewrite !app_comm_cons, sum_counts_app.
  destruct grown; cbn; f_equal; lia.
Qed.

Lemma takes_totals kind grown e p v n c c' :
  (forall kind, 0 <= count_of (header_count kind (header c)) < 2 ^ 32) ->
  takes P cfg kind grown e p v c c' ->
  v = u32 (count_of p + n) \/ (grown = true /\ count_of p = 0 /\ v = n) ->
  total_of (pool_counts kind c') = u32 (total_of (pool_counts kind c) + n) /\
  forall kind', kind' <> kind ->
    total_of (pool_counts kind' c') = total_of (pool_counts kind' c).
Proof.
  intros Hh (Hp & _ & Hgrown & Hsame & Hother) Hv. split.
  - rewrite Hsame. rewrite <- (total_of_pools_before grown kind c) by done.
    assert (Hpb : pools_before P cfg grown kind c =
                  header_count kind (header c) ::
                  ((overflow_count kind <$> overflow_regions_ (metadata c)) ++
                   (if grown then [fresh_count P cfg kind] else []))) by done.
    rewrite Hpb in Hp |- *.
    rewrite (total_of_insert _ _ _ p) by first
      [ done
      | intros Hi; cbn [count_of]; destruct Hv as [-> | (Hg & _)];
        [ apply u32_range
        | specialize (Hgrown Hg); rewrite Hi, length_pool_counts in Hgrown; lia ] ].
    rewrite total_of_spec by done. rewrite u32_add_l. cbn [count_of].
    destruct Hv as [-> | (_ & Hc & ->)].
    + rewrite u32_add_r. f_equal. lia.
    + f_equal. lia.
  - intros kind' Hne. rewrite (Hother kind' Hne). by apply total_of_pools_before.
Qed.

(** X6. The totals follow the allocations: when the three header counts are
    32-bit values, a successful [allocate_object_entry], [allocate_type_entry]
    or [register_object] takes the total of its kind up by one and a
    successful [allocate_field_entries] of [n] entries takes the total of the
    field entries up by [n] (in 32-bit arithmetic), whichever pool served the
    call, and leaves the other two totals as they were; [destroy_object]
    changes no total: an entry is never given back. *)
Theorem totals_follow_allocations (c : Context) :
  0 <= TelemetryHeader.object_count (header c) < 2 ^ 32 ->
  0 <= TelemetryHeader.type_count (header c) < 2 ^ 32 ->
  0 <= TelemetryHeader.field_count (header c) < 2 ^ 32 ->
  (forall e c',
     allocate_object_entry P cfg c = (Some e, c') ->
     total_object_count c' = u32 (total_object_count c + 1) /\
     total_type_count c' = total_type_count c /\
     total_field_count c' = total_field_count c) /\
  (forall e c',
     allocate_type_entry P cfg c = (Some e, c') ->
     total_object_count c' = total_object_count c /\
     total_type_count c' = u32 (total_type_count c + 1) /\
     total_field_count c' = total_field_count c) /\
  (forall n e c',
     allocate_field_entries P cfg n c = (Some e, c') ->
     total_object_count c' = total_object_count c /\
     total_type_count c' = total_type_count c /\
     total_field_count c' = u32 (total_field_count c + n)) /\
  (forall ptr type_id label e c',
     register_object P cfg ptr type_id label c = (Some e, c') ->
     total_object_count c' = u32 (total_object_count c + 1) /\
     total_type_count c' = total_type_count c /\
     total_field_count c' = total_field_count c) /\
  (forall ptr,
     total_object_count (destroy_object ptr c) = total_object_count c /\
     total_type_count (destroy_object ptr c) = total_type_count c /\
     total_field_count (destroy_object ptr c) = total_field_count c).
Proof.
  intros Ho Ht Hf.
  assert (Hh : forall kind, 0 <= count_of (header_count kind (header c)) < 2 ^ 32)
    by (by intros []).
  rewrite !total_object_count_pools, !total_type_count_pools, !total_field_count_pools.
  repeat split.
  all: try (rewrite ?total_object_count_pools, ?total_type_count_pools,
              ?total_field_count_pools, ?destroy_object_counts; reflexivity).
  all: rewrite ?total_object_count_pools, ?total_type_count_pools,
         ?total_field_count_pools.
  all: match goal with
       | H : allocate_object_entry _ _ _ = _ |- _ =>
           apply allocate_object_entry_counts in H as (grown & p & Htakes & Hroom)
       | H : allocate_type_entry _ _ _ = _ |- _ =>
           apply allocate_type_entry_counts in H as (grown & p & Htakes & Hroom)
       | H : allocate_field_entries _ _ _ _ = _ |- _ =>
           apply allocate_field_entries_counts in H as (_ & grown & p & Htakes & Hroom)
       | H : register_object _ _ _ _ _ _ = _ |- _ =>
           apply register_object_counts in H as (grown & p & Htakes & Hroom)
       end.
  all: match goal with
       | Htakes : takes _ _ _ _ _ _ (u32 (_ + 1)) _ _ |- _ =>
           apply (takes_totals _ _ _ _ _ 1 _ _ Hh) in Htakes as [Hsame Hother];
             [| by left]
       | Htakes : takes _ _ _ _ _ _ _ _ _ |- _ =>
           apply (takes_totals _ _ _ _ _ n _ _ Hh) in Htakes as [Hsame Hother];
             [| destruct grown; [right; by destruct Hroom as [-> _] | by left]]
       end.
  all: first [exact Hsame | by apply Hother].
Qed.

End TotalProperties.

Section NewOverflowRegionProperties.

Variable P : Platform.
Variable cfg : Config.

(** A successful allocation that added an overflow region was served from
    the sub-pool of that region. *)
Lemma takes_grown kind grown e p v c c' :
  takes P cfg kind grown e p v c c' ->
  length (overflow_regions_ (metadata c')) <> length (overflow_regions_ (metadata c)) ->
  grown = true /\ p = fresh_count P cfg kind /\
  e = InOverflow (length (overflow_regions_ (metadata c))) 0 /\
  pool_counts kind c' !! pool_of e = Some (mkPoolCount (overflow_capacity P cfg kind) v).
Proof.
  intros (Hp & Hidx & Hgrown & Hsame & _) Hlen.
  pose proof (f_equal length Hsame) as Hl.
  rewrite length_insert in Hl. unfold pools_before in Hl, Hp.
  rewrite length_app, !length_pool_counts in Hl.
  destruct grown; [| cbn in Hl; lia]. specialize (Hgrown eq_refl).
  rewrite lookup_app_r in Hp by lia. rewrite Hgrown, Nat.sub_diag in Hp.
  injection Hp as <-. rewrite length_pool_counts in Hgrown.
  split; [done |]. split; [done |]. split.
  - destruct e as [i | k i]; cbn in Hgrown, Hidx; [done |]. by simplify_eq.
  - rewrite Hsame. apply list_lookup_insert_eq. rewrite Hgrown.
    unfold pools_before. rewrite length_app, length_pool_counts. cbn. lia.
Qed.

(** X7. The first entry of a new overflow region: a metadata allocator that
    creates an overflow region serves the call from slot 0 of the new
    region. [allocate_field_entries] does so only when the request is within
    the capacity of the new field sub-pool; [allocate_object_entry] and
    [allocate_type_entry] store the count 1 without looking at the capacity,
    so that with a configuration whose overflow regions have no room for an
    object entry the slot handed out lies outside the (empty) sub-pool. *)
Theorem new_overflow_region_serves_first_slot (c : Context) :
  let k := length (overflow_regions_ (metadata c)) in
  let created c' := length (overflow_regions_ (metadata c')) <> k in
  (forall e c',
     allocate_object_entry P cfg c = (Some e, c') -> created c' ->
     e = InOverflow k 0 /\
     pool_counts ObjectEntries c' !! S k =
       Some (mkPoolCount (overflow_object_capacity P cfg) 1) /\
     (overflow_object_capacity P cfg = 0 -> entry_at e c' = None)) /\
  (forall e c',
     allocate_type_entry P cfg c = (Some e, c') -> created c' ->
     e = InOverflow k 0 /\
     pool_counts TypeEntries c' !! S k =
       Some (mkPoolCount (overflow_type_capacity P cfg) 1)) /\
  (forall n e c',
     allocate_field_entries P cfg n c = (Some e, c') -> created c' ->
     e = InOverflow k 0 /\
     pool_counts FieldEntries c' !! S k =
       Some (mkPoolCount (overflow_field_capacity P cfg) n) /\
     n <= overflow_field_capacity P cfg).
Proof.
  intros k created. subst created. cbn beta. split; [| split].
  - intros e c' Ha Hlen.
    pose proof (allocate_object_entry_pools P cfg c e c' ObjectEntry.fresh Ha)
      as (pools0 & q & Hcase & Hq & _ & Hpools & _).
    apply allocate_object_entry_counts in Ha as (grown & p & Htakes & Hroom).
    destruct (takes_grown _ _ _ _ _ _ _ Htakes Hlen) as (-> & -> & -> & Hp).
    split; [done |]. split; [exact Hp |]. intros Hcap.
    rewrite entry_at_pools, Hpools. cbn [pool_of index_of] in *.
    destruct Hcase as [[-> _] | [-> ->]].
    + apply lookup_lt_Some in Hq. unfold object_pools in Hq. cbn in Hq.
      rewrite length_fmap in Hq. fold k in Hq. lia.
    + rewrite list_lookup_insert_eq by (by eapply lookup_lt_Some).
      cbn. by rewrite Hcap.
  - intros e c' Ha Hlen.
    apply allocate_type_entry_counts in Ha as (grown & p & Htakes & Hroom).
    by destruct (takes_grown _ _ _ _ _ _ _ Htakes Hlen) as (-> & -> & -> & Hp).
  - intros n e c' Ha Hlen.
    apply allocate_field_entries_counts in Ha as (_ & grown & p & Htakes & Hroom).
    destruct (takes_grown _ _ _ _ _ _ _ Htakes Hlen) as (-> & -> & -> & Hp).
    by destruct Hroom as [_ Hroom].
Qed.

End NewOverflowRegionProperties.

Section FieldEntryProperties.

Variable P : Platform.
Variable cfg : Config.

(** X8. A run of field entries: when no count of a field pool wraps around
    32 bits with [n] more entries, a successful [allocate_field_entries] of
    [n] entries returns the first free slot of a pool, moves the count of
    that pool [n] slots on and keeps it within the capacity, so the [n]
    entries are contiguous, were free before the call and lie inside the
    pool; the pool is one of the session or, when the returned slot is the
    first of a pool that did not exist, the field sub-pool of a new overflow
    region; the counts of the other field pools are not changed. *)
Theorem allocate_field_entries_contiguous (n : Z) (e : SlotRef) (c c' : Context) :
  0 < n ->
  Forall (fun p => 0 <= count_of p /\ count_of p + n < 2 ^ 32)
         (pool_counts FieldEntries c) ->
  allocate_field_entries P cfg n c = (Some e, c') ->
  exists p' : PoolCount,
    pool_counts FieldEntries c' !! pool_of e = Some p' /\
    count_of p' = Z.of_nat (index_of e) + n /\
    count_of p' <= capacity_of p' /\
    match pool_counts FieldEntries c !! pool_of e with
    | Some p => count_of p = Z.of_nat (index_of e) /\ capacity_of p = capacity_of p'
    | None => index_of e = O /\ pool_of e = length (pool_counts FieldEntries c)
    end /\
    forall (i : nat) (p : PoolCount),
      i <> pool_of e -> pool_counts FieldEntries c !! i = Some p ->
      pool_counts FieldEntries c' !! i = Some p.
Proof.
  intros Hn Hall Ha.
  apply allocate_field_entries_counts in Ha
    as (_ & grown & p & (Hp & Hidx & Hgrown & Hsame & _) & Hroom).
  exists (mkPoolCount (capacity_of p) (if grown then n else u32 (count_of p + n))).
  assert (Hlt : (pool_of e < length (pools_before P cfg grown FieldEntries c))%nat)
    by (by eapply lookup_lt_Some).
  split; [rewrite Hsame; by apply list_lookup_insert_eq |].
  cbn [count_of capacity_of]. destruct grown.
  - destruct Hroom as [-> Hroom]. specialize (Hgrown eq_refl).
    cbn [count_of capacity_of fresh_count] in *. rewrite Hidx.
    split; [lia |]. split; [lia |]. split.
    + rewrite Hgrown. by rewrite lookup_ge_None_2.
    + intros i q Hi Hq. rewrite Hsame, list_lookup_insert_ne by done.
      unfold pools_before. by apply lookup_app_l_Some.
  - rewrite pools_before_false in *.
    pose proof (Forall_lookup_1 _ _ _ _ Hall Hp) as [Hp0 Hp32]. cbn beta in *.
    rewrite (u32_small (count_of p + n)) in Hroom |- * by lia. rewrite Hp, Hidx.
    split; [lia |]. split; [lia |]. split; [split; [lia | done] |].
    intros i q Hi Hq. by rewrite Hsame, list_lookup_insert_ne.
Qed.

(** X9. The 32-bit sum of the header check wraps: when the field count of
    the header plus the request passes 2^32 and the wrapped sum is within the
    capacity, [allocate_field_entries] serves the request from the header
    pool and stores the wrapped sum, so the count goes backwards and the
    entries handed out are not within the count. *)
Theorem allocate_field_entries_wraps (n : Z) (c : Context) :
  let current := TelemetryHeader.field_count (header c) in
  0 <= current < 2 ^ 32 -> 0 < n < 2 ^ 32 ->
  2 ^ 32 <= current + n ->
  current + n - 2 ^ 32 <= TelemetryHeader.field_entries_capacity (header c) ->
  allocate_field_entries P cfg n c =
    (Some (InHeader (Z.to_nat current)),
     with_header (TelemetryHeader.store_field_count (current + n - 2 ^ 32)) c) /\
  current + n - 2 ^ 32 < current.
Proof.
  intros current Hcur Hn Hwrap Hcap. split; [| lia].
  unfold allocate_field_entries. fold current.
  destruct (Z.eqb_spec n 0) as [-> | _]; [lia |].
  assert (Hu : u32 (current + n) = current + n - 2 ^ 32).
  { unfold u32. symmetry. apply (Z.mod_unique_pos _ _ 1); lia. }
  rewrite Hu. by destruct (Z.leb_spec (current + n - 2 ^ 32)
                  (TelemetryHeader.field_entries_capacity (header c))); [| lia].
Qed.

(** X10. A request for more field entries than the field sub-pool of an
    overflow region holds: when neither the header pool nor the current
    overflow region can take it and the system grants the mapping,
    [allocate_field_entries] creates the overflow region, takes the sequence
    one step up, and only then returns null; the new region stays in the
    session, with all its counts at 0. In general the call returns null for a
    request of 0 entries (the state is then unchanged), after a refused
    mapping (no pool and no count is changed), or for such an oversized
    request. *)
Theorem oversized_field_request_leaves_region (n : Z) (c : Context) :
  (header_pool_refuses (OpAllocateFieldEntries n) c ->
   current_overflow_refuses (OpAllocateFieldEntries n) c ->
   never_refuses P ->
   overflow_field_capacity P cfg < n ->
   let c' := snd (allocate_field_entries P cfg n c) in
   fst (allocate_field_entries P cfg n c) = None /\
   (forall kind, pool_counts kind c' = pool_counts kind c ++ [fresh_count P cfg kind]) /\
   TelemetryHeader.sequence (header c') =
     u64 (TelemetryHeader.sequence (header c) + 1)) /\
  (forall c',
     allocate_field_entries P cfg n c = (None, c') ->
     (n = 0 /\ c' = c) \/
     (n <> 0 /\ (forall kind, pool_counts kind c' = pool_counts kind c) /\
      TelemetryHeader.sequence (header c') = TelemetryHeader.sequence (header c)) \/
     (overflow_field_capacity P cfg < n /\
      (forall kind, pool_counts kind c' = pool_counts kind c ++ [fresh_count P cfg kind]) /\
      TelemetryHeader.sequence (header c') =
        u64 (TelemetryHeader.sequence (header c) + 1))).
Proof.
  split.
  - intros Hheader Hcurrent Hgranted Hbig c'. subst c'.
    pose proof (u32_range (u64 (overflow_available P cfg * 40) / 100 / sizeof_FieldEntry P))
      as Hcap. fold (overflow_field_capacity P cfg) in Hcap.
    cbn in Hheader. unfold current_overflow_refuses in Hcurrent.
    destruct (allocate_field_entries P cfg n c) as [r c'] eqn:Ha. cbn [fst snd].
    pose proof (allocate_field_entries_effect P cfg n c r c' Ha) as (_ & _ & Hseq).
    revert Ha. unfold allocate_field_entries.
    destruct (Z.eqb_spec n 0) as [-> | Hn]; [lia |].
    destruct (Z.leb_spec (u32 (TelemetryHeader.field_count (header c) + n))
                (TelemetryHeader.field_entries_capacity (header c))); [lia |].
    assert (Hnone :
      match current_overflow_region (metadata c) with
      | Some (k, region) =>
          if u32 (MetadataOverflowDescriptor.field_entry_count (or_descriptor region) + n)
             <=? MetadataOverflowDescriptor.field_entry_capacity (or_descriptor region)
          then Some (k, MetadataOverflowDescriptor.field_entry_count (or_descriptor region))
          else None
      | None => None
      end = None).
    { destruct (current_overflow_region (metadata c)) as [[k region]|]; [| done].
      specialize (Hcurrent k region eq_refl). cbn in Hcurrent.
      by destruct (Z.leb_spec
           (u32 (MetadataOverflowDescriptor.field_entry_count (or_descriptor region) + n))
           (MetadataOverflowDescriptor.field_entry_capacity (or_descriptor region)));
        [lia |]. }
    rewrite Hnone.
    destruct (create_overflow_region P cfg c) as [[[k r0]|] c2] eqn:Hc.
    + pose proof (create_overflow_region_counts P cfg _ _ _ Hc) as (_ & _ & Hcounts).
      destruct (Hcounts FieldEntries) as [_ Hr0].
      apply (f_equal capacity_of) in Hr0. cbn in Hr0. rewrite Hr0.
      destruct (Z.ltb_spec (overflow_field_capacity P cfg) n); [| lia].
      intros [= <- <-]. split; [done |]. split; [intros kind; by destruct (Hcounts kind) |].
      pose proof (f_equal length (proj1 (Hcounts FieldEntries))) as Hl.
      rewrite length_app, !length_pool_counts in Hl. cbn in Hl.
      destruct Hseq as [[_ Hlen] | [Hs _]]; [lia | done].
    + exfalso. revert Hc. unfold create_overflow_region.
      destruct (Hgranted
                  (make_overflow_shm_name
                     (mm_session_name_ (metadata c)) (next_overflow_id_ (metadata c)))
                  (u64 (sizeof_MetadataOverflowDescriptor P +
                        u64 (overflow_object_capacity P cfg * sizeof_ObjectEntry P) +
                        u64 (overflow_type_capacity P cfg * sizeof_TypeEntry P) +
                        u64 (overflow_field_capacity P cfg * sizeof_FieldEntry P))))
        as [base Hbase].
      cbn [metadata with_metadata mm_session_name_ overflow_regions_ next_overflow_id_].
      by rewrite Hbase.
  - intros c' Ha.
    pose proof (allocate_field_entries_effect P cfg n c None c' Ha) as (_ & _ & Hseq).
    apply allocate_field_entries_counts in Ha
      as [[-> ->] | [[Hn Hsame] | [Hbig Hgrown]]];
      [by left | right; left | right; right].
    + pose proof (f_equal length (Hsame FieldEntries)) as Hl.
      rewrite !length_pool_counts in Hl.
      by destruct Hseq as [[Hs _] | [_ Hlen]]; [| lia].
    + pose proof (f_equal length (Hgrown FieldEntries)) as Hl.
      rewrite length_app, !length_pool_counts in Hl. cbn in Hl.
      by destruct Hseq as [[_ Hlen] | [Hs _]]; [lia |].
Qed.

End FieldEntryProperties.

Section SequenceStepProperties.

Variable P : Platform.
Variable cfg : Config.

Lemma u64_add_l (a b : Z) : u64 (u64 a + b) = u64 (a + b).
Proof. unfold u64. by rewrite Zplus_mod_idemp_l. Qed.

(** X11. The sequence number counts the changes: every call moves
    [header.sequence] forward, modulo 2^64, by exactly the number of data
    regions that [allocate] added, overflow regions that were added, objects
    registered and registered objects destroyed in the call. A call that does
    none of these (an allocation that fits, an allocator served from an
    existing pool, [init], a failed call, the destruction of an unknown
    pointer) leaves it as it was, and one call moves it by at most two. *)
Theorem sequence_counts_changes (op : Op) (c : Context) :
  0 <= TelemetryHeader.sequence (header c) < 2 ^ 64 ->
  TelemetryHeader.sequence (header (step P cfg op c)) =
    u64 (TelemetryHeader.sequence (header c) + sequence_steps P cfg op c) /\
  0 <= sequence_steps P cfg op c <= 2 /\
  (~ structural_change P cfg op c ->
   TelemetryHeader.sequence (header (step P cfg op c)) =
     TelemetryHeader.sequence (header c)).
Proof.
  intros Hseq.
  assert (Hsame : forall s' : Z, s' = TelemetryHeader.sequence (header c) ->
            s' = u64 (TelemetryHeader.sequence (header c) + 0)).
  { intros s' ->. by rewrite Z.add_0_r, u64_small. }
  unfold sequence_steps, structural_change.
  destruct op as [s n | s | size alignment | | | n | ptr type_id label | ptr];
    cbn [step is_region_init].
  - destruct (RegionManager_init P s n c) as [ok c'] eqn:Hi.
    apply RegionManager_init_effect in Hi as (Hs & Hm & _). cbn [snd].
    rewrite Hm, Nat.sub_diag. split; [by apply Hsame |]. split; [lia | done].
  - cbn. rewrite !Nat.sub_diag. split; [by apply Hsame |]. split; [lia | done].
  - destruct (allocate P cfg size alignment c) as [p c'] eqn:Ha.
    apply allocate_effect in Ha as (Hm & _ & _ & Hs). cbn [snd].
    rewrite Hm, Nat.sub_diag.
    destruct Hs as [[Hs ->] | [Hs ->]]; rewrite Hs.
    + rewrite Nat.sub_diag. split; [by apply Hsame |]. split; [lia | done].
    + replace (S _ - _)%nat with 1%nat by lia. split; [done |]. split; [lia |].
      intros Hno. destruct Hno. left. lia.
  - destruct (allocate_object_entry P cfg c) as [r c'] eqn:Ha.
    apply allocate_object_entry_effect in Ha as (Hr & _ & Hs). cbn [snd].
    rewrite Hr, Nat.sub_diag.
    destruct Hs as [[Hs ->] | [Hs ->]]; rewrite Hs.
    + rewrite Nat.sub_diag. split; [by apply Hsame |]. split; [lia | done].
    + replace (S _ - _)%nat with 1%nat by lia. split; [done |]. split; [lia |].
      intros Hno. destruct Hno. right. left. lia.
  - destruct (allocate_type_entry P cfg c) as [r c'] eqn:Ha.
    apply allocate_type_entry_effect in Ha as (Hr & _ & Hs). cbn [snd].
    rewrite Hr, Nat.sub_diag.
    destruct Hs as [[Hs ->] | [Hs ->]]; rewrite Hs.
    + rewrite Nat.sub_diag. split; [by apply Hsame |]. split; [lia | done].
    + replace (S _ - _)%nat with 1%nat by lia. split; [done |]. split; [lia |].
      intros Hno. destruct Hno. right. left. lia.
  - destruct (allocate_field_entries P cfg n c) as [r c'] eqn:Ha.
    apply allocate_field_entries_effect in Ha as (Hr & _ & Hs). cbn [snd].
    rewrite Hr, Nat.sub_diag.
    destruct Hs as [[Hs ->] | [Hs ->]]; rewrite Hs.
    + rewrite Nat.sub_diag. split; [by apply Hsame |]. split; [lia | done].
    + replace (S _ - _)%nat with 1%nat by lia. split; [done |]. split; [lia |].
      intros Hno. destruct Hno. right. left. lia.
  - destruct (register_object P cfg ptr type_id label c) as [r c'] eqn:Ha.
    apply register_object_effect in Ha as (Hr & Hs). cbn [snd fst].
    rewrite Hr, Nat.sub_diag. destruct r as [e|].
    + destruct Hs as (c1 & Hs & -> & [[Hs1 ->] | [Hs1 ->]]); rewrite Hs, Hs1.
      * rewrite Nat.sub_diag. split; [done |]. split; [lia |].
        intros Hno. destruct Hno. right. right. by eexists.
      * replace (S _ - _)%nat with 1%nat by lia. split; [| split; [lia |]].
        -- rewrite u64_add_l. f_equal. lia.
        -- intros Hno. destruct Hno. right. right. by eexists.
    + destruct Hs as [[Hs ->] | [Hs ->]]; rewrite Hs.
      * rewrite Nat.sub_diag. split; [by apply Hsame |]. split; [lia | done].
      * replace (S _ - _)%nat with 1%nat by lia. split; [done |]. split; [lia |].
        intros Hno. destruct Hno. right. left. lia.
  - destruct (destroy_object_effect ptr c) as (Hr & Hn & Hs).
    rewrite Hr, Hn, !Nat.sub_diag.
    destruct (ptr_to_entry_ (objects c) !! ptr) as [e|] eqn:Hptr.
    + rewrite Hs. split; [done |]. split; [lia |].
      intros Hno. destruct Hno. right. right. by eexists.
    + rewrite Hs. split; [by apply Hsame |]. split; [lia | done].
Qed.

End SequenceStepProperties.

Section PointerMapProperties.

Variable P : Platform.
Variable cfg : Config.

Lemma SlotRef_eq (e e' : SlotRef) :
  pool_of e = pool_of e' -> index_of e = index_of e' -> e = e'.
Proof. destruct e, e'; cbn; intros; by simplify_eq. Qed.

(** The pools and the pointer map after a successful [register_object]. *)
Lemma register_object_shape ptr type_id label c e c' :
  register_object P cfg ptr type_id label c = (Some e, c') ->
  exists (pools0 : list ObjectPool) (p : ObjectPool) (region_id offset : Z),
    ((pools0 = object_pools c /\ pool_count p < pool_capacity p) \/
     (pools0 = object_pools c ++ [fresh_overflow_pool P cfg] /\
      p = fresh_overflow_pool P cfg)) /\
    pools0 !! pool_of e = Some p /\
    index_of e = Z.to_nat (pool_count p) /\
    get_location ptr (regions c) = Some (region_id, offset) /\
    object_pools c' =
      <[pool_of e := publish_slot (registered_entry type_id region_id offset label) p]>
        pools0 /\
    ptr_to_entry_ (objects c') = <[ptr := e]> (ptr_to_entry_ (objects c)).
Proof.
  unfold register_object.
  destruct (get_location _ _) as [[region_id offset]|]; [| done].
  destruct (allocate_object_entry P cfg c) as [[e0|] c1] eqn:Ha;
    rewrite ?register_stores_fold; intros [= <- <-].
  destruct (allocate_object_entry_pools P cfg c e0 c1
              (registered_entry type_id region_id offset label) Ha)
    as (pools0 & p & Hcase & Hp & Hidx & _ & Hfill).
  apply allocate_object_entry_effect in Ha as (_ & Ho & _).
  exists pools0, p, region_id, offset. repeat split; try done.
  cbn [objects with_objects with_header ptr_to_entry_].
  by rewrite update_entry_objects, Ho.
Qed.

Lemma alive_at_app pools l e : alive_at pools e -> alive_at (pools ++ l) e.
Proof.
  intros (p & entry & Hp & Hlt & Hentry & Halive). exists p, entry.
  split; [by apply lookup_app_l_Some | done].
Qed.

(** A slot that was published keeps its entry when the next slot of a pool
    is published. *)
Lemma alive_at_publish pools i p full e :
  pools !! i = Some p -> 0 <= pool_count p -> pool_count p + 1 < 2 ^ 32 ->
  alive_at pools e ->
  alive_at (<[i := publish_slot full p]> pools) e /\
  (pool_of e = i -> index_of e <> Z.to_nat (pool_count p)).
Proof.
  intros Hi H0 H32 (q & entry & Hq & Hlt & Hentry & Halive).
  destruct (decide (pool_of e = i)) as [<- | Hne].
  - rewrite Hq in Hi. injection Hi as ->. split; [| lia].
    exists (publish_slot full p), entry. unfold publish_slot.
    cbn [pool_count pool_slots]. rewrite u32_small by lia.
    split; [apply list_lookup_insert_eq; by eapply lookup_lt_Some |].
    split; [lia |]. split; [| done]. rewrite list_lookup_alter_ne by lia. done.
  - split; [| done]. exists q, entry. by rewrite list_lookup_insert_ne.
Qed.

(** A store to another slot leaves the entry. *)
Lemma alive_at_alter pools e0 f e :
  e <> e0 -> alive_at pools e ->
  alive_at (alter (fun p => mkObjectPool (pool_capacity p) (pool_count p)
                              (alter f (index_of e0) (pool_slots p)))
                  (pool_of e0) pools) e.
Proof.
  intros Hne (q & entry & Hq & Hlt & Hentry & Halive).
  destruct (decide (pool_of e = pool_of e0)) as [Heq | Hpool].
  - exists (mkObjectPool (pool_capacity q) (pool_count q)
              (alter f (index_of e0) (pool_slots q))), entry.
    split; [by rewrite <- Heq, list_lookup_alter_eq, Hq |].
    cbn [pool_count pool_slots]. split; [done |]. split; [| done].
    rewrite list_lookup_alter_ne; [done |]. intros Hidx. destruct Hne.
    by apply SlotRef_eq.
  - exists q, entry. by rewrite list_lookup_alter_ne.
Qed.

Lemma objects_ok_same c c' :
  objects c' = objects c ->
  object_pools c' = object_pools c \/
  object_pools c' = object_pools c ++ [fresh_overflow_pool P cfg] ->
  objects_ok c -> objects_ok c'.
Proof.
  intros Ho Hpools Hok ptr e Hptr. rewrite Ho in Hptr |- *.
  destruct (Hok ptr e Hptr) as [Halive Hinj]. split; [| done].
  destruct Hpools as [-> | ->]; [done | by apply alive_at_app].
Qed.

Lemma register_object_null ptr type_id label c c' :
  register_object P cfg ptr type_id label c = (None, c') ->
  objects c' = objects c /\ object_pools c' = object_pools c.
Proof.
  unfold register_object.
  destruct (get_location _ _) as [[region_id offset]|]; [| by intros [= <-]].
  destruct (allocate_object_entry P cfg c) as [[e|] c1] eqn:Ha; [done |].
  intros [= <-]. split; [by apply allocate_object_entry_effect in Ha as (_ & ? & _) |].
  revert Ha. unfold allocate_object_entry.
  destruct (_ <? _); [done |].
  destruct (match current_overflow_region _ with Some _ => _ | None => _ end)
    as [[k n]|]; [done |].
  destruct (create_overflow_region P cfg c) as [[[k r0]|] c2] eqn:Hc; [done |].
  intros [= <-]. by apply create_overflow_region_pools in Hc.
Qed.

Lemma register_object_objects_ok ptr type_id label c e c' :
  register_object P cfg ptr type_id label c = (Some e, c') ->
  1 <= overflow_object_capacity P cfg ->
  pools_ok c -> objects_ok c -> objects_ok c'.
Proof.
  intros Hreg Hcap Hpools Hok.
  apply register_object_shape in Hreg
    as (pools0 & p & region_id & offset & Hcase & Hp & Hidx & _ & Hfill & Hmap).
  assert (Hp0 : pool_ok p /\ pool_count p < pool_capacity p /\
                forall e', alive_at (object_pools c) e' -> alive_at pools0 e').
  { destruct Hcase as [[-> Hroom] | [-> ->]].
    - split; [by eapply Forall_lookup_1 | done].
    - split; [apply pool_ok_fresh |]. split; [cbn; lia |].
      intros e'. apply alive_at_app. }
  destruct Hp0 as ((Hcount & Hcap32 & Hlen & _) & Hroom & Hlift).
  assert (Hold : forall e', alive_at (object_pools c) e' ->
            alive_at (object_pools c') e' /\ e' <> e).
  { intros e' Halive.
    destruct (alive_at_publish pools0 (pool_of e) p
                (registered_entry type_id region_id offset label) e' Hp
                ltac:(lia) ltac:(lia) (Hlift e' Halive)) as [Ha Hne].
    rewrite Hfill. split; [done |]. intros ->. by apply Hne. }
  intros ptr0 e0. rewrite Hmap. intros Hptr0.
  apply lookup_insert_Some in Hptr0 as [[<- <-] | [Hne Hptr0]].
  - split.
    + exists (publish_slot (registered_entry type_id region_id offset label) p),
        (registered_entry type_id region_id offset label).
      rewrite Hfill. split; [apply list_lookup_insert_eq; by eapply lookup_lt_Some |].
      unfold publish_slot. cbn [pool_count pool_slots].
      rewrite u32_small by lia. split; [lia |]. split; [| done].
      rewrite Hidx, list_lookup_alter_eq.
      by destruct (lookup_lt_is_Some_2 (pool_slots p) (Z.to_nat (pool_count p))
                     ltac:(lia)) as [x ->].
    + intros ptr' Hptr'.
      apply lookup_insert_Some in Hptr' as [[? _] | [_ Hptr']]; [done |].
      destruct (Hok ptr' e Hptr') as [Halive _].
      by destruct (Hold e Halive) as [_ Hne].
  - destruct (Hok ptr0 e0 Hptr0) as [Halive Hinj].
    destruct (Hold e0 Halive) as [Halive' Hne0]. split; [done |].
    intros ptr' Hptr'.
    apply lookup_insert_Some in Hptr' as [[_ ->] | [_ Hptr']]; [done | by apply Hinj].
Qed.

Lemma destroy_object_objects_ok ptr c :
  objects_ok c -> objects_ok (destroy_object ptr c).
Proof.
  intros Hok. unfold destroy_object.
  destruct (ptr_to_entry_ (objects c) !! ptr) as [e|] eqn:Hptr; [| done].
  intros ptr0 e0.
  rewrite object_pools_with_objects, object_pools_with_header_sequence,
    object_pools_update_entry.
  cbn [objects with_objects with_header ptr_to_entry_].
  rewrite update_entry_objects. intros Hptr0.
  apply lookup_delete_Some in Hptr0 as [Hne Hptr0].
  destruct (Hok ptr0 e0 Hptr0) as [Halive Hinj]. split.
  - apply alive_at_alter; [| done]. intros ->. destruct Hne. by apply Hinj.
  - intros ptr' Hptr'. apply lookup_delete_Some in Hptr' as [_ Hptr']. by apply Hinj.
Qed.

Lemma step_objects_ok op c :
  is_allocate_object_entry op = false ->
  1 <= overflow_object_capacity P cfg ->
  pools_ok c -> objects_ok c -> objects_ok (step P cfg op c).
Proof.
  intros Hop Hcap Hpools Hok.
  destruct op as [s n | s | size alignment | | | n | ptr type_id label | ptr];
    cbn [step].
  - eapply objects_ok_same; [| left; apply RegionManager_init_pools | done].
    destruct (RegionManager_init P s n c) as [ok c'] eqn:Hi.
    by apply RegionManager_init_effect in Hi as (_ & _ & ? & _).
  - done.
  - eapply objects_ok_same; [| left; apply allocate_pools | done].
    destruct (allocate P cfg size alignment c) as [p c'] eqn:Ha.
    by apply allocate_effect in Ha as (_ & ? & _).
  - done.
  - eapply objects_ok_same; [| apply allocate_type_entry_pools | done].
    destruct (allocate_type_entry P cfg c) as [r c'] eqn:Ha.
    by apply allocate_type_entry_effect in Ha as (_ & ? & _).
  - eapply objects_ok_same; [| apply allocate_field_entries_pools | done].
    destruct (allocate_field_entries P cfg n c) as [r c'] eqn:Ha.
    by apply allocate_field_entries_effect in Ha as (_ & ? & _).
  - destruct (register_object P cfg ptr type_id label c) as [[e|] c'] eqn:Hreg;
      cbn [snd].
    + by eapply register_object_objects_ok.
    + apply register_object_null in Hreg as [Ho Hp].
      eapply objects_ok_same; [done | by left | done].
  - by apply destroy_object_objects_ok.
Qed.

Lemma run_objects_ok ops c :
  Forall (fun op => is_allocate_object_entry op = false) ops ->
  1 <= overflow_object_capacity P cfg ->
  pools_ok c -> objects_ok c -> pools_ok (run P cfg ops c) /\ objects_ok (run P cfg ops c).
Proof.
  intros Hops Hcap. revert c.
  induction Hops as [| op ops Hop Hops IH]; intros c Hpools Hok; [done |].
  cbn [run foldl]. apply IH; [by apply step_pools_ok | by apply step_objects_ok].
Qed.

(** X12. The pointer map of the object manager: in a session whose object
    entries are allocated through [register_object] only (and whose overflow
    regions have room for at least one object entry), every pointer of
    [ptr_to_entry_] stands for an entry that is published (below the count of
    its pool) and alive, and no two pointers stand for the same entry. *)
Theorem registered_pointers_stand_for_alive_entries
    (ops : list Op) (object_capacity type_capacity field_capacity : Z) :
  0 <= object_capacity < 2 ^ 32 ->
  1 <= overflow_object_capacity P cfg ->
  Forall (fun op => is_allocate_object_entry op = false) ops ->
  let c := run P cfg ops
             (initial_context cfg object_capacity type_capacity field_capacity) in
  forall (ptr : Z) (e : SlotRef),
    ptr_to_entry_ (objects c) !! ptr = Some e ->
    slot_published e c /\
    (exists entry : ObjectEntry.t,
       entry_at e c = Some entry /\ ObjectEntry.load_state entry = Alive) /\
    forall ptr' : Z, ptr_to_entry_ (objects c) !! ptr' = Some e -> ptr' = ptr.
Proof.
  intros Hocap Hcap Hops c ptr e Hptr. subst c.
  destruct (run_objects_ok ops
              (initial_context cfg object_capacity type_capacity field_capacity)
              Hops Hcap (initial_context_pools_ok cfg _ _ _ Hocap)) as [_ Hok].
  { intros ptr0 e0 Hptr0. change ((∅ : gmap Z SlotRef) !! ptr0 = Some e0) in Hptr0.
    by rewrite lookup_empty in Hptr0. }
  destruct (Hok ptr e Hptr) as [(p & entry & Hp & Hlt & Hentry & Halive) Hinj].
  split; [by exists p |]. split; [| done].
  exists entry. split; [| done]. rewrite entry_at_pools. by rewrite Hp.
Qed.

(** The entries that were published and alive stay so across a successful
    [register_object], and the new entry is none of them. *)
Lemma register_object_keeps_alive ptr type_id label c e c' e' :
  register_object P cfg ptr type_id label c = (Some e, c') ->
  1 <= overflow_object_capacity P cfg ->
  pools_ok c ->
  alive_at (object_pools c) e' -> alive_at (object_pools c') e' /\ e' <> e.
Proof.
  intros Hreg Hcap Hpools Halive.
  apply register_object_shape in Hreg
    as (pools0 & p & region_id & offset & Hcase & Hp & Hidx & _ & Hfill & Hmap).
  assert (Hp0 : pool_ok p /\ pool_count p < pool_capacity p /\ alive_at pools0 e').
  { destruct Hcase as [[-> Hroom] | [-> ->]].
    - split; [by eapply Forall_lookup_1 | done].
    - split; [apply pool_ok_fresh |]. split; [cbn; lia | by apply alive_at_app]. }
  destruct Hp0 as ((Hcount & Hcap32 & Hlen & _) & Hroom & Halive0).
  destruct (alive_at_publish pools0 (pool_of e) p
              (registered_entry type_id region_id offset label) e' Hp
              ltac:(lia) ltac:(lia) Halive0) as [Ha Hne].
  rewrite Hfill. split; [done |]. intros ->. by apply Hne.
Qed.

(** An alive entry that no pointer stands for stays alive across any number
    of calls of [destroy_object]. *)
Lemma destroy_objects_keep_unmapped (ptrs : list Z) (c : Context) (e : SlotRef) :
  alive_at (object_pools c) e ->
  (forall ptr, ptr_to_entry_ (objects c) !! ptr <> Some e) ->
  alive_at (object_pools (run P cfg (OpDestroyObject <$> ptrs) c)) e /\
  forall ptr, ptr_to_entry_ (objects (run P cfg (OpDestroyObject <$> ptrs) c)) !! ptr
              <> Some e.
Proof.
  revert c. induction ptrs as [| ptr ptrs IH]; intros c Halive Hun; [done |].
  cbn [fmap list_fmap run foldl step]. apply IH; unfold destroy_object;
    destruct (ptr_to_entry_ (objects c) !! ptr) as [e0|] eqn:Hptr; try done.
  - rewrite object_pools_with_objects, object_pools_with_header_sequence,
      object_pools_update_entry.
    apply alive_at_alter; [| done]. intros ->. by apply (Hun ptr).
  - intros ptr'. cbn [objects with_objects with_header ptr_to_entry_].
    rewrite update_entry_objects. intros Hptr'.
    apply lookup_delete_Some in Hptr' as [_ Hptr']. by apply (Hun ptr').
Qed.

(** X13. A pointer registered twice: [register_object] does not look for an
    earlier registration of the pointer. In a session as in X12, two
    successful registrations of the same pointer give two different entries,
    and the pointer map keeps the second one only; when the pointer is
    destroyed, the first entry is still published and alive and no pointer
    stands for it, and it stays so whatever is destroyed afterwards. *)
Theorem reregistered_pointer_leaves_entry_alive
    (ops : list Op) (object_capacity type_capacity field_capacity : Z)
    (ptr type_id1 type_id2 : Z) (label1 label2 : string)
    (e1 e2 : SlotRef) (c1 c2 : Context) (ptrs : list Z) :
  0 <= object_capacity < 2 ^ 32 ->
  1 <= overflow_object_capacity P cfg ->
  Forall (fun op => is_allocate_object_entry op = false) ops ->
  let c := run P cfg ops
             (initial_context cfg object_capacity type_capacity field_capacity) in
  register_object P cfg ptr type_id1 label1 c = (Some e1, c1) ->
  register_object P cfg ptr type_id2 label2 c1 = (Some e2, c2) ->
  e1 <> e2 /\
  ptr_to_entry_ (objects c2) !! ptr = Some e2 /\
  let c3 := run P cfg (OpDestroyObject <$> ptr :: ptrs) c2 in
  alive_at (object_pools c3) e1 /\
  forall ptr' : Z, ptr_to_entry_ (objects c3) !! ptr' <> Some e1.
Proof.
  intros Hocap Hcap Hops c Hreg1 Hreg2. subst c.
  destruct (run_objects_ok ops
              (initial_context cfg object_capacity type_capacity field_capacity)
              Hops Hcap (initial_context_pools_ok cfg _ _ _ Hocap)) as [Hpools Hok].
  { intros ptr0 e0 Hptr0. change ((∅ : gmap Z SlotRef) !! ptr0 = Some e0) in Hptr0.
    by rewrite lookup_empty in Hptr0. }
  set (c := run P cfg ops _) in *.
  pose proof (register_object_objects_ok _ _ _ _ _ _ Hreg1 Hcap Hpools Hok) as Hok1.
  pose proof (register_object_pools P cfg _ _ _ _ _ _ Hpools Hcap Hreg1) as [Hpools1 _].
  pose proof (register_object_shape _ _ _ _ _ _ Hreg1) as (_ & _ & _ & _ & _ & _ & _ & _ & _ & Hmap1).
  pose proof (register_object_shape _ _ _ _ _ _ Hreg2) as (_ & _ & _ & _ & _ & _ & _ & _ & _ & Hmap2).
  assert (Hptr1 : ptr_to_entry_ (objects c1) !! ptr = Some e1)
    by (by rewrite Hmap1, lookup_insert_eq).
  destruct (Hok1 ptr e1 Hptr1) as [Halive1 _].
  destruct (register_object_keeps_alive _ _ _ _ _ _ e1 Hreg2 Hcap Hpools1 Halive1)
    as [Halive2 Hne].
  split; [done |]. split; [by rewrite Hmap2, lookup_insert_eq |].
  cbn [fmap list_fmap run foldl step].
  apply destroy_objects_keep_unmapped.
  - unfold destroy_object. rewrite Hmap2, lookup_insert_eq.
    rewrite object_pools_with_objects, object_pools_with_header_sequence,
      object_pools_update_entry.
    by apply alive_at_alter.
  - intros ptr'. unfold destroy_object. rewrite Hmap2, lookup_insert_eq.
    cbn [objects with_objects with_header ptr_to_entry_].
    rewrite update_entry_objects, Hmap2, Hmap1. intros Hptr'.
    apply lookup_delete_Some in Hptr' as [Hne' Hptr'].
    rewrite !lookup_insert_ne in Hptr' by done.
    destruct (Hok ptr' e1 Hptr') as [Halive _].
    by destruct (register_object_keeps_alive _ _ _ _ _ _ e1 Hreg1 Hcap Hpools Halive).
Qed.

End PointerMapProperties.

Section LocationStability.

Variable P : Platform.
Variable cfg : Config.

Lemma same_mapping_refl (rs : list Region) : Forall2 same_mapping rs rs.
Proof. induction rs; by constructor. Qed.

Lemma same_mapping_alter (g : Region -> Region) (k : nat) (rs : list Region) :
  (forall r, same_mapping r (g r)) -> Forall2 same_mapping rs (alter g k rs).
Proof.
  intros Hg. revert k. induction rs as [| r rs IH]; intros [| k]; cbn;
    constructor; first [done | apply same_mapping_refl | apply IH | apply Hg].
Qed.

Lemma same_mapping_trans (l1 l2 l3 : list Region) :
  Forall2 same_mapping l1 l2 -> Forall2 same_mapping l2 l3 ->
  Forall2 same_mapping l1 l3.
Proof.
  intros H12. revert l3. induction H12 as [| r1 r2 l1 l2 (? & ? & ?) _ IH];
    intros l3 H23; inversion H23 as [| ? r3 ? ? (? & ? & ?)]; subst; constructor;
    [unfold same_mapping; split_and!; congruence | by apply IH].
Qed.

Lemma extends_refl rs : extends rs rs.
Proof. exists rs, []. split; [by rewrite app_nil_r | apply same_mapping_refl]. Qed.

Lemma extends_trans l1 l2 l3 : extends l1 l2 -> extends l2 l3 -> extends l1 l3.
Proof.
  intros (old & extra & -> & H1) (old' & extra' & -> & H2).
  apply Forall2_app_inv_l in H2 as (o1 & o2 & H2a & H2b & ->).
  exists o1, (o2 ++ extra'). split; [by rewrite app_assoc |].
  by eapply same_mapping_trans.
Qed.

Lemma same_mapping_link id rs : Forall2 same_mapping rs (link_last_region id rs).
Proof.
  destruct rs as [| r rs]; [constructor |]. unfold link_last_region.
  by apply same_mapping_alter.
Qed.

Lemma create_region_extends size rm r rm' :
  create_region P size rm = (r, rm') -> extends (regions_ rm) (regions_ rm').
Proof.
  unfold create_region. destruct (shm_create P _ _) as [base|]; intros [= <- <-].
  - cbn [regions_]. eexists _, [_]. split; [done |]. apply same_mapping_link.
  - apply extends_refl.
Qed.

Lemma store_region_used_extends k v rm :
  extends (regions_ rm) (regions_ (store_region_used k v rm)).
Proof.
  cbn [store_region_used regions_]. eexists _, []. split; [by rewrite app_nil_r |].
  by apply same_mapping_alter.
Qed.

(** No call moves, resizes, renames or removes a data region. *)
Lemma step_regions_extend (op : Op) (c : Context) :
  extends (regions_ (regions c)) (regions_ (regions (step P cfg op c))).
Proof.
  destruct op as [s n | s | size alignment | | | n | ptr type_id label | ptr];
    cbn [step].
  - unfold RegionManager_init.
    destruct (create_region P _ _) as [[[k r]|] rm] eqn:Hc;
      by apply create_region_extends in Hc.
  - apply extends_refl.
  - unfold allocate. destruct (current_region _) as [[k region]|];
      [| apply extends_refl].
    destruct (_ <? _); [| apply store_region_used_extends].
    destruct (create_region P _ _) as [[[k' r]|] rm] eqn:Hc;
      apply create_region_extends in Hc; [| done].
    cbn [snd regions with_regions with_header].
    eapply extends_trans; [exact Hc | apply store_region_used_extends].
  - destruct (allocate_object_entry P cfg c) as [r c'] eqn:Ha. cbn [snd].
    apply allocate_object_entry_effect in Ha as (-> & _). apply extends_refl.
  - destruct (allocate_type_entry P cfg c) as [r c'] eqn:Ha. cbn [snd].
    apply allocate_type_entry_effect in Ha as (-> & _). apply extends_refl.
  - destruct (allocate_field_entries P cfg n c) as [r c'] eqn:Ha. cbn [snd].
    apply allocate_field_entries_effect in Ha as (-> & _). apply extends_refl.
  - destruct (register_object P cfg ptr type_id label c) as [r c'] eqn:Ha. cbn [snd].
    apply register_object_effect in Ha as (-> & _). apply extends_refl.
  - destruct (destroy_object_effect ptr c) as (-> & _). apply extends_refl.
Qed.

Lemma run_regions_extend (ops : list Op) (c : Context) :
  extends (regions_ (regions c)) (regions_ (regions (run P cfg ops c))).
Proof.
  revert c. induction ops as [| op ops IH]; intros c; [apply extends_refl |].
  cbn [run foldl]. eapply extends_trans; [apply step_regions_extend | apply IH].
Qed.

Lemma find_extends (f : Region -> bool) (rs rs' : list Region) (r : Region) :
  (forall r r', same_mapping r r' -> f r' = f r) ->
  extends rs rs' -> List.find f rs = Some r ->
  exists r', List.find f rs' = Some r' /\ same_mapping r r'.
Proof.
  intros Hf (old & extra & -> & Hsame). revert r.
  induction Hsame as [| a a' rs old Ha _ IH]; intros r; [done |].
  cbn [List.find app]. rewrite (Hf a a' Ha).
  destruct (f a); [| apply IH]. intros [= <-]. by exists a'.
Qed.

(** X14. Locations are stable: once [get_location] has found a pointer, it
    finds it at the same region id and offset after every further run of
    calls, and once [get_region_data] has found a region id, it answers with
    the same base address ever after. No call moves, resizes, renumbers or
    removes a region, and new regions come after the existing ones. *)
Theorem locations_are_stable (ops : list Op) (c : Context) :
  (forall (ptr : Z) (location : Z * Z),
     get_location ptr (regions c) = Some location ->
     get_location ptr (regions (run P cfg ops c)) = Some location) /\
  (forall (region_id base : Z),
     get_region_data region_id (regions c) = Some base ->
     get_region_data region_id (regions (run P cfg ops c)) = Some base).
Proof.
  pose proof (run_regions_extend ops c) as Hext. split.
  - intros ptr location. unfold get_location.
    destruct (List.find _ (regions_ (regions c))) as [r|] eqn:Hfind; [| done].
    eapply find_extends in Hfind as (r' & -> & Hid & Hbase & Hsize); [| | exact Hext].
    + cbn. intros [= <-]. by rewrite Hid, Hbase.
    + intros r1 r2 (_ & Hb & Hs). cbn beta. by rewrite Hb, Hs.
  - intros region_id base. unfold get_region_data.
    destruct (List.find _ (regions_ (regions c))) as [r|] eqn:Hfind; [| done].
    eapply find_extends in Hfind as (r' & -> & Hid & Hbase & Hsize); [| | exact Hext].
    + cbn. intros [= <-]. by rewrite Hbase.
    + intros r1 r2 (Hi & _). cbn beta. by rewrite Hi.
Qed.

End LocationStability.

Section ListingProperties.

Variable P : Platform.
Variable cfg : Config.

Lemma slot_alter_ne (f : ObjectEntry.t -> ObjectEntry.t) (i j : nat)
    (entries : list ObjectEntry.t) :
  i <> j -> slot (alter f i entries) j = slot entries j.
Proof. intros Hne. unfold slot. by rewrite list_lookup_alter_ne. Qed.

Lemma slot_destroyed (i : nat) (entries : list ObjectEntry.t) :
  ObjectEntry.load_state
    (slot (alter (ObjectEntry.store_state Destroyed) i entries) i) <> Alive.
Proof.
  unfold slot. rewrite list_lookup_alter_eq. by destruct (entries !! i).
Qed.

Lemma get_all_objects_loop_destroy (entries : list ObjectEntry.t) (i0 j n : nat) :
  get_all_objects_loop (alter (ObjectEntry.store_state Destroyed) i0 entries) j n =
  filter (fun e => e <> InHeader i0) (get_all_objects_loop entries j n).
Proof.
  revert j. induction n as [| n IH]; intros j; [done |].
  cbn [get_all_objects_loop]. rewrite IH.
  destruct (decide (j = i0)) as [-> | Hne].
  - destruct (Z.eqb_spec (ObjectEntry.load_state
                (slot (alter (ObjectEntry.store_state Destroyed) i0 entries) i0)) Alive)
      as [He | _]; [by apply slot_destroyed in He |].
    destruct (_ =? _); [| done]. by rewrite filter_cons_False by (by intros []).
  - rewrite slot_alter_ne by done.
    destruct (_ =? _); [| done]. rewrite filter_cons_True; [done |]. by intros [= ->].
Qed.

Lemma get_all_objects_loop_ext (entries entries' : list ObjectEntry.t) (j n : nat) :
  (forall i : nat, (j <= i < j + n)%nat -> slot entries' i = slot entries i) ->
  get_all_objects_loop entries' j n = get_all_objects_loop entries j n.
Proof.
  revert j. induction n as [| n IH]; intros j Hext; [done |].
  cbn [get_all_objects_loop]. rewrite Hext by lia. rewrite IH; [done |].
  intros i Hi. apply Hext. lia.
Qed.

Lemma get_all_objects_loop_snoc (entries : list ObjectEntry.t) (j n : nat) :
  get_all_objects_loop entries j (S n) =
  get_all_objects_loop entries j n ++
  (if ObjectEntry.load_state (slot entries (j + n)) =? Alive
   then [InHeader (j + n)] else []).
Proof.
  revert j. induction n as [| n IH]; intros j.
  - cbn [get_all_objects_loop]. rewrite Nat.add_0_r. by destruct (_ =? _).
  - change (get_all_objects_loop entries j (S (S n))) with
      (if ObjectEntry.load_state (slot entries j) =? Alive
       then InHeader j :: get_all_objects_loop entries (S j) (S n)
       else get_all_objects_loop entries (S j) (S n)).
    rewrite IH. cbn [get_all_objects_loop].
    replace (S j + n)%nat with (j + S n)%nat by lia.
    by destruct (ObjectEntry.load_state (slot entries j) =? Alive).
Qed.

#[local] Instance InHeader_inj : Inj (=) (=) InHeader.
Proof. by intros i j [= ->]. Qed.

Lemma filter_all {A} (Q : A -> Prop) `{!forall x, Decision (Q x)} (l : list A) :
  Forall Q l -> filter Q l = l.
Proof.
  induction 1 as [| x l Hx _ IH]; [done |]. by rewrite filter_cons_True, IH.
Qed.

(** The header pool after a successful [register_object]. *)
Lemma register_object_header_pool ptr type_id label c e c' :
  register_object P cfg ptr type_id label c = (Some e, c') ->
  match e with
  | InHeader i =>
      i = Z.to_nat (TelemetryHeader.object_count (header c)) /\
      TelemetryHeader.object_count (header c) <
        TelemetryHeader.object_dir_capacity (header c) /\
      TelemetryHeader.object_count (header c') =
        u32 (TelemetryHeader.object_count (header c) + 1) /\
      exists region_id offset,
        header_objects c' =
          alter (fun _ => registered_entry type_id region_id offset label) i
                (header_objects c)
  | InOverflow _ _ =>
      TelemetryHeader.object_count (header c') = TelemetryHeader.object_count (header c) /\
      header_objects c' = header_objects c
  end.
Proof.
  unfold register_object.
  destruct (get_location _ _) as [[region_id offset]|]; [| done].
  destruct (allocate_object_entry P cfg c) as [[e0|] c1] eqn:Ha;
    rewrite ?register_stores_fold; intros [= <- <-].
  revert Ha. unfold allocate_object_entry.
  destruct (Z.ltb_spec (TelemetryHeader.object_count (header c))
              (TelemetryHeader.object_dir_capacity (header c))) as [Hroom | Hfull].
  { intros [= <- <-]. repeat split; [done |]. by exists region_id, offset. }
  assert (Hnew : forall k r0 c2 v,
    create_overflow_region P cfg c = (Some (k, r0), c2) ->
    TelemetryHeader.object_count
      (header (store_overflow_descriptor k
                 (MetadataOverflowDescriptor.store_object_entry_count v) c2)) =
      TelemetryHeader.object_count (header c) /\
    header_objects (store_overflow_descriptor k
                      (MetadataOverflowDescriptor.store_object_entry_count v) c2) =
      header_objects c).
  { intros k r0 c2 v Hc.
    apply create_overflow_region_pools in Hc as (Hpools & _).
    unfold object_pools in Hpools. rewrite <- app_comm_cons in Hpools.
    by injection Hpools as _ Hcount Hslots _. }
  destruct (current_overflow_region (metadata c)) as [[k region]|] eqn:Hcur.
  - destruct (_ <? _) eqn:Ho.
    + by intros [= <- <-].
    + destruct (create_overflow_region P cfg c) as [[[k' r0]|] c2] eqn:Hc; [| done].
      intros [= <- <-]. cbn [update_entry with_objects with_header header header_objects].
      by apply (Hnew k' r0).
  - destruct (create_overflow_region P cfg c) as [[[k' r0]|] c2] eqn:Hc; [| done].
    intros [= <- <-]. cbn [update_entry with_objects with_header header header_objects].
    by apply (Hnew k' r0).
Qed.

(** X15. The listing follows the life of the header entries.
    [get_all_objects] returns every alive entry below the count of the header
    pool once, in index order, and nothing else. When the header pool is
    well formed, a successful [register_object] adds the new entry at the end
    of the listing if the entry is in the header pool and leaves the listing
    as it was if the entry is in an overflow region; [destroy_object] removes
    the entry of the pointer from the listing and nothing else. *)
Theorem get_all_objects_follows_registrations (c : Context) :
  (NoDup (get_all_objects c) /\
   forall e : SlotRef,
     e ∈ get_all_objects c <->
     exists i : nat,
       e = InHeader i /\ Z.of_nat i < TelemetryHeader.object_count (header c) /\
       ObjectEntry.load_state (slot (header_objects c) i) = Alive) /\
  (forall (ptr : Z) (e : SlotRef),
     ptr_to_entry_ (objects c) !! ptr = Some e ->
     get_all_objects (destroy_object ptr c) =
       filter (fun e' => e' <> e) (get_all_objects c)) /\
  (pool_ok (header_pool c) ->
   forall (ptr type_id : Z) (label : string) (e : SlotRef) (c' : Context),
     register_object P cfg ptr type_id label c = (Some e, c') ->
     get_all_objects c' =
       get_all_objects c ++
       match e with InHeader _ => [e] | InOverflow _ _ => [] end).
Proof.
  split; [| split].
  - rewrite get_all_objects_header_only. unfold alive_in_pool. split.
    + apply NoDup_fmap_2; [apply _ |]. apply NoDup_filter, NoDup_seq.
    + intros e. rewrite list_elem_of_fmap. split.
      * intros (i & -> & Hi). apply list_elem_of_filter in Hi as [Halive Hi].
        apply elem_of_seq in Hi. exists i. split; [done |]. split; [lia | done].
      * intros (i & -> & Hi & Halive). exists i. split; [done |].
        apply list_elem_of_filter. split; [done |]. apply elem_of_seq. lia.
  - intros ptr e Hptr. unfold destroy_object. rewrite Hptr. unfold get_all_objects.
    cbn [with_objects with_header header header_objects TelemetryHeader.object_count
         TelemetryHeader.sequence_fetch_add].
    rewrite update_entry_header. destruct e as [i | k i].
    + cbn [update_entry with_header_objects header_objects].
      apply get_all_objects_loop_destroy.
    + cbn [update_entry with_metadata header_objects]. symmetry.
      apply filter_all. rewrite get_all_objects_loop_spec.
      apply Forall_forall. intros e He. apply list_elem_of_fmap in He as (j & -> & _).
      done.
  - intros (Hcount & Hcap & Hlen & _) ptr type_id label e c' Hreg.
    cbn [header_pool pool_count pool_capacity pool_slots] in Hcount, Hcap, Hlen.
    apply register_object_header_pool in Hreg. unfold get_all_objects.
    destruct e as [i | k i].
    + destruct Hreg as (-> & Hroom & -> & region_id & offset & ->).
      rewrite u32_small by lia.
      replace (Z.to_nat (TelemetryHeader.object_count (header c) + 1))
        with (S (Z.to_nat (TelemetryHeader.object_count (header c)))) by lia.
      rewrite get_all_objects_loop_snoc. cbn [Nat.add]. f_equal.
      * apply get_all_objects_loop_ext. intros i Hi. apply slot_alter_ne. lia.
      * unfold slot. rewrite list_lookup_alter_eq.
        by destruct (lookup_lt_is_Some_2 (header_objects c)
                       (Z.to_nat (TelemetryHeader.object_count (header c)))
                       ltac:(lia)) as [x ->].
    + destruct Hreg as [-> ->]. by rewrite app_nil_r.
Qed.

End ListingProperties.

Section FailureProperties.

Variable P : Platform.
Variable cfg : Config.

Lemma create_overflow_region_None c :
  fst (create_overflow_region P cfg c) = None <-> overflow_mapping_refused P cfg c.
Proof.
  unfold create_overflow_region, overflow_mapping_refused, overflow_total_size.
  cbn [metadata with_metadata mm_session_name_ overflow_regions_ next_overflow_id_].
  by destruct (shm_create P _ _).
Qed.

(** X16. When the metadata allocators fail. [allocate_object_entry] and
    [allocate_type_entry] return null only when the header pool of their kind
    is full, the sub-pool of the current overflow region (if any) is full,
    and the system refuses the mapping of a new overflow region.
    [allocate_field_entries] returns null for a request of 0 entries, and
    otherwise only when neither the header pool nor the current overflow
    region can take the request and either the mapping is refused or the
    request is larger than the field sub-pool of an overflow region.
    [register_object] returns null only when no region holds the pointer or
    [allocate_object_entry] fails. *)
Theorem metadata_allocators_fail_only_without_room (c : Context) :
  (fst (allocate_object_entry P cfg c) = None <->
   header_pool_refuses OpAllocateObjectEntry c /\
   current_overflow_refuses OpAllocateObjectEntry c /\
   overflow_mapping_refused P cfg c) /\
  (fst (allocate_type_entry P cfg c) = None <->
   header_pool_refuses OpAllocateTypeEntry c /\
   current_overflow_refuses OpAllocateTypeEntry c /\
   overflow_mapping_refused P cfg c) /\
  (forall n : Z,
     fst (allocate_field_entries P cfg n c) = None <->
     n = 0 \/
     (header_pool_refuses (OpAllocateFieldEntries n) c /\
      current_overflow_refuses (OpAllocateFieldEntries n) c /\
      (overflow_mapping_refused P cfg c \/ overflow_field_capacity P cfg < n))) /\
  (forall (ptr type_id : Z) (label : string),
     fst (register_object P cfg ptr type_id label c) = None <->
     get_location ptr (regions c) = None \/
     fst (allocate_object_entry P cfg c) = None).
Proof.
  pose proof (create_overflow_region_None c) as Hcreate.
  split; [| split; [| split]].
  - unfold allocate_object_entry, header_pool_refuses, current_overflow_refuses.
    destruct (Z.ltb_spec (TelemetryHeader.object_count (header c))
                (TelemetryHeader.object_dir_capacity (header c))) as [Hroom | Hfull].
    { cbn [fst]. split; [done | lia]. }
    destruct (current_overflow_region (metadata c)) as [[k region]|].
    + destruct (Z.ltb_spec
                  (MetadataOverflowDescriptor.object_entry_count (or_descriptor region))
                  (MetadataOverflowDescriptor.object_entry_capacity (or_descriptor region)))
        as [Horoom | Hofull].
      { cbn [fst]. split; [done |]. intros (_ & Hcur & _).
        specialize (Hcur k region eq_refl). cbn in Hcur. lia. }
      destruct (create_overflow_region P cfg c) as [[[k' r0]|] c2]; cbn [fst] in *.
      * split; [done |]. intros (_ & _ & Href). by apply Hcreate in Href.
      * split; [| done]. intros _. split; [done |]. split; [| by apply Hcreate].
        by intros k1 r1 [= <- <-].
    + destruct (create_overflow_region P cfg c) as [[[k' r0]|] c2]; cbn [fst] in *.
      * split; [done |]. intros (_ & _ & Href). by apply Hcreate in Href.
      * split; [| done]. intros _. split; [done |]. split; [| by apply Hcreate].
        by intros k1 r1 [=].
  - unfold allocate_type_entry, header_pool_refuses, current_overflow_refuses.
    destruct (Z.ltb_spec (TelemetryHeader.type_count (header c))
                (TelemetryHeader.type_registry_capacity (header c))) as [Hroom | Hfull].
    { cbn [fst]. split; [done | lia]. }
    destruct (current_overflow_region (metadata c)) as [[k region]|].
    + destruct (Z.ltb_spec
                  (MetadataOverflowDescriptor.type_entry_count (or_descriptor region))
                  (MetadataOverflowDescriptor.type_entry_capacity (or_descriptor region)))
        as [Horoom | Hofull].
      { cbn [fst]. split; [done |]. intros (_ & Hcur & _).
        specialize (Hcur k region eq_refl). cbn in Hcur. lia. }
      destruct (create_overflow_region P cfg c) as [[[k' r0]|] c2]; cbn [fst] in *.
      * split; [done |]. intros (_ & _ & Href). by apply Hcreate in Href.
      * split; [| done]. intros _. split; [done |]. split; [| by apply Hcreate].
        by intros k1 r1 [= <- <-].
    + destruct (create_overflow_region P cfg c) as [[[k' r0]|] c2]; cbn [fst] in *.
      * split; [done |]. intros (_ & _ & Href). by apply Hcreate in Href.
      * split; [| done]. intros _. split; [done |]. split; [| by apply Hcreate].
        by intros k1 r1 [=].
  - intros n. unfold allocate_field_entries, header_pool_refuses, current_overflow_refuses.
    destruct (Z.eqb_spec n 0) as [-> | Hn]; [cbn [fst]; split; [by left | done] |].
    destruct (Z.leb_spec (u32 (TelemetryHeader.field_count (header c) + n))
                (TelemetryHeader.field_entries_capacity (header c))) as [Hroom | Hfull].
    { cbn [fst]. split; [done |]. intros [? | (? & _)]; [done | lia]. }
    assert (Hnew : forall Hcur : Prop, Hcur ->
      fst (match create_overflow_region P cfg c with
           | (None, c) => (None, c)
           | (Some (k, region), c) =>
               if MetadataOverflowDescriptor.field_entry_capacity (or_descriptor region)
                  <? n
               then (None, c)
               else (Some (InOverflow k 0),
                     store_overflow_descriptor k
                       (MetadataOverflowDescriptor.store_field_entry_count n) c)
           end) = None <->
      n = 0 \/
      (TelemetryHeader.field_entries_capacity (header c) <
         u32 (TelemetryHeader.field_count (header c) + n) /\
       Hcur /\
       (overflow_mapping_refused P cfg c \/ overflow_field_capacity P cfg < n))).
    { intros Hcur HHcur.
      destruct (create_overflow_region P cfg c) as [[[k' r0]|] c2] eqn:Hc; cbn [fst] in *.
      - pose proof (create_overflow_region_counts P cfg _ _ _ Hc) as (_ & _ & Hcounts).
        destruct (Hcounts FieldEntries) as [_ Hr0].
        apply (f_equal capacity_of) in Hr0. cbn in Hr0. rewrite Hr0.
        destruct (Z.ltb_spec (overflow_field_capacity P cfg) n); cbn [fst].
        + split; [| done]. intros _. right. split; [done |]. split; [done |]. by right.
        + split; [done |]. intros [? | (_ & _ & [Href | ?])]; [done | | lia].
          by apply Hcreate in Href.
      - split; [| done]. intros _. right. split; [done |]. split; [done |].
        left. by apply Hcreate. }
    destruct (current_overflow_region (metadata c)) as [[k region]|].
    + destruct (Z.leb_spec
                  (u32 (MetadataOverflowDescriptor.field_entry_count (or_descriptor region)
                        + n))
                  (MetadataOverflowDescriptor.field_entry_capacity (or_descriptor region)))
        as [Horoom | Hofull].
      { cbn [fst]. split; [done |]. intros [? | (_ & Hcur & _)]; [done |].
        specialize (Hcur k region eq_refl). cbn in Hcur. lia. }
      apply Hnew. by intros k1 r1 [= <- <-].
    + apply Hnew. by intros k1 r1 [=].
  - intros ptr type_id label. unfold register_object.
    destruct (get_location ptr (regions c)) as [[region_id offset]|];
      [| cbn [fst]; split; [by left | done]].
    destruct (allocate_object_entry P cfg c) as [[e|] c1]; cbn [fst].
    + split; [done |]. by intros [? | ?].
    + split; [by right | done].
Qed.

End FailureProperties.

Section AllocateLocateProperties.

Variable P : Platform.
Variable cfg : Config.

Lemma find_at {A} (f : A -> bool) (l : list A) (k : nat) (x : A) :
  (forall (k' : nat) (y : A), (k' < k)%nat -> l !! k' = Some y -> f y = false) ->
  l !! k = Some x -> f x = true -> List.find f l = Some x.
Proof.
  revert k. induction l as [| a l IH]; intros [| k] Hbefore Hk Hx; cbn in Hk; [done.. | |].
  - injection Hk as ->. cbn [List.find]. by rewrite Hx.
  - cbn [List.find]. rewrite (Hbefore O a) by (lia || done).
    apply (IH k); [| done..]. intros k' y Hk' Hy. apply (Hbefore (S k') y); [lia | done].
Qed.

(** X17. From an allocation to its registration: for a request of at least
    one byte that fits the current region (power-of-two alignment, no
    wrap-around), when no older mapping holds the address of the block,
    [get_location] finds the block that [allocate] returned in the region
    that served it, at the offset of the aligned cursor; so [register_object]
    on that pointer can only fail for want of an object entry, and the entry
    it writes records that region and offset. *)
Theorem allocated_block_is_located
    (size j : Z) (c : Context) (k : nat) (region : Region) :
  let used := RegionDescriptor.used (r_descriptor region) in
  let aligned := align_up used (2 ^ j) in
  let ptr := r_base region + aligned in
  current_region (regions c) = Some (k, region) ->
  0 <= j -> 0 <= used -> 0 < size ->
  used + 2 ^ j + size <= 2 ^ 64 ->
  aligned + size <= RegionDescriptor.size (r_descriptor region) ->
  (forall (k' : nat) (r' : Region),
     (k' < k)%nat -> regions_ (regions c) !! k' = Some r' -> ~ region_contains ptr r') ->
  let c' := snd (allocate P cfg size (2 ^ j) c) in
  fst (allocate P cfg size (2 ^ j) c) = Some ptr /\
  get_location ptr (regions c') = Some (r_id region, aligned) /\
  forall (type_id : Z) (label : string),
    (fst (register_object P cfg ptr type_id label c') = None ->
     fst (allocate_object_entry P cfg c') = None) /\
    forall (e : SlotRef) (c'' : Context) (entry : ObjectEntry.t),
      register_object P cfg ptr type_id label c' = (Some e, c'') ->
      entry_at e c'' = Some entry ->
      ObjectEntry.region_id entry = Some (r_id region) /\
      ObjectEntry.offset entry = Some aligned.
Proof.
  intros used aligned ptr Hcur Hj Hused Hsize Hwrap Hfits Hdisjoint c'.
  assert (0 < 2 ^ j) by (apply Z.pow_pos_nonneg; lia).
  pose proof (align_up_pow2_ge used j Hj Hused ltac:(lia)) as Hge.
  pose proof (align_up_pow2_lt used j Hj Hused ltac:(lia)) as Hlt.
  change (align_up used (2 ^ j)) with aligned in Hge, Hlt.
  assert (Hallocate : allocate P cfg size (2 ^ j) c =
            (Some ptr, with_regions (store_region_used k (aligned + size)) c)).
  { unfold allocate. rewrite Hcur.
    change (align_up (RegionDescriptor.used (r_descriptor region)) (2 ^ j)) with aligned.
    rewrite (u64_small (aligned + size)) by lia.
    by destruct (Z.ltb_spec (RegionDescriptor.size (r_descriptor region))
                   (aligned + size)); [lia |]. }
  subst c'. rewrite Hallocate. cbn [fst snd]. split; [done |].
  apply current_region_Some in Hcur as [Hk _].
  assert (Hloc : get_location ptr
            (regions (with_regions (store_region_used k (aligned + size)) c)) =
            Some (r_id region, aligned)).
  { unfold get_location. cbn [with_regions regions store_region_used regions_].
    rewrite (find_at _ _ k
               (mkRegion (r_id region) (r_base region)
                  (RegionDescriptor.store_used (aligned + size) (r_descriptor region)))).
    - cbn. f_equal. f_equal. subst ptr. lia.
    - intros k' r' Hk'. rewrite list_lookup_alter_ne by lia. intros Hr'.
      specialize (Hdisjoint k' r' Hk' Hr'). unfold region_contains in Hdisjoint.
      destruct (Z.leb_spec (r_base r') ptr); [| done].
      destruct (Z.ltb_spec ptr (r_base r' + RegionDescriptor.size (r_descriptor r')));
        [lia | done].
    - by rewrite list_lookup_alter_eq, Hk.
    - cbn. subst ptr. apply andb_true_intro. split; [apply Z.leb_le | apply Z.ltb_lt]; lia. }
  split; [done |]. intros type_id label. split.
  - unfold register_object. rewrite Hloc.
    by destruct (allocate_object_entry P cfg _) as [[e|] c1].
  - intros e c'' entry Hreg Hentry.
    apply register_object_entry in Hreg as (region_id & offset & c1 & Hloc' & _ & He).
    rewrite Hloc in Hloc'. injection Hloc' as <- <-. rewrite Hentry in He.
    destruct (entry_at e c1); [| done]. by injection He as ->.
Qed.

End AllocateLocateProperties.

Section ChainProperties.

Variable P : Platform.
Variable cfg : Config.

Lemma chained_relink (first id : Z) (links : list (Z * Z)) :
  chained first links ->
  chained (match links with [] => id | _ :: _ => first end) (relink id links).
Proof.
  intros [Hfirst Hlinks]. unfold relink, chained.
  destruct links as [| l links _] using rev_ind; [done |].
  rewrite length_app. cbn [length]. rewrite Nat.add_1_r. cbn [pred].
  rewrite alter_app_r_alt by lia. rewrite Nat.sub_diag. cbn [alter list_alter].
  rewrite !fmap_app in *. cbn [fmap list_fmap] in *.
  destruct links as [| l0 links]; cbn [app fmap list_fmap hd tail] in *.
  - by cbn.
  - split; [done |].
    change ((l0.2 :: links.*2) ++ [l.2] = (links.*1 ++ [l.1]) ++ [0]) in Hlinks.
    apply app_inj_tail in Hlinks as [Hlinks _]. cbn [fst snd].
    by rewrite <- Hlinks.
Qed.

Lemma chains_ok_view c c' : chain_view c' = chain_view c -> chains_ok c -> chains_ok c'.
Proof. unfold chain_view, chains_ok. by intros [= -> -> -> ->]. Qed.

Lemma chain_view_update_entry e f c : chain_view (update_entry e f c) = chain_view c.
Proof.
  destruct e as [i | k i]; [done |]. unfold chain_view, overflow_links.
  cbn [update_entry with_metadata metadata header overflow_regions_ regions].
  by rewrite fmap_alter_same.
Qed.

Lemma chain_view_store_overflow_descriptor k f c :
  (forall d, MetadataOverflowDescriptor.next_region_id (f d) =
             MetadataOverflowDescriptor.next_region_id d) ->
  chain_view (store_overflow_descriptor k f c) = chain_view c.
Proof.
  intros Hf. unfold chain_view, overflow_links.
  cbn [store_overflow_descriptor with_metadata metadata header overflow_regions_ regions].
  rewrite fmap_alter_same; [done |]. intros r. cbn. by rewrite Hf.
Qed.

Lemma chain_view_store_region_used k v c :
  chain_view (with_regions (store_region_used k v) c) = chain_view c.
Proof.
  unfold chain_view, region_links.
  cbn [store_region_used with_regions metadata header regions regions_].
  by rewrite fmap_alter_same.
Qed.

Lemma create_region_links size rm r rm' :
  create_region P size rm = (r, rm') ->
  match r with
  | Some _ =>
      (fun r => (r_id r, RegionDescriptor.next_region_id (r_descriptor r))) <$> regions_ rm' =
      relink (next_region_id_ rm)
        ((fun r => (r_id r, RegionDescriptor.next_region_id (r_descriptor r))) <$>
         regions_ rm)
  | None => regions_ rm' = regions_ rm
  end.
Proof.
  unfold create_region. destruct (shm_create P _ _) as [base|]; intros [= <- <-]; [| done].
  cbn [regions_]. rewrite fmap_app. unfold relink. rewrite length_fmap.
  cbn [fmap list_fmap r_id r_descriptor RegionDescriptor.next_region_id]. f_equal.
  destruct (regions_ rm) as [| r0 rs]; [done |]. unfold link_last_region.
  apply list_fmap_alter. by apply Forall_true.
Qed.

Lemma create_overflow_region_chains c r c' :
  create_overflow_region P cfg c = (r, c') -> chains_ok c -> chains_ok c'.
Proof.
  unfold create_overflow_region.
  cbn [metadata with_metadata mm_session_name_ overflow_regions_ next_overflow_id_].
  destruct (shm_create P _ _) as [base|]; intros [= <- <-]; [| done].
  intros [Hregions Hoverflow]. split; [by destruct (overflow_regions_ (metadata c)) |].
  apply (chained_relink _ (next_overflow_id_ (metadata c))) in Hoverflow.
  unfold overflow_links in *.
  destruct (overflow_regions_ (metadata c)) as [| r0 rs] eqn:Hrs.
  - cbn. rewrite Hrs. exact Hoverflow.
  - cbn [metadata with_metadata with_header header overflow_regions_
         TelemetryHeader.first_overflow_region_id TelemetryHeader.sequence_fetch_add].
    rewrite fmap_app. unfold link_last_overflow.
    rewrite (list_fmap_alter _ _ (fun p => (fst p, next_overflow_id_ (metadata c))))
      by (by apply Forall_true).
    unfold relink in Hoverflow. rewrite length_fmap in Hoverflow. exact Hoverflow.
Qed.

Ltac chains_same :=
  eapply chains_ok_view; [| eassumption]; cbn [snd];
  rewrite ?chain_view_update_entry, ?chain_view_store_region_used,
    ?chain_view_store_overflow_descriptor by done;
  try done.

Lemma allocate_object_entry_chains c :
  chains_ok c -> chains_ok (snd (allocate_object_entry P cfg c)).
Proof.
  intros Hok. unfold allocate_object_entry.
  destruct (_ <? _); [by chains_same |].
  destruct (match current_overflow_region _ with Some _ => _ | None => _ end)
    as [[k n]|]; [by chains_same |].
  destruct (create_overflow_region P cfg c) as [[[k r0]|] c2] eqn:Hc;
    apply create_overflow_region_chains in Hc; cbn [snd]; try done.
  by chains_same.
Qed.

Lemma allocate_type_entry_chains c :
  chains_ok c -> chains_ok (snd (allocate_type_entry P cfg c)).
Proof.
  intros Hok. unfold allocate_type_entry.
  destruct (_ <? _); [by chains_same |].
  destruct (match current_overflow_region _ with Some _ => _ | None => _ end)
    as [[k n]|]; [by chains_same |].
  destruct (create_overflow_region P cfg c) as [[[k r0]|] c2] eqn:Hc;
    apply create_overflow_region_chains in Hc; cbn [snd]; try done.
  by chains_same.
Qed.

Lemma allocate_field_entries_chains n c :
  chains_ok c -> chains_ok (snd (allocate_field_entries P cfg n c)).
Proof.
  intros Hok. unfold allocate_field_entries.
  destruct (n =? 0); [done |].
  destruct (_ <=? _); [by chains_same |].
  destruct (match current_overflow_region _ with Some _ => _ | None => _ end)
    as [[k m]|]; [by chains_same |].
  destruct (create_overflow_region P cfg c) as [[[k r0]|] c2] eqn:Hc;
    apply create_overflow_region_chains in Hc; cbn [snd]; try done.
  destruct (_ <? _); cbn [snd]; [done | by chains_same].
Qed.

Lemma register_object_chains ptr type_id label c :
  chains_ok c -> chains_ok (snd (register_object P cfg ptr type_id label c)).
Proof.
  intros Hok. unfold register_object.
  destruct (get_location _ _) as [[region_id offset]|]; [| done].
  pose proof (allocate_object_entry_chains c Hok) as Hok1.
  destruct (allocate_object_entry P cfg c) as [[e|] c1];
    rewrite ?register_stores_fold; cbn [snd] in *; [| done].
  eapply chains_ok_view; [| exact Hok1].
  transitivity (chain_view (update_entry e
     (fun _ => registered_entry type_id region_id offset label) c1)); [done |].
  apply chain_view_update_entry.
Qed.

Lemma destroy_object_chains ptr c : chains_ok c -> chains_ok (destroy_object ptr c).
Proof.
  intros Hok. unfold destroy_object.
  destruct (ptr_to_entry_ (objects c) !! ptr) as [e|]; [| done].
  eapply chains_ok_view; [| exact Hok].
  transitivity (chain_view (update_entry e (ObjectEntry.store_state Destroyed) c));
    [done | apply chain_view_update_entry].
Qed.

Lemma allocate_chains size alignment c :
  chains_ok c -> chains_ok (snd (allocate P cfg size alignment c)).
Proof.
  intros Hok. unfold allocate.
  destruct (current_region (regions c)) as [[k region]|] eqn:Hcur; [| done].
  destruct (_ <? _); [| cbn [snd]; by chains_same].
  destruct (create_region P _ _) as [[[k' r]|] rm] eqn:Hc;
    apply create_region_links in Hc; cbn [snd regions_] in *.
  - rewrite chain_view_store_region_used || eapply chains_ok_view;
      [apply chain_view_store_region_used |].
    destruct Hok as [Hregions Hoverflow]. split; [| done].
    unfold region_links in *.
    cbn [with_header with_regions header regions
         TelemetryHeader.first_region_id TelemetryHeader.sequence_fetch_add].
    rewrite Hc.
    apply (chained_relink _ (next_region_id_ (regions c))) in Hregions.
    apply current_region_Some in Hcur as [Hk _].
    by destruct (regions_ (regions c)).
  - eapply chains_ok_view; [| exact Hok]. unfold chain_view, region_links.
    cbn [with_regions header regions metadata]. by rewrite Hc.
Qed.

Lemma RegionManager_init_chains session_name initial_size c :
  regions_ (regions c) = [] ->
  chains_ok c -> chains_ok (snd (RegionManager_init P session_name initial_size c)).
Proof.
  intros Hempty Hok. unfold RegionManager_init.
  destruct (create_region P _ _) as [[[k' r]|] rm] eqn:Hc.
  - pose proof (create_region_links _ _ _ _ Hc) as Hlinks.
    revert Hc. unfold create_region.
    destruct (shm_create P _ _) as [base|]; intros [= <- <- <-].
    cbn [snd regions_] in *. destruct Hok as [_ Hoverflow]. split; [| done].
    unfold region_links.
    cbn [with_header with_regions header regions regions_ r_id
         TelemetryHeader.first_region_id TelemetryHeader.store_first_region_id].
    rewrite Hempty. by cbn.
  - apply create_region_links in Hc. cbn [snd regions_] in *.
    eapply chains_ok_view; [| exact Hok]. unfold chain_view, region_links.
    cbn [with_regions header regions metadata]. by rewrite Hc.
Qed.

Lemma step_chains_ok (op : Op) (c : Context) :
  is_region_init op = false \/ regions_ (regions c) = [] ->
  chains_ok c -> chains_ok (step P cfg op c).
Proof.
  intros Hop Hok.
  destruct op as [s n | s | size alignment | | | n | ptr type_id label | ptr];
    cbn [step].
  - destruct Hop as [[=] | Hempty]. by apply RegionManager_init_chains.
  - done.
  - by apply allocate_chains.
  - by apply allocate_object_entry_chains.
  - by apply allocate_type_entry_chains.
  - by apply allocate_field_entries_chains.
  - by apply register_object_chains.
  - by apply destroy_object_chains.
Qed.

Lemma run_chains_ok (ops : list Op) (c : Context) :
  Forall (fun op => is_region_init op = false) ops ->
  chains_ok c -> chains_ok (run P cfg ops c).
Proof.
  intros Hops. revert c. induction Hops as [| op ops Hop Hops IH]; intros c Hok; [done |].
  cbn [run foldl]. apply IH. apply step_chains_ok; auto.
Qed.

(** X18. The chains that an observer follows. In a run from a new session
    in which [init], if it is called at all, is the first call, the data
    regions form a chain from the header: [first_region_id] is the id of the
    first region (0 while there is none), the descriptor of each region holds
    the id of the region created after it in [next_region_id], and the last
    one holds 0. The overflow regions form such a chain from
    [first_overflow_region_id]. *)
Theorem regions_are_chained_from_header
    (ops : list Op) (object_capacity type_capacity field_capacity : Z) :
  Forall (fun op => is_region_init op = false) (tail ops) ->
  let c := run P cfg ops
             (initial_context cfg object_capacity type_capacity field_capacity) in
  chained (TelemetryHeader.first_region_id (header c)) (region_links c) /\
  chained (TelemetryHeader.first_overflow_region_id (header c)) (overflow_links c).
Proof.
  intros Hops c. subst c.
  assert (Hinit : chains_ok
            (initial_context cfg object_capacity type_capacity field_capacity))
    by done.
  destruct ops as [| op ops]; [done |]. cbn [tail run foldl] in *.
  apply run_chains_ok; [done |]. apply step_chains_ok; [by right | done].
Qed.

(** X19. [init] has no guard against a second call: in a session that
    already has a data region, a successful [init] appends a region as
    [create_region] always does, and stores the id of that newest region in
    [first_region_id]. The header then no longer names the first region of
    the chain, so the regions created before are not reachable from it. *)
Theorem second_init_reroots_region_chain
    (ops : list Op) (object_capacity type_capacity field_capacity : Z)
    (session_name : string) (initial_size : Z) (c' : Context) :
  Z.of_nat (length ops) < 2 ^ 64 - 1 ->
  let c := run P cfg ops
             (initial_context cfg object_capacity type_capacity field_capacity) in
  regions_ (regions c) <> [] ->
  RegionManager_init P session_name initial_size c = (true, c') ->
  TelemetryHeader.first_region_id (header c') = next_region_id_ (regions c) /\
  region_ids c' = region_ids c ++ [next_region_id_ (regions c)] /\
  TelemetryHeader.first_region_id (header c') <> hd 0 (region_ids c') /\
  ~ chained (TelemetryHeader.first_region_id (header c')) (region_links c').
Proof.
  intros Hlen c Hne Hinit.
  assert (Hids : forall next ids, next = 1 -> ids = [] -> ids_ok P 1 next ids).
  { intros next ids -> ->. repeat split; [lia | lia | constructor | constructor | done..]. }
  destruct (run_ids_ok P cfg ops
              (initial_context cfg object_capacity type_capacity field_capacity) 1
              (Hids _ _ eq_refl eq_refl) (Hids _ _ eq_refl eq_refl) ltac:(lia))
    as [(_ & _ & Hbelow & _) _].
  fold c in Hbelow. revert Hinit. unfold RegionManager_init, create_region.
  cbn [rm_session_name_ regions_ next_region_id_ current_region_size_].
  destruct (shm_create P _ _) as [base|]; [| done]. intros [= <-].
  assert (Hnew : region_ids
            (with_header (TelemetryHeader.store_first_region_id (next_region_id_ (regions c)))
               (with_regions
                  (fun _ => mkRegionManager session_name
                     (link_last_region (next_region_id_ (regions c)) (regions_ (regions c))
                      ++ [mkRegion (next_region_id_ (regions c)) base
                            (RegionDescriptor.mk (REGION_MAGIC P) (next_region_id_ (regions c))
                               (u64 (sizeof_RegionDescriptor P + initial_size))
                               (sizeof_RegionDescriptor P) 0
                               (make_region_shm_name session_name
                                  (next_region_id_ (regions c))))])
                     (u64 (next_region_id_ (regions c) + 1)) initial_size) c)) =
          region_ids c ++ [next_region_id_ (regions c)]).
  { unfold region_ids. cbn [with_header with_regions regions regions_].
    rewrite fmap_app. f_equal. destruct (regions_ (regions c)); [done |].
    unfold link_last_region. by apply fmap_alter_same. }
  assert (Hhd : hd 0 (region_ids c ++ [next_region_id_ (regions c)]) <
                next_region_id_ (regions c)).
  { unfold region_ids in *. destruct (regions_ (regions c)) as [| r rs]; [done |].
    cbn. apply Forall_cons in Hbelow as [Hr _]. lia. }
  cbn [r_id] in *. split; [done |]. split; [exact Hnew |].
  assert (Hfirst : next_region_id_ (regions c) <>
                   hd 0 (region_ids c ++ [next_region_id_ (regions c)])) by lia.
  split.
  - rewrite Hnew. exact Hfirst.
  - intros [Hchained _]. apply Hfirst. rewrite <- Hnew.
    cbn [with_header header TelemetryHeader.first_region_id
         TelemetryHeader.store_first_region_id] in Hchained.
    rewrite Hchained at 1. unfold region_ids, region_links.
    by rewrite <- list_fmap_compose.
Qed.

End ChainProperties.

Section JsonProperties.

Lemma json_escape_char_cases (c : Ascii.ascii) :
  (json_must_escape c = false /\ json_escape_char c = String c EmptyString) \/
  (exists d : Ascii.ascii,
     json_escape_char c = String "092"%char (String d EmptyString) /\
     json_unescape_char d = c) \/
  ((Ascii.nat_of_ascii c < 32)%nat /\ c <> "009"%char /\ c <> "010"%char /\
   c <> "013"%char /\ json_escape_char c = String c EmptyString).
Proof.
  destruct c as [[] [] [] [] [] [] [] []]; vm_compute;
    first [ left; split; reflexivity
          | right; left; eexists; split; reflexivity
          | right; right; repeat split; first [lia | discriminate | reflexivity] ].
Qed.

Lemma string_app_nil (s : string) : EmptyString +:+ s = s.
Proof. done. Qed.

Lemma string_app_cons (c : Ascii.ascii) (s1 s2 : string) :
  String c s1 +:+ s2 = String c (s1 +:+ s2).
Proof. done. Qed.

Lemma json_unescape_escape (s : string) : json_unescape (json_escape s) = s.
Proof.
  induction s as [| c r IH]; [done |]. cbn [json_escape].
  destruct (json_escape_char_cases c)
    as [[Hplain ->] | [(d & -> & Hd) | (_ & _ & _ & _ & Hplain)]].
  - rewrite !string_app_cons, string_app_nil. cbn [json_unescape].
    destruct (Ascii.eqb_spec c "092"%char) as [-> | _]; [done | by rewrite IH].
  - rewrite !string_app_cons, string_app_nil. cbn [json_unescape].
    rewrite Ascii.eqb_refl. by rewrite IH, Hd.
  - rewrite Hplain, !string_app_cons, string_app_nil. cbn [json_unescape].
    destruct (Ascii.eqb_spec c "092"%char) as [-> | _]; [done | by rewrite IH].
Qed.

Lemma json_escape_app (s1 s2 : string) :
  json_escape (s1 +:+ s2) = json_escape s1 +:+ json_escape s2.
Proof.
  induction s1 as [| c r IH]; [done |].
  rewrite string_app_cons. cbn [json_escape]. rewrite IH.
  destruct (json_escape_char_cases c)
    as [[_ ->] | [(d & -> & _) | (_ & _ & _ & _ & ->)]];
    by rewrite !string_app_cons, !string_app_nil.
Qed.

(** X20. [json_escape] loses nothing: reading the escapes back gives the
    string that was escaped, so two different strings never have the same
    escape; the escape is at least as long as the string and at most twice
    as long. *)
Theorem json_escape_loses_nothing (s : string) :
  json_unescape (json_escape s) = s /\
  (forall s' : string, json_escape s = json_escape s' -> s = s') /\
  (String.length s <= String.length (json_escape s) <= 2 * String.length s)%nat.
Proof.
  split; [apply json_unescape_escape |]. split.
  - intros s' Heq. rewrite <- (json_unescape_escape s), <- (json_unescape_escape s').
    by rewrite Heq.
  - induction s as [| c r IH]; [simpl; lia |]. cbn [json_escape].
    destruct (json_escape_char_cases c)
      as [[_ ->] | [(d & -> & _) | (_ & _ & _ & _ & ->)]];
      rewrite !string_app_cons, string_app_nil; cbn [String.length]; lia.
Qed.

(** X21. Only five characters are escaped. [json_escape] works character by
    character, and a control character other than the tab, the newline and
    the carriage return (the backspace, the form feed, the NUL, ...) is
    copied to the output as it is, although JSON does not allow it unescaped
    inside a string. *)
Theorem json_escape_copies_other_control_characters
    (s1 s2 : string) (c : Ascii.ascii) :
  (Ascii.nat_of_ascii c < 32)%nat ->
  c <> "009"%char -> c <> "010"%char -> c <> "013"%char ->
  json_escape (s1 +:+ String c s2) = json_escape s1 +:+ String c (json_escape s2).
Proof.
  intros Hc Htab Hnl Hcr. rewrite json_escape_app. f_equal. cbn [json_escape].
  destruct (json_escape_char_cases c)
    as [[Hplain _] | [(d & Hd & Hback) | (_ & _ & _ & _ & ->)]];
    [| | by rewrite string_app_cons, string_app_nil].
  - unfold json_must_escape in Hplain. apply orb_false_elim in Hplain as [_ Hplain].
    apply Nat.ltb_ge in Hplain. lia.
  - exfalso. revert Hc Htab Hnl Hcr Hd Hback. clear.
    destruct c as [[] [] [] [] [] [] [] []]; vm_compute; intros; try lia;
      try congruence; try discriminate.
Qed.

End JsonProperties.

Section FindProperties.

Lemma find_object_loop_destroy (entries : list ObjectEntry.t) (label : string)
    (i0 j n : nat) :
  find_object_loop (alter (ObjectEntry.store_state Destroyed) i0 entries) label j n
    <> Some i0 /\
  forall i : nat,
    i <> i0 -> find_object_loop entries label j n = Some i ->
    find_object_loop (alter (ObjectEntry.store_state Destroyed) i0 entries) label j n
      = Some i.
Proof.
  revert j. induction n as [| n IH]; intros j; [done |]. cbn [find_object_loop].
  destruct (decide (j = i0)) as [-> | Hne].
  - destruct (Z.eqb_spec (ObjectEntry.load_state
                (slot (alter (ObjectEntry.store_state Destroyed) i0 entries) i0)) Alive)
      as [He | _]; [by apply slot_destroyed in He |].
    cbn [andb]. destruct (IH (S i0)) as [Hnot Hother]. split; [done |].
    intros i Hi. destruct (_ && _); [by intros [= <-] | by apply Hother].
  - rewrite slot_alter_ne by done. destruct (_ && _).
    + split; [by intros [= ->] | done].
    + apply IH.
Qed.

(** X22. A destroyed object is no longer found: after [destroy_object] on a
    registered pointer, [find_object] never returns the entry of that
    pointer, whatever the label, and a search that found another entry
    before finds the same entry after. *)
Theorem destroyed_object_is_not_found
    (ptr : Z) (e : SlotRef) (label : string) (c : Context) :
  ptr_to_entry_ (objects c) !! ptr = Some e ->
  find_object label (destroy_object ptr c) <> Some e /\
  forall e' : SlotRef,
    e' <> e -> find_object label c = Some e' ->
    find_object label (destroy_object ptr c) = Some e'.
Proof.
  intros Hptr. unfold destroy_object. rewrite Hptr. unfold find_object.
  cbn [with_objects with_header header header_objects TelemetryHeader.object_count
       TelemetryHeader.sequence_fetch_add].
  rewrite update_entry_header. destruct e as [i0 | k i0].
  - cbn [update_entry with_header_objects header_objects].
    destruct (find_object_loop_destroy (header_objects c) label i0 0
                (Z.to_nat (TelemetryHeader.object_count (header c)))) as [Hnot Hother].
    split.
    + destruct (find_object_loop (alter _ _ _) _ _ _) as [i|]; [| done].
      cbn. intros [= ->]. by apply Hnot.
    + intros e' Hne.
      destruct (find_object_loop (header_objects c) _ _ _) as [i|] eqn:Hfound; [| done].
      cbn. intros [= <-]. rewrite (Hother i); [done | | done]. by intros ->.
  - cbn [update_entry with_metadata header_objects]. split; [| done].
    by destruct (find_object_loop _ _ _ _).
Qed.

End FindProperties.

(** * The further properties at work on concrete sessions *)


(** X2 when the system grants the first region only: a request that does not
    fit returns null and the regions are as before. *)
Lemma allocate_null_iff_witness :
  let c := run single_region_platform small_config [OpRegionInit "s" 4096] new_session in
  fst (allocate single_region_platform small_config 5000 8 c) = None /\
  regions_ (regions (snd (allocate single_region_platform small_config 5000 8 c))) =
    regions_ (regions c).
Proof.
  intros c.
  destruct (allocate_null_iff single_region_platform small_config 5000 8 c)
    as (_ & _ & Hframe).
  assert (Hnull : fst (allocate single_region_platform small_config 5000 8 c) = None)
    by (vm_compute; reflexivity).
  split; [exact Hnull |]. by destruct (Hframe Hnull) as (_ & _ & Hr & _).
Defined.

(** X3 on the session with one allocation. *)
Lemma region_cursor_stays_within_mapping_witness :
  let c := run demo_platform small_config [OpRegionInit "s" 4096; OpAllocate 16 8]
             (initial_context small_config 1 1 4) in
  Forall (region_cursor_ok demo_platform small_config) (regions_ (regions c)).
Proof.
  assert (Hallocate : well_sized demo_platform small_config (OpAllocate 16 8)).
  { cbn. split; [lia |]. split; [lia |]. exists 3. split; [lia |].
    split; vm_compute; reflexivity. }
  destruct (region_cursor_stays_within_mapping demo_platform small_config
              [OpRegionInit "s" 4096; OpAllocate 16 8] (OpAllocate 16 8) 1 1 4)
    as [Hcursors _].
  - vm_compute. reflexivity.
  - vm_compute. reflexivity.
  - constructor; [cbn; lia |]. constructor; [exact Hallocate | constructor].
  - exact Hallocate.
  - exact Hcursors.
Defined.

(** X4 on the session with two payloads: the second payload is at offset 312
    of region 1, whose base is 2^32. *)
Lemma get_location_round_trip_witness :
  let c := run demo_platform small_config
             [OpRegionInit "s" 4096; OpAllocate 16 8; OpAllocate 16 8]
             (initial_context small_config 1 1 4) in
  get_location payload2 (regions c) = Some (1, 312) /\
  get_region_data 1 (regions c) = Some (2 ^ 32).
Proof.
  intros c.
  pose proof (get_location_round_trip demo_platform small_config
                [OpRegionInit "s" 4096; OpAllocate 16 8; OpAllocate 16 8] payload2 1 1 4)
    as Hloc.
  assert (Hfound : get_location payload2 (regions c) = Some (1, 312))
    by (vm_compute; reflexivity).
  split; [exact Hfound |].
  cbv zeta in Hloc. fold c in Hloc. rewrite Hfound in Hloc.
  destruct Hloc as (k & r & _ & _ & _ & _ & Hdata & Hsum & _); [vm_compute; reflexivity |].
  rewrite Hdata. f_equal. unfold payload2 in Hsum. lia.
Defined.

(** X5 on a session whose field requests spill into an overflow region. *)
Lemma counts_stay_within_capacity_witness :
  let c := run demo_platform small_config
             [OpAllocateFieldEntries 3; OpAllocateFieldEntries 3; OpAllocateTypeEntry;
              OpAllocateTypeEntry]
             (initial_context small_config 1 1 4) in
  Forall (fun p => 0 <= count_of p <= capacity_of p) (pool_counts FieldEntries c) /\
  length (pool_counts FieldEntries c) = 2%nat.
Proof.
  intros c. split; [| vm_compute; reflexivity].
  apply Forall_forall. intros p Hp.
  assert (Htyped : Forall typed
            [OpAllocateFieldEntries 3; OpAllocateFieldEntries 3; OpAllocateTypeEntry;
             OpAllocateTypeEntry]) by (repeat constructor; cbn; lia).
  assert (Hobjects : 1 <= overflow_object_capacity demo_platform small_config)
    by (vm_compute; discriminate).
  assert (Htypes : 1 <= overflow_type_capacity demo_platform small_config)
    by (vm_compute; discriminate).
  exact (counts_stay_within_capacity demo_platform small_config _ 1 1 4
           ltac:(lia) ltac:(lia) ltac:(lia) Hobjects Htypes Htyped FieldEntries p Hp).
Defined.

(** X6 on the session with two payloads: a registration takes the total of
    the object entries from 0 to 1. *)
Lemma totals_follow_allocations_witness :
  total_object_count one_registered = u32 (total_object_count two_payloads + 1) /\
  total_type_count one_registered = total_type_count two_payloads.
Proof.
  destruct (totals_follow_allocations demo_platform small_config two_payloads)
    as (_ & _ & _ & Hregister & _).
  - vm_compute. split; [discriminate | reflexivity].
  - vm_compute. split; [discriminate | reflexivity].
  - vm_compute. split; [discriminate | reflexivity].
  - destruct (Hregister payload1 100 "eurusd" (InHeader 0) one_registered)
      as (Hobjects & Htypes & _); [vm_compute; reflexivity |].
    split; [exact Hobjects | exact Htypes].
Defined.

(** X7 with overflow regions of 400 bytes, which hold no object entry: the
    first allocation of a session without header entries returns slot 0 of
    the new overflow region, whose sub-pool is empty. *)
Lemma new_overflow_region_serves_first_slot_witness :
  let c := initial_context cramped_config 0 0 0 in
  let result := allocate_object_entry demo_platform cramped_config c in
  fst result = Some (InOverflow 0 0) /\
  pool_counts ObjectEntries (snd result) !! 1%nat = Some (mkPoolCount 0 1) /\
  entry_at (InOverflow 0 0) (snd result) = None.
Proof.
  intros c result.
  destruct (new_overflow_region_serves_first_slot demo_platform cramped_config c)
    as (Hobjects & _).
  destruct (Hobjects (InOverflow 0 0) (snd result)) as (_ & Hpool & Hslot).
  - vm_compute. reflexivity.
  - vm_compute. discriminate.
  - split; [vm_compute; reflexivity |]. split; [exact Hpool |].
    apply Hslot. vm_compute. reflexivity.
Defined.

(** X8 on a new session: three field entries are the slots 0 to 2 of the
    header pool, whose count becomes 3. *)
Lemma allocate_field_entries_contiguous_witness :
  exists p' : PoolCount,
    pool_counts FieldEntries
      (snd (allocate_field_entries demo_platform small_config 3 new_session)) !! 0%nat =
      Some p' /\
    count_of p' = 3 /\ count_of p' <= capacity_of p'.
Proof.
  destruct (allocate_field_entries_contiguous demo_platform small_config 3 (InHeader 0)
              new_session
              (snd (allocate_field_entries demo_platform small_config 3 new_session)))
    as (p' & Hp' & Hcount & Hcapacity & _).
  - lia.
  - repeat constructor; vm_compute; first [discriminate | reflexivity].
  - vm_compute. reflexivity.
  - exists p'. split; [exact Hp' |]. split; [exact Hcount | exact Hcapacity].
Defined.

(** X9 on a header whose field count is 5: a request of 2^32 - 1 entries
    passes the check and takes the count back to 4. *)
Lemma allocate_field_entries_wraps_witness :
  let c := with_header (TelemetryHeader.store_field_count 5) (initial_context small_config 1 1 8) in
  fst (allocate_field_entries demo_platform small_config (2 ^ 32 - 1) c) =
    Some (InHeader 5) /\
  TelemetryHeader.field_count
    (header (snd (allocate_field_entries demo_platform small_config (2 ^ 32 - 1) c))) = 4.
Proof.
  intros c.
  destruct (allocate_field_entries_wraps demo_platform small_config (2 ^ 32 - 1) c)
    as [Ha _].
  - vm_compute. split; [discriminate | reflexivity].
  - lia.
  - vm_compute. discriminate.
  - vm_compute. discriminate.
  - rewrite Ha. vm_compute. split; reflexivity.
Defined.

(** X10 on a new session: nine field entries are more than the header pool
    (four) and the field sub-pool of an overflow region (eight) hold. *)
Lemma oversized_field_request_leaves_region_witness :
  let result := allocate_field_entries demo_platform small_config 9 new_session in
  fst result = None /\
  length (overflow_regions_ (metadata (snd result))) = 1%nat /\
  TelemetryHeader.sequence (header (snd result)) = 1.
Proof.
  intros result.
  destruct (proj1 (oversized_field_request_leaves_region demo_platform small_config 9
                     new_session))
    as (Hnull & Hpools & Hsequence).
  - vm_compute. reflexivity.
  - intros k region Hcurrent. vm_compute in Hcurrent. discriminate.
  - intros name size. unfold demo_platform, shm_create, demo_shm_create.
    destruct (shm_kind name); by eexists.
  - vm_compute. reflexivity.
  - split; [exact Hnull |]. split; [vm_compute; reflexivity |].
    subst result. rewrite Hsequence. vm_compute. reflexivity.
Defined.

(** X11 on the session with one registered object: the second registration
    creates an overflow region and registers, two steps of the sequence. *)
Lemma sequence_counts_changes_witness :
  TelemetryHeader.sequence
    (header (step demo_platform small_config
               (OpRegisterObject payload2 100 "gbpusd") one_registered)) =
  TelemetryHeader.sequence (header one_registered) + 2.
Proof.
  destruct (sequence_counts_changes demo_platform small_config
              (OpRegisterObject payload2 100 "gbpusd") one_registered)
    as (Hsequence & _).
  - vm_compute. split; [discriminate | reflexivity].
  - rewrite Hsequence. vm_compute. reflexivity.
Defined.

(** X12 on the session with one registered object. *)
Lemma registered_pointers_stand_for_alive_entries_witness :
  let c := run demo_platform small_config
             [OpRegionInit "s" 4096; OpAllocate 16 8; OpAllocate 16 8;
              OpRegisterObject payload1 100 "eurusd"]
             (initial_context small_config 1 1 4) in
  slot_published (InHeader 0) c /\
  exists entry : ObjectEntry.t,
    entry_at (InHeader 0) c = Some entry /\ ObjectEntry.load_state entry = Alive.
Proof.
  intros c.
  destruct (registered_pointers_stand_for_alive_entries demo_platform small_config
              [OpRegionInit "s" 4096; OpAllocate 16 8; OpAllocate 16 8;
               OpRegisterObject payload1 100 "eurusd"] 1 1 4
              ltac:(lia) ltac:(vm_compute; discriminate) ltac:(repeat constructor)
              payload1 (InHeader 0))
    as (Hpublished & Halive & _).
  - vm_compute. reflexivity.
  - split; [exact Hpublished | exact Halive].
Defined.

(** X13 on a session with one payload: the payload is registered twice (the
    second entry goes to an overflow region) and destroyed once; the first
    entry stays alive and no pointer stands for it. *)
Lemma reregistered_pointer_leaves_entry_alive_witness :
  let c := run demo_platform small_config [OpRegionInit "s" 4096; OpAllocate 16 8]
             (initial_context small_config 1 1 4) in
  let c1 := snd (register_object demo_platform small_config payload1 100 "eurusd" c) in
  let c2 := snd (register_object demo_platform small_config payload1 100 "eurusd" c1) in
  let c3 := run demo_platform small_config (OpDestroyObject <$> [payload1]) c2 in
  InHeader 0 <> InOverflow 0 0 /\
  alive_at (object_pools c3) (InHeader 0) /\
  ptr_to_entry_ (objects c3) !! payload1 <> Some (InHeader 0).
Proof.
  intros c c1 c2 c3.
  destruct (reregistered_pointer_leaves_entry_alive demo_platform small_config
              [OpRegionInit "s" 4096; OpAllocate 16 8] 1 1 4
              payload1 100 100 "eurusd" "eurusd" (InHeader 0) (InOverflow 0 0) c1 c2 []
              ltac:(lia) ltac:(vm_compute; discriminate) ltac:(repeat constructor))
    as (Hdifferent & _ & Halive & Hunmapped).
  - vm_compute. reflexivity.
  - vm_compute. reflexivity.
  - split; [exact Hdifferent |]. split; [exact Halive | apply Hunmapped].
Defined.

(** X14 on the session with two payloads: the first payload is found at the
    same place after the session has grown by a region. *)
Lemma locations_are_stable_witness :
  get_location payload1
    (regions (run demo_platform small_config
                [OpAllocate 5000 8; OpRegisterObject payload1 100 "eurusd"] two_payloads)) =
  Some (1, 296).
Proof.
  apply (proj1 (locations_are_stable demo_platform small_config
                  [OpAllocate 5000 8; OpRegisterObject payload1 100 "eurusd"]
                  two_payloads)).
  vm_compute. reflexivity.
Defined.

(** X15 on the session with two payloads: the registered object is appended
    to the listing. *)
Lemma get_all_objects_follows_registrations_witness :
  get_all_objects one_registered = get_all_objects two_payloads ++ [InHeader 0%nat].
Proof.
  destruct (get_all_objects_follows_registrations demo_platform small_config two_payloads)
    as (_ & _ & Hregister).
  apply (Hregister ltac:(repeat split; vm_compute;
                         first [discriminate | reflexivity | constructor])
           payload1 100 "eurusd" (InHeader 0) one_registered).
  vm_compute. reflexivity.
Defined.

(** X17 on the session after [init]. *)
Lemma allocated_block_is_located_witness :
  let c := run demo_platform small_config [OpRegionInit "s" 4096] new_session in
  get_location (2 ^ 32 + 296)
    (regions (snd (allocate demo_platform small_config 16 (2 ^ 3) c))) = Some (1, 296).
Proof.
  intros c.
  destruct (allocated_block_is_located demo_platform small_config 16 3 c 0%nat
              (mkRegion 1 (2 ^ 32)
                 (RegionDescriptor.mk 1 1 4392 296 0 (mkShmName DataRegionShm "s" 1))))
    as (_ & Hlocation & _).
  - vm_compute. reflexivity.
  - lia.
  - vm_compute. discriminate.
  - lia.
  - vm_compute. discriminate.
  - vm_compute. discriminate.
  - intros k' r' Hk'. lia.
  - vm_compute in Hlocation |- *. exact Hlocation.
Defined.

(** X18 on a session that grows by a data region and an overflow region. *)
Lemma regions_are_chained_from_header_witness :
  let c := run demo_platform small_config
             [OpRegionInit "s" 4096; OpAllocate 5000 8; OpAllocateObjectEntry;
              OpAllocateObjectEntry]
             (initial_context small_config 1 1 4) in
  chained (TelemetryHeader.first_region_id (header c)) (region_links c) /\
  region_links c = [(1, 2); (2, 0)] /\ overflow_links c = [(1, 0)].
Proof.
  intros c. split; [| split; vm_compute; reflexivity].
  apply (regions_are_chained_from_header demo_platform small_config
           [OpRegionInit "s" 4096; OpAllocate 5000 8; OpAllocateObjectEntry;
            OpAllocateObjectEntry] 1 1 4).
  repeat constructor.
Defined.

(** X19 on the session after [init]: a second [init] stores 2 in
    [first_region_id] while the chain starts at region 1. *)
Lemma second_init_reroots_region_chain_witness :
  let c := run demo_platform small_config [OpRegionInit "s" 4096]
             (initial_context small_config 1 1 4) in
  let c' := snd (RegionManager_init demo_platform "s" 4096 c) in
  TelemetryHeader.first_region_id (header c') = 2 /\ region_ids c' = [1; 2].
Proof.
  intros c c'.
  destruct (second_init_reroots_region_chain demo_platform small_config
              [OpRegionInit "s" 4096] 1 1 4 "s" 4096 c')
    as (Hfirst & Hids & _).
  - vm_compute. reflexivity.
  - vm_compute. discriminate.
  - vm_compute. reflexivity.
  - split; [rewrite Hfirst | rewrite Hids]; vm_compute; reflexivity.
Defined.

(** X21 on the backspace. *)
Lemma json_escape_copies_other_control_characters_witness :
  json_escape ("a" +:+ String "008"%char "b") =
  json_escape "a" +:+ String "008"%char (json_escape "b").
Proof.
  apply (json_escape_copies_other_control_characters "a" "b" "008"%char);
    [vm_compute; lia | discriminate..].
Defined.

(** X16 when the system grants no overflow region: with a full header pool
    [allocate_object_entry] returns null. *)
Lemma metadata_allocators_fail_only_without_room_witness :
  let c := step single_region_platform small_config OpAllocateObjectEntry new_session in
  fst (allocate_object_entry single_region_platform small_config c) = None.
Proof.
  intros c.
  apply (proj1 (metadata_allocators_fail_only_without_room single_region_platform
                  small_config c)).
  split; [vm_compute; discriminate |]. split; [| vm_compute; reflexivity].
  intros k region Hcurrent. vm_compute in Hcurrent. discriminate.
Defined.

(** X20 on a string that holds a quote and a newline. *)
Lemma json_escape_loses_nothing_witness :
  json_unescape (json_escape (String "034"%char (String "010"%char "a"))) =
  String "034"%char (String "010"%char "a").
Proof. apply (proj1 (json_escape_loses_nothing _)). Defined.

(** X22 on the session with one registered object. *)
Lemma destroyed_object_is_not_found_witness :
  find_object "eurusd" one_registered = Some (InHeader 0) /\
  find_object "eurusd" (destroy_object payload1 one_registered) <> Some (InHeader 0).
Proof.
  split; [vm_compute; reflexivity |].
  apply (destroyed_object_is_not_found payload1 (InHeader 0) "eurusd" one_registered).
  vm_compute. reflexivity.
Defined.
